(** * PDF paragraph tagger: entity transcoding, inline-markup escaping,
      section nesting, heading inference and paragraph split / merge

    A shallow embedding of the algorithmic core of the tagger scripts
    ([all.py] and [zone.py]) together with the properties of that core.

    Conventions of the embedding:
    - a Python [str] is the list of its Unicode code points ([list N]);
      ASCII literals of the source are written with [s2u "..."];
    - a Python [float] is an IEEE-754 binary64 value ([PrimFloat.float]),
      with the comparisons the source uses;
    - a [dict] keyed by page number is a [gmap nat _], a [set] of indices a
      [gset nat], a Python [list] a Rocq [list];
    - message boxes and re-rendering are recorded as a list of UI events. *)

From Stdlib Require Import ZArith NArith List Floats Lia Bool DecimalString.
From Stdlib Require DecimalNat.
From stdpp Require Import strings gmap sorting.
Import ListNotations.

Set Default Proof Using "Type".
Set Warnings "-inexact-float".

(** ** Python strings as code-point lists *)

Abbreviation pystr := (list N).

Definition s2u (s : string) : pystr :=
  map Ascii.N_of_ascii (String.list_ascii_of_string s).

(** [str(n)] for a non-negative integer. *)
Definition str_of_nat (n : nat) : pystr :=
  s2u (NilEmpty.string_of_uint (Nat.to_uint n)).

Definition str_of_N (n : N) : pystr :=
  s2u (NilEmpty.string_of_uint (N.to_uint n)).

Definition pystr_eqb (a b : pystr) : bool := bool_decide (a = b).

(** [sep.join(parts)] *)
Fixpoint join (sep : pystr) (parts : list pystr) : pystr :=
  match parts with
  | [] => []
  | [p] => p
  | p :: ps => p ++ sep ++ join sep ps
  end.

(** [s.startswith(p)] *)
Fixpoint startswith (p s : pystr) : bool :=
  match p, s with
  | [], _ => true
  | _ :: _, [] => false
  | a :: p', c :: s' => (a =? c)%N && startswith p' s'
  end.

(** ** Left-to-right substitution of non-overlapping matches

    Both [str.replace] and [re.sub] scan the subject from the left; at each
    position they try the pattern, and after a match they resume right
    behind it.  [m u] is the attempt at the head of the suffix [u]: the
    replacement text and the number of code points the match covers.  The
    counter [skip] is the number of code points of the current match still
    to be stepped over. *)

Section Scan.
Variable m : pystr -> option (pystr * nat).

Fixpoint scan_sub (skip : nat) (s : pystr) : pystr :=
  match s with
  | [] => []
  | c :: s' =>
      match skip with
      | S k => scan_sub k s'
      | O =>
          match m s with
          | Some (repl, len) => repl ++ scan_sub (pred len) s'
          | None => c :: scan_sub O s'
          end
      end
  end.
End Scan.

(** [s.replace(old, new)]; for an empty [old] Python inserts [new] before
    every code point and at the end. *)
Definition str_replace (old new s : pystr) : pystr :=
  match old with
  | [] => new ++ flat_map (fun c => c :: new) s
  | _ :: _ =>
      scan_sub (fun u => if startswith old u then Some (new, length old) else None) O s
  end.

(** ** Symbol entities ([HTML_ENTITY_MAP], [apply_html_entities]) *)

Module Entities.

Definition ent (cp : N) (entity : string) : pystr * pystr := ([cp], s2u entity).

(** The dict literal, in insertion order (the order [items()] iterates in). *)
Definition HTML_ENTITY_MAP : list (pystr * pystr) := Eval cbv in
  [ ent 0x00A9 "&copy;"; ent 0x00AE "&reg;"; ent 0x2122 "&trade;"; ent 0x2014 "&mdash;";
    ent 0x2013 "&ndash;"; ent 0x00B7 "&middot;"; ent 0x2026 "&hellip;"; ent 0x201C "&ldquo;";
    ent 0x201D "&rdquo;"; ent 0x2018 "&lsquo;"; ent 0x2019 "&rsquo;"; ent 0x2022 "&bull;";
    ent 0x00B0 "&deg;"; ent 0x00A3 "&pound;"; ent 0x20AC "&euro;"; ent 0x20B9 "&#8377;";
    ent 0x00B1 "&plusmn;"; ent 0x00D7 "&times;"; ent 0x00F7 "&divide;"; ent 0x2264 "&le;";
    ent 0x2265 "&ge;"; ent 0x2260 "&ne;"; ent 0x2248 "&asymp;"; ent 0x2261 "&equiv;";
    ent 0x223C "&sim;"; ent 0x2211 "&sum;"; ent 0x220F "&prod;"; ent 0x222B "&int;";
    ent 0x221A "&radic;"; ent 0x221E "&infin;"; ent 0x2202 "&part;"; ent 0x2207 "&nabla;";
    ent 0x2208 "&in;"; ent 0x2209 "&notin;"; ent 0x2205 "&#8709;"; ent 0x221D "&prop;";
    ent 0x2234 "&there4;"; ent 0x2235 "&because;"; ent 0x21D2 "&rArr;"; ent 0x21D4 "&hArr;";
    ent 0x2190 "&larr;"; ent 0x2192 "&rarr;"; ent 0x2194 "&harr;"; ent 0x21A6 "&#8614;";
    ent 0x2245 "&cong;"; ent 0x2217 "&lowast;"; ent 0x03B1 "&alpha;"; ent 0x03B2 "&beta;";
    ent 0x03B3 "&gamma;"; ent 0x03B4 "&delta;"; ent 0x03B5 "&epsilon;"; ent 0x03B6 "&zeta;";
    ent 0x03B7 "&eta;"; ent 0x03B8 "&theta;"; ent 0x03B9 "&iota;"; ent 0x03BA "&kappa;";
    ent 0x03BB "&lambda;"; ent 0x03BC "&mu;"; ent 0x03BD "&nu;"; ent 0x03BE "&xi;";
    ent 0x03BF "&omicron;"; ent 0x03C0 "&pi;"; ent 0x03C1 "&rho;"; ent 0x03C3 "&sigma;";
    ent 0x03C4 "&tau;"; ent 0x03C5 "&upsilon;"; ent 0x03C6 "&phi;"; ent 0x03C7 "&chi;";
    ent 0x03C8 "&psi;"; ent 0x03C9 "&omega;"; ent 0x03C2 "&sigmaf;"; ent 0x03D1 "&#976;";
    ent 0x0391 "&Alpha;"; ent 0x0392 "&Beta;"; ent 0x0393 "&Gamma;"; ent 0x0394 "&Delta;";
    ent 0x0395 "&Epsilon;"; ent 0x0396 "&Zeta;"; ent 0x0397 "&Eta;"; ent 0x0398 "&Theta;";
    ent 0x0399 "&Iota;"; ent 0x039A "&Kappa;"; ent 0x039B "&Lambda;"; ent 0x039C "&Mu;";
    ent 0x039D "&Nu;"; ent 0x039E "&Xi;"; ent 0x039F "&Omicron;"; ent 0x03A0 "&Pi;";
    ent 0x03A1 "&Rho;"; ent 0x03A3 "&Sigma;"; ent 0x03A4 "&Tau;"; ent 0x03A5 "&Upsilon;";
    ent 0x03A6 "&Phi;"; ent 0x03A7 "&Chi;"; ent 0x03A8 "&Psi;"; ent 0x03A9 "&Omega;";
    ent 0x00E1 "&aacute;"; ent 0x00E0 "&agrave;"; ent 0x00E2 "&acirc;"; ent 0x00E4 "&auml;";
    ent 0x00E3 "&atilde;"; ent 0x00E5 "&aring;"; ent 0x00C1 "&Aacute;"; ent 0x00C0 "&Agrave;";
    ent 0x00C2 "&Acirc;"; ent 0x00C4 "&Auml;"; ent 0x00C3 "&Atilde;"; ent 0x00C5 "&Aring;";
    ent 0x00E9 "&eacute;"; ent 0x00E8 "&egrave;"; ent 0x00EA "&ecirc;"; ent 0x00EB "&euml;";
    ent 0x00C9 "&Eacute;"; ent 0x00C8 "&Egrave;"; ent 0x00CA "&Ecirc;"; ent 0x00CB "&Euml;";
    ent 0x00ED "&iacute;"; ent 0x00EC "&igrave;"; ent 0x00EE "&icirc;"; ent 0x00EF "&iuml;";
    ent 0x00CD "&Iacute;"; ent 0x00CC "&Igrave;"; ent 0x00CE "&Icirc;"; ent 0x00CF "&Iuml;";
    ent 0x00F3 "&oacute;"; ent 0x00F2 "&ograve;"; ent 0x00F4 "&ocirc;"; ent 0x00F6 "&ouml;";
    ent 0x00F5 "&otilde;"; ent 0x00D3 "&Oacute;"; ent 0x00D2 "&Ograve;"; ent 0x00D4 "&Ocirc;";
    ent 0x00D6 "&Ouml;"; ent 0x00D5 "&Otilde;"; ent 0x00FA "&uacute;"; ent 0x00F9 "&ugrave;";
    ent 0x00FB "&ucirc;"; ent 0x00FC "&uuml;"; ent 0x00DA "&Uacute;"; ent 0x00D9 "&Ugrave;";
    ent 0x00DB "&Ucirc;"; ent 0x00DC "&Uuml;"; ent 0x00F1 "&ntilde;"; ent 0x00D1 "&Ntilde;";
    ent 0x00E7 "&ccedil;"; ent 0x00C7 "&Ccedil;"; ent 0x0153 "&oelig;"; ent 0x0152 "&OElig;";
    ent 0x00E6 "&aelig;"; ent 0x00C6 "&AElig;"; ent 0x2039 "&lsaquo;"; ent 0x203A "&rsaquo;";
    ent 0x00AB "&laquo;"; ent 0x00BB "&raquo;" ]%N.

Definition apply_html_entities (text : pystr) : pystr :=
  match text with
  | [] => text
  | _ :: _ => fold_left (fun t kv => str_replace (fst kv) (snd kv) t) HTML_ENTITY_MAP text
  end.

(** The entity the table holds for a code point, if any. *)
Fixpoint table_entity (tb : list (pystr * pystr)) (c : N) : option pystr :=
  match tb with
  | [] => None
  | (k, v) :: tb' => if pystr_eqb k [c] then Some v else table_entity tb' c
  end.

Definition transcode_char (tb : list (pystr * pystr)) (c : N) : pystr :=
  match table_entity tb c with
  | Some v => v
  | None => [c]
  end.

(** The decimal character reference [&#n;] of a code point. *)
Definition numeric_entity (cp : N) : pystr :=
  s2u "&#" ++ str_of_N cp ++ s2u ";".

End Entities.

(** ** Character classes of the [re] module on [str] patterns *)

Module Chars.
Local Open Scope N_scope.

Definition in_range (lo hi c : N) : bool := (lo <=? c) && (c <=? hi).

(** [\s]: the code points for which [str.isspace] holds (the same set
    [str.strip] removes). *)
Definition uni_isspace (c : N) : bool :=
  in_range 0x09 0x0D c || in_range 0x1C 0x20 c || (c =? 0x85) || (c =? 0xA0)
  || (c =? 0x1680) || in_range 0x2000 0x200A c || (c =? 0x2028) || (c =? 0x2029)
  || (c =? 0x202F) || (c =? 0x205F) || (c =? 0x3000).

(** First code point of every run of ten decimal digits (general category
    Nd, Unicode 14); the mathematical digits U+1D7CE..U+1D7FF form one run
    of fifty. *)
Definition decimal_runs : list N :=
  [ 0x30; 0x660; 0x6F0; 0x7C0; 0x966; 0x9E6; 0xA66; 0xAE6; 0xB66; 0xBE6;
    0xC66; 0xCE6; 0xD66; 0xDE6; 0xE50; 0xED0; 0xF20; 0x1040; 0x1090; 0x17E0;
    0x1810; 0x1946; 0x19D0; 0x1A80; 0x1A90; 0x1B50; 0x1BB0; 0x1C40; 0x1C50;
    0xA620; 0xA8D0; 0xA900; 0xA9D0; 0xA9F0; 0xAA50; 0xABF0; 0xFF10; 0x104A0;
    0x10D30; 0x11066; 0x110F0; 0x11136; 0x111D0; 0x112F0; 0x11450; 0x114D0;
    0x11650; 0x116C0; 0x11730; 0x118E0; 0x11950; 0x11C50; 0x11D50; 0x11DA0;
    0x16A60; 0x16AC0; 0x16B50; 0x1E140; 0x1E2F0; 0x1E950; 0x1FBF0 ].

(** [\d] *)
Definition uni_isdecimal (c : N) : bool :=
  existsb (fun lo => in_range lo (lo + 9) c) decimal_runs || in_range 0x1D7CE 0x1D7FF c.

(** [[a-zA-Z]], [[a-zA-Z0-9]] and [[0-9a-fA-F]] (no flags: ASCII only). *)
Definition is_ascii_alpha (c : N) : bool := in_range 0x61 0x7A c || in_range 0x41 0x5A c.
Definition is_ascii_alnum (c : N) : bool := is_ascii_alpha c || in_range 0x30 0x39 c.
Definition is_hex (c : N) : bool :=
  in_range 0x30 0x39 c || in_range 0x61 0x66 c || in_range 0x41 0x46 c.

(** A literal pattern code point under [re.I] on a [str] pattern.  The
    patterns of the source hold [<], [>], [/], [b] and [i]: the first three
    are uncased and match themselves; [b] matches the code points whose
    simple lower case is [b]; [i] matches those whose simple lower case is
    [i] or dotless [ı] (U+0049, U+0069, U+0130, U+0131). *)
Definition ci_eq (pc c : N) : bool :=
  if pc =? 0x62 then (c =? 0x62) || (c =? 0x42)
  else if pc =? 0x69 then (c =? 0x69) || (c =? 0x49) || (c =? 0x130) || (c =? 0x131)
  else pc =? c.

(** [str.lower], code point by code point, for ASCII and for U+0130 (whose
    lower case is [i] followed by U+0307).  The source lowers the matched
    tag text and region tags; the other cased code points (and the
    final-sigma rule) are left as they are here. *)
Definition lower_cp (c : N) : pystr :=
  if in_range 0x41 0x5A c then [c + 32]
  else if c =? 0x130 then [0x69; 0x307]
  else [c].

Definition py_lower (s : pystr) : pystr := flat_map lower_cp s.

Fixpoint lstrip (s : pystr) : pystr :=
  match s with
  | c :: s' => if uni_isspace c then lstrip s' else s
  | [] => []
  end.

(** [s.strip()] *)
Definition py_strip (s : pystr) : pystr := rev (lstrip (rev (lstrip s))).

End Chars.

(** ** Span styling and inline-markup-preserving escaping *)

Module Escape.
Import Chars.
Local Open Scope N_scope.

Definition B_OUTSIDE_I : pystr := Eval cbv in s2u "b_outside_i".
Definition I_OUTSIDE_B : pystr := Eval cbv in s2u "i_outside_b".

(** [wrap_span_text]; the global [NESTING_PREF] is passed in. *)
Definition wrap_span_text (NESTING_PREF : pystr) (s : pystr) (is_bold is_italic : bool) : pystr :=
  if is_bold && is_italic then
    if pystr_eqb NESTING_PREF B_OUTSIDE_I
    then s2u "<b><i>" ++ s ++ s2u "</i></b>"
    else s2u "<i><b>" ++ s ++ s2u "</b></i>"
  else if is_bold then s2u "<b>" ++ s ++ s2u "</b>"
  else if is_italic then s2u "<i>" ++ s ++ s2u "</i>"
  else s.

Definition ph_b_open : pystr := Eval cbv in s2u "@@B_OPEN@@".
Definition ph_b_close : pystr := Eval cbv in s2u "@@B_CLOSE@@".
Definition ph_i_open : pystr := Eval cbv in s2u "@@I_OPEN@@".
Definition ph_i_close : pystr := Eval cbv in s2u "@@I_CLOSE@@".

Definition tag_b_open : pystr := Eval cbv in s2u "<b>".
Definition tag_b_close : pystr := Eval cbv in s2u "</b>".
Definition tag_i_open : pystr := Eval cbv in s2u "<i>".
Definition tag_i_close : pystr := Eval cbv in s2u "</i>".

(** *** The backtracking matcher, one function per pattern construct

    Every function takes the rest of the pattern as a continuation [k] on
    the rest of the subject, so that a later failure backtracks into the
    earlier choice exactly as in the [re] engine. *)

(** A literal, case-insensitively; the result is the rest of the subject. *)
Fixpoint lit_ci (p s : pystr) : option pystr :=
  match p with
  | [] => Some s
  | a :: p' =>
      match s with
      | c :: s' => if ci_eq a c then lit_ci p' s' else None
      | [] => None
      end
  end.

(** [\s*] (greedy): the longest run of white space first, then shorter. *)
Fixpoint ws_star {A} (k : pystr -> option A) (s : pystr) : option A :=
  match s with
  | c :: s' =>
      if uni_isspace c
      then match ws_star k s' with Some r => Some r | None => k s end
      else k s
  | [] => k s
  end.

(** [(.*?)] under [re.S]: the shortest capture first.  The result pairs
    the captured text with what the continuation returns. *)
Fixpoint lazy_dot {A} (k : pystr -> option A) (s : pystr) : option (pystr * A) :=
  match k s with
  | Some r => Some ([], r)
  | None =>
      match s with
      | [] => None
      | c :: s' =>
          match lazy_dot k s' with
          | Some (inner, r) => Some (c :: inner, r)
          | None => None
          end
      end
  end.

(** [<o1>\s*<o2>(.*?)</c2>\s*</c1>] at the head of [s]: group 1 and the
    rest of the subject behind the match. *)
Definition match_nested (o1 o2 c2 c1 : pystr) (s : pystr) : option (pystr * pystr) :=
  match lit_ci o1 s with
  | None => None
  | Some s1 =>
      ws_star (fun s2 =>
        match lit_ci o2 s2 with
        | None => None
        | Some s3 =>
            lazy_dot (fun t =>
              match lit_ci c2 t with
              | None => None
              | Some t1 => ws_star (lit_ci c1) t1
              end) s3
        end) s1
  end.

(** [<o>(.*?)</c>] at the head of [s]. *)
Definition match_single (o c : pystr) (s : pystr) : option (pystr * pystr) :=
  match lit_ci o s with
  | None => None
  | Some s1 => lazy_dot (lit_ci c) s1
  end.

(** [re.sub(pattern, repl, s, flags=re.S|re.I)] for one of the tag
    patterns: [repl] receives [m.group(0)] and [m.group(1)]. *)
Definition re_sub_tag (matcher : pystr -> option (pystr * pystr))
    (repl : pystr -> pystr -> pystr) (s : pystr) : pystr :=
  scan_sub (fun u =>
    match matcher u with
    | Some (inner, rest) =>
        let len := (length u - length rest)%nat in
        Some (repl (take len u) inner, len)
    | None => None
    end) O s.

Definition escape_angle (s : pystr) : pystr :=
  str_replace [0x3E] (s2u "&gt;") (str_replace [0x3C] (s2u "&lt;") s).

Definition protect_nested (seq inner : pystr) : pystr :=
  let inner_escaped := escape_angle inner in
  if startswith tag_b_open (py_lower seq)
  then ph_b_open ++ ph_i_open ++ inner_escaped ++ ph_i_close ++ ph_b_close
  else ph_i_open ++ ph_b_open ++ inner_escaped ++ ph_b_close ++ ph_i_close.

Definition protect_b (seq inner : pystr) : pystr :=
  ph_b_open ++ escape_angle inner ++ ph_b_close.

Definition protect_i (seq inner : pystr) : pystr :=
  ph_i_open ++ escape_angle inner ++ ph_i_close.

(** *** Entities: [(#\d+;|#x[0-9a-fA-F]+;|[a-zA-Z][a-zA-Z0-9]+;)] *)

(** [[class]*] (greedy, backtracking) followed by [k]. *)
Fixpoint class_star (P : N -> bool) (k : pystr -> bool) (s : pystr) : bool :=
  match s with
  | c :: s' => if P c then class_star P k s' || k s else k s
  | [] => k s
  end.

Definition class_plus (P : N -> bool) (k : pystr -> bool) (s : pystr) : bool :=
  match s with
  | c :: s' => P c && class_star P k s'
  | [] => false
  end.

Definition semicolon (s : pystr) : bool :=
  match s with
  | c :: _ => c =? 0x3B
  | [] => false
  end.

(** [re.match(entity pattern, following)] as a truth value. *)
Definition entity_match (following : pystr) : bool :=
  match following with
  | c :: f =>
      ((c =? 0x23) && class_plus uni_isdecimal semicolon f)
      || ((c =? 0x23) &&
          match f with
          | x :: f' => (x =? 0x78) && class_plus is_hex semicolon f'
          | [] => false
          end)
      || (is_ascii_alpha c && class_plus is_ascii_alnum semicolon f)
  | [] => false
  end.

(** [amp_repl] at a suffix that starts with [&]: the thirty code points
    behind it decide. *)
Definition amp_repl (u : pystr) : option (pystr * nat) :=
  match u with
  | c :: rest =>
      if c =? 0x26
      then Some (if entity_match (take 30 rest) then [0x26] else s2u "&amp;", 1%nat)
      else None
  | [] => None
  end.

Definition amp_sub (s : pystr) : pystr := scan_sub amp_repl O s.

Definition restore_placeholders (s : pystr) : pystr :=
  let s := str_replace ph_b_close tag_b_close (str_replace ph_b_open tag_b_open s) in
  str_replace ph_i_close tag_i_close (str_replace ph_i_open tag_i_open s).

Definition protect_tags (text : pystr) : pystr :=
  let text_prot :=
    re_sub_tag (match_nested tag_b_open tag_i_open tag_i_close tag_b_close) protect_nested text in
  let text_prot :=
    re_sub_tag (match_nested tag_i_open tag_b_open tag_b_close tag_i_close) protect_nested text_prot in
  let text_prot := re_sub_tag (match_single tag_b_open tag_b_close) protect_b text_prot in
  re_sub_tag (match_single tag_i_open tag_i_close) protect_i text_prot.

Definition escape_html_keep_bi_and_entities (text : pystr) : pystr :=
  match text with
  | [] => []
  | _ :: _ =>
      let text_prot := protect_tags text in
      let text_prot := escape_angle text_prot in
      let text_prot := amp_sub text_prot in
      restore_placeholders text_prot
  end.

(** *** Vocabulary of the properties *)

(** [P] holds of some suffix of [s]. *)
Fixpoint any_suffix (P : pystr -> bool) (s : pystr) : bool :=
  P s || match s with
         | [] => false
         | _ :: s' => any_suffix P s'
         end.

(** One of the four tag patterns matches at the head of [u]. *)
Definition tag_pair_at (u : pystr) : bool :=
  bool_decide (is_Some (match_nested tag_b_open tag_i_open tag_i_close tag_b_close u))
  || bool_decide (is_Some (match_nested tag_i_open tag_b_open tag_b_close tag_i_close u))
  || bool_decide (is_Some (match_single tag_b_open tag_b_close u))
  || bool_decide (is_Some (match_single tag_i_open tag_i_close u)).

(** The text holds a recognized inline tag pair. *)
Definition has_inline_pair (x : pystr) : bool := any_suffix tag_pair_at x.

Definition placeholder_at (u : pystr) : bool :=
  startswith ph_b_open u || startswith ph_b_close u
  || startswith ph_i_open u || startswith ph_i_close u.

(** The text holds one of the four placeholder tokens. *)
Definition has_placeholder (x : pystr) : bool := any_suffix placeholder_at x.

(** One of [<b>], [</b>], [<i>], [</i>] (in any letter case the patterns
    accept) stands at the head of [u]. *)
Definition tag_token_at (u : pystr) : bool :=
  bool_decide (is_Some (lit_ci tag_b_open u)) || bool_decide (is_Some (lit_ci tag_b_close u))
  || bool_decide (is_Some (lit_ci tag_i_open u)) || bool_decide (is_Some (lit_ci tag_i_close u)).

Definition has_tag_token (x : pystr) : bool := any_suffix tag_token_at x.

(** The closing part [</c2>\s*</c1>] of a nested pattern matches at the
    head of [u]. *)
Definition closing_at (c2 c1 : pystr) (u : pystr) : bool :=
  bool_decide (is_Some (match lit_ci c2 u with
                        | None => None
                        | Some t1 => ws_star (lit_ci c1) t1
                        end)).

(** The text holds a closing sequence [</c2>\s*</c1>]. *)
Definition has_closing (c2 c1 : pystr) (x : pystr) : bool := any_suffix (closing_at c2 c1) x.

(** The pattern [<b>\s*<i>(.*?)</i>\s*</b>] matches somewhere in [x]. *)
Definition has_nested_b_i (x : pystr) : bool :=
  any_suffix
    (fun u => bool_decide
                (is_Some (match_nested tag_b_open tag_i_open tag_i_close tag_b_close u))) x.

(** [old in s] *)
Definition occurs (old s : pystr) : bool := any_suffix (startswith old) s.

Definition at_at : pystr := Eval cbv in s2u "@@".

(** A placeholder token would be found in the text while the placeholders
    are restored.  The bold tokens are replaced first: with bold outside
    the text then stands between [@@I_OPEN@@] and [@@I_CLOSE@@], with
    italic outside it stands behind [@@B_OPEN@@], which is consumed, and
    before [@@B_CLOSE@@]; the italic tokens are replaced when the bold ones
    are tags already. *)
Definition placeholder_collision (NESTING_PREF : pystr) (t : pystr) : bool :=
  if pystr_eqb NESTING_PREF B_OUTSIDE_I
  then occurs ph_b_open (at_at ++ t ++ at_at) || occurs ph_b_close (at_at ++ t ++ at_at)
       || occurs ph_i_open (t ++ at_at) || occurs ph_i_close (t ++ at_at)
  else occurs ph_b_open (t ++ at_at) || occurs ph_b_close (t ++ at_at)
       || occurs ph_i_open t || occurs ph_i_close t.

(** Every [&] of [s] begins an entity (within the window the source looks
    at). *)
Definition amp_begins_entity (s : pystr) : Prop :=
  forall pre r, s = pre ++ 0x26 :: r -> entity_match (take 30 r) = true.

End Escape.

(** ** The PDF text provider and the regions of [all.py] *)

Module Provider.
Import Chars.

(** A rectangle [(x0, y0, x1, y1)] in page coordinates. *)
Definition Rect : Type := float * float * float * float.

(** A span of [page.get_text('dict', clip=rect)]: its text, its flag bit
    mask (bit 1 italic, bit 4 bold) and its font size. *)
Record Span := {
  span_text : pystr;
  span_flags : Z;
  span_size : float
}.

(** A page answers a clip rectangle with blocks of lines of spans. *)
Definition Page : Type := Rect -> list (list (list Span)).

(** One span of [extract_text_from_rect]: nothing for an empty text. *)
Definition span_part (NESTING_PREF : pystr) (span : Span) : option pystr :=
  match span_text span with
  | [] => None
  | s =>
      match py_strip (str_replace [0x0A%N] [0x20%N] s) with
      | [] => None
      | s =>
          let flags := span_flags span in
          let is_italic := negb (Z.land flags 2 =? 0)%Z in
          let is_bold := negb (Z.land flags 16 =? 0)%Z in
          Some (Escape.wrap_span_text NESTING_PREF s is_bold is_italic)
      end
  end.

Definition line_text (NESTING_PREF : pystr) (line : list Span) : option pystr :=
  match omap (span_part NESTING_PREF) line with
  | [] => None
  | line_parts => Some (join [0x20%N] line_parts)
  end.

Definition extract_text_from_rect (NESTING_PREF : pystr) (page : Page) (rect : Rect) : pystr :=
  let txt_parts := omap (line_text NESTING_PREF) (concat (page rect)) in
  py_strip (join [0x0A%N] txt_parts).

(** A region [{'id', 'rect', 'text', 'tag'}]. *)
Record Region := {
  r_id : pystr;
  r_rect : Rect;
  r_text : pystr;
  r_tag : pystr
}.

(** The two global settings. *)
Record Settings := {
  AUTO_ENTITIES : bool;
  NESTING_PREF : pystr
}.

End Provider.

(** ** Nested sections ([build_nested_sections_from_regions]) *)

Module Sections.
Import Chars Provider.

(** The lines appended to [out]: an opening [<section id="...">] with the
    numbers its id is made of, a closing [</section>], or the element of a
    region. *)
Inductive Line :=
| SectionOpen (nums : list nat)
| SectionClose
| Element (tag id text_esc : pystr).

Definition quote : pystr := [0x22%N].

Definition render_line (l : Line) : pystr :=
  match l with
  | SectionOpen nums =>
      s2u "<section id=" ++ quote ++ join (s2u ".") (map str_of_nat nums) ++ quote ++ s2u ">"
  | SectionClose => s2u "</section>"
  | Element tag id text_esc =>
      s2u "<" ++ tag ++ s2u " id=" ++ quote ++ id ++ quote ++ s2u ">" ++ text_esc
        ++ s2u "</" ++ tag ++ s2u ">"
  end.

Definition level_map : list (pystr * nat) :=
  [ (s2u "h1", 1); (s2u "h2", 2); (s2u "h3", 3); (s2u "h4", 4) ].

(** [level_map.get(tag)] *)
Fixpoint dict_get {V} (d : list (pystr * V)) (key : pystr) : option V :=
  match d with
  | [] => None
  | (k, v) :: d' => if pystr_eqb k key then Some v else dict_get d' key
  end.

(** The variables of the loop.  [open_stack] is kept innermost level first
    (the head is [open_stack[-1]]). *)
Record Builder := {
  counters : list nat;
  open_stack : list nat;
  out : list Line;
  base_opened : bool
}.

Definition builder_init : Builder :=
  {| counters := [0; 0; 0; 0; 0]; open_stack := []; out := []; base_opened := false |}.

(** [close_to_level]: pops (and closes) while the innermost open level is
    at least [target_level]. *)
Fixpoint close_to_level (target_level : nat) (stack : list nat) (out : list Line)
    : list nat * list Line :=
  match stack with
  | top :: rest =>
      if target_level <=? top
      then close_to_level target_level rest (out ++ [SectionClose])
      else (stack, out)
  | [] => (stack, out)
  end.

(** [counters[lvl] += 1] followed by zeroing the deeper levels. *)
Definition bump_counters (lvl : nat) (counters : list nat) : list nat :=
  let counters := <[lvl := S (default 0 (counters !! lvl))]> counters in
  fold_left (fun cs lower => <[lower := 0]> cs) (seq (S lvl) (5 - S lvl)) counters.

(** [nums]: the page number followed by [counters[1..lvl]]. *)
Definition section_nums (page_index lvl : nat) (counters : list nat) : list nat :=
  S page_index :: map (fun i => default 0 (counters !! i)) (seq 1 lvl).

Definition ensure_base (page_index : nat) (b : Builder) : Builder :=
  if base_opened b then b
  else {| counters := counters b;
          open_stack := 0 :: open_stack b;
          out := out b ++ [SectionOpen [S page_index]];
          base_opened := true |}.

Section Build.
Variable cfg : Settings.
Variable page_index : nat.
Variable page : Page.

(** The escaped text of a region, as computed at the top of the loop
    body. *)
Definition region_text_esc (r : Region) : pystr :=
  let text :=
    match r_text r with
    | [] => extract_text_from_rect (NESTING_PREF cfg) page (r_rect r)
    | t => t
    end in
  let text := if AUTO_ENTITIES cfg then Entities.apply_html_entities text else text in
  Escape.escape_html_keep_bi_and_entities text.

Definition region_tag (r : Region) : pystr :=
  py_lower (match r_tag r with [] => s2u "p" | t => t end).

(** One iteration of the loop over [regs]. *)
Definition build_step (b : Builder) (r : Region) : Builder :=
  let tag := region_tag r in
  let text_esc := region_text_esc r in
  match dict_get level_map tag with
  | Some lvl =>
      let counters := bump_counters lvl (counters b) in
      let b := ensure_base page_index b in
      let '(stack, out) := close_to_level lvl (open_stack b) (out b) in
      let nums := section_nums page_index lvl counters in
      {| counters := counters;
         open_stack := lvl :: stack;
         out := out ++ [SectionOpen nums; Element tag (r_id r) text_esc];
         base_opened := true |}
  | None =>
      let b := ensure_base page_index b in
      {| counters := counters b;
         open_stack := open_stack b;
         out := out b ++ [Element tag (r_id r) text_esc];
         base_opened := base_opened b |}
  end.

Definition build_loop (regs : list Region) : Builder :=
  fold_left build_step regs builder_init.

(** The lines of the result: the loop, then one [</section>] per level
    still open. *)
Definition build_lines (regs : list Region) : list Line :=
  let b := build_loop regs in
  out b ++ map (fun _ => SectionClose) (open_stack b).

Definition build_nested_sections_from_regions (regs : list Region) : pystr :=
  join [0x0A%N] (map render_line (build_lines regs)).
End Build.

(** *** Vocabulary of the properties *)

Definition is_section_open (l : Line) : bool :=
  match l with SectionOpen _ => true | _ => false end.

(** Number of [<section ...>] elements among the lines. *)
Definition count_sections (ls : list Line) : nat :=
  length (filter (fun l => is_section_open l = true) ls).

(** The ids of the sections, in the order they are opened. *)
Definition section_ids (ls : list Line) : list (list nat) :=
  omap (fun l => match l with SectionOpen nums => Some nums | _ => None end) ls.




(** Lexicographic order on id paths. *)
Fixpoint lex_lt (a b : list nat) : Prop :=
  match a, b with
  | x :: a', y :: b' => x < y \/ (x = y /\ lex_lt a' b')
  | _, _ => False
  end.

(** An earlier section [a] and a later section [b] of the same level: the
    id of [b] is the greater one, and when both have the same parent path
    the last number of [b] is the greater one. *)
Definition ids_increase (a b : list nat) : Prop :=
  length a = length b ->
  lex_lt a b /\ (forall pre x y, a = pre ++ [x] -> b = pre ++ [y] -> x < y).

(** A stack of levels, innermost first, each strictly deeper than the one
    below it. *)
Fixpoint decreasing (stack : list nat) : Prop :=
  match stack with
  | a :: (b :: _) as rest => b < a /\ decreasing rest
  | _ => True
  end.

End Sections.

(** ** Python comparisons on floats and UI events *)

Module Py.

(** [max(a, b)] and [min(a, b)]: the second argument wins only when it is
    strictly greater (smaller). *)
Definition max2 (a b : float) : float := if PrimFloat.ltb a b then b else a.
Definition min2 (a b : float) : float := if PrimFloat.ltb b a then b else a.

(** [max(xs)] and [min(xs)] of a non-empty sequence, left to right. *)
Definition max_of (first : float) (rest : list float) : float := fold_left max2 rest first.
Definition min_of (first : float) (rest : list float) : float := fold_left min2 rest first.

(** Truth value of a float: everything but zero. *)
Definition truthy (x : float) : bool := negb (PrimFloat.eqb x 0).

(** [float(n)] of a small non-negative integer. *)
Definition float_of_nat (n : nat) : float := PrimFloat.of_uint63 (Uint63.of_Z (Z.of_nat n)).

(** What the user is shown. *)
Inductive UiEvent :=
| ShowInfo (title message : pystr)
| ShowWarning (title message : pystr)
| Render.

(** How a handler ends: it returns, or an exception escapes it. *)
Inductive Outcome (S : Type) :=
| Returned (st : S) (ui : list UiEvent)
| Raised (exc : string) (st : S) (ui : list UiEvent).
Arguments Returned {S} st ui.
Arguments Raised {S} exc st ui.

End Py.

(** ** Heading inference ([infer_headings_for_page]) *)

Module Headings.
Import Provider Py.

(** The fields of [State] the handler reads or writes. *)
Record State := {
  doc : option (list Page);
  page_index : nat;
  regions : gmap nat (list Region);
  undo_stack : list (gmap nat (list Region));
  redo_stack : list (gmap nat (list Region))
}.

(** [push_undo]: a deep copy of the regions is pushed, the redo stack is
    cleared. *)
Definition push_undo (st : State) : State :=
  {| doc := doc st; page_index := page_index st; regions := regions st;
     undo_stack := undo_stack st ++ [regions st];
     redo_stack := [] |}.

(** Sum and count of the non-zero span sizes inside a rectangle. *)
Definition size_stats (page : Page) (rect : Rect) : float * nat :=
  fold_left
    (fun acc span =>
       let '(total_sz, count) := acc in
       let sz := span_size span in
       if truthy sz then (PrimFloat.add total_sz sz, S count) else acc)
    (concat (concat (page rect))) (0%float, 0).

Definition avg_size (page : Page) (r : Region) : float :=
  let '(total_sz, count) := size_stats page (r_rect r) in
  if (0 <? count)%nat then PrimFloat.div total_sz (float_of_nat count) else 0%float.

(** The tag for an average size. *)
Definition new_tag_for (avg max_sz : float) : pystr :=
  let ratio := if PrimFloat.ltb 0 max_sz then PrimFloat.div avg max_sz else 0%float in
  if PrimFloat.ltb 0.9 ratio then s2u "h1"
  else if PrimFloat.ltb 0.75 ratio then s2u "h2"
  else if PrimFloat.ltb 0.6 ratio then s2u "h3"
  else s2u "p".

(** The update of one region in the second loop. *)
Definition retag (max_sz : float) (r : Region) (avg : float) : Region :=
  let new_tag := new_tag_for avg max_sz in
  {| r_id := new_tag ++ s2u "_" ++ r_id r;
     r_rect := r_rect r;
     r_text := r_text r;
     r_tag := new_tag |}.

(** [max(sizes) if sizes else 0.0] *)
Definition max_size (sizes : list float) : float :=
  match sizes with
  | [] => 0%float
  | s :: rest => max_of s rest
  end.

Definition msg_open_pdf : UiEvent := ShowInfo (s2u "Info") (s2u "Open a PDF first").
Definition msg_no_regions : UiEvent :=
  ShowInfo (s2u "Info") (s2u "No regions on this page to infer headings for.").
Definition msg_no_sizes : UiEvent :=
  ShowInfo (s2u "Info") (s2u "Could not detect font sizes on this page.").
Definition msg_done : UiEvent :=
  ShowInfo (s2u "Headings") (s2u "Heading inference completed for current page.").

(** [not state.doc] holds when no document is open and when the open
    document has no pages. *)
Definition infer_headings_for_page (st : State) : Outcome State :=
  match doc st with
  | None | Some [] => Returned st [msg_open_pdf]
  | Some d =>
      match d !! page_index st with
      | None => Raised "IndexError" st []
      | Some page =>
          let regs := default [] (regions st !! page_index st) in
          match regs with
          | [] => Returned st [msg_no_regions]
          | _ :: _ =>
              let sizes := map (avg_size page) regs in
              let max_sz := max_size sizes in
              if PrimFloat.leb max_sz 0 then Returned st [msg_no_sizes]
              else
                let st := push_undo st in
                let regs' := zip_with (retag max_sz) regs sizes in
                Returned
                  {| doc := doc st; page_index := page_index st;
                     regions := <[page_index st := regs']> (regions st);
                     undo_stack := undo_stack st;
                     redo_stack := redo_stack st |}
                  [Render; msg_done]
          end
      end
  end.

End Headings.

(** ** Paragraph split and merge ([zone.py]) *)

Module Zone.
Import Py.

Definition BBox : Type := float * float * float * float.

Definition bx0 (b : BBox) : float := b.1.1.1.
Definition by0 (b : BBox) : float := b.1.1.2.
Definition bx1 (b : BBox) : float := b.1.2.
Definition by1 (b : BBox) : float := b.2.

(** A word of [page.get_text("words")]: [(x0, y0, x1, y1, text, ...)]. *)
Record Word := {
  w0 : float;
  w1 : float;
  w2 : float;
  w3 : float;
  w4 : pystr
}.

(** A paragraph [{'bbox', 'text', 'words'}]. *)
Record Para := {
  p_bbox : BBox;
  p_text : pystr;
  p_words : list Word
}.

Record Click := {
  click_page : nat;
  click_para_index : nat;
  click_x : float;
  click_y : float
}.

(** The fields of the editor the two handlers read or write. *)
Record Editor := {
  paragraphs_by_page : gmap nat (list Para);
  current_page : nat;
  selected_indices : gset nat;
  undo_stack : list (gmap nat (list Para));
  last_right_click : option Click
}.

Definition bbox_merge (b1 b2 : BBox) : BBox :=
  (min2 (bx0 b1) (bx0 b2), min2 (by0 b1) (by0 b2),
   max2 (bx1 b1) (bx1 b2), max2 (by1 b1) (by1 b2)).

Definition push_undo (ed : Editor) : Editor :=
  {| paragraphs_by_page := paragraphs_by_page ed;
     current_page := current_page ed;
     selected_indices := selected_indices ed;
     undo_stack := undo_stack ed ++ [paragraphs_by_page ed];
     last_right_click := last_right_click ed |}.

(** [l.insert(i, x)]: an index past the end appends. *)
Definition list_insert_at {A} (i : nat) (x : A) (l : list A) : list A :=
  take i l ++ x :: drop i l.

(** Tight bounding box of a non-empty word list, as the four generator
    expressions compute it. *)
Definition words_bbox (w : Word) (ws : list Word) : BBox :=
  (min_of (w0 w) (map w0 ws), min_of (w1 w) (map w1 ws),
   max_of (w2 w) (map w2 ws), max_of (w3 w) (map w3 ws)).

Definition words_text (ws : list Word) : pystr := join [0x20%N] (map w4 ws).

Section Split.
(** [math.hypot]; the development is parametric in it. *)
Variable hypot : float -> float -> float.

Definition nearest_word_index (words_list : list Word) (cx cy : float) : option nat :=
  fst <$>
  fold_left
    (fun best iw =>
       let '(i, w) := iw in
       let wx := PrimFloat.div (PrimFloat.add (w0 w) (w2 w)) 2 in
       let wy := PrimFloat.div (PrimFloat.add (w1 w) (w3 w)) 2 in
       let d := hypot (PrimFloat.sub wx cx) (PrimFloat.sub wy cy) in
       match best with
       | None => Some (i, d)
       | Some (_, best_d) => if PrimFloat.ltb d best_d then Some (i, d) else best
       end)
    (imap (fun i w => (i, w)) words_list) None.

Definition msg_other_page : UiEvent :=
  ShowWarning (s2u "Split") (s2u "Split point is on another page.").
Definition msg_empty_right : UiEvent :=
  ShowInfo (s2u "Split") (s2u "Split location produced empty right paragraph.").
Definition msg_split (pi : nat) : UiEvent :=
  ShowInfo (s2u "Split") (s2u "P" ++ str_of_nat (S pi) ++ s2u " split horizontally.").

Definition on_split_horizontal (ed : Editor) : Outcome Editor :=
  match last_right_click ed with
  | None => Returned ed []
  | Some click =>
      if negb (click_page click =? current_page ed)%nat then Returned ed [msg_other_page]
      else
        let pi := click_para_index click in
        match paragraphs_by_page ed !! current_page ed with
        | None => Raised "KeyError" ed []
        | Some paras =>
            match paras !! pi with
            | None => Returned ed []
            | Some para =>
                let words := p_words para in
                match words with
                | [] => Returned ed []
                | _ :: _ =>
                    match nearest_word_index words (click_x click) (click_y click) with
                    | None => Returned ed []
                    | Some idx_word =>
                        let ed := push_undo ed in
                        let left_words := take (S idx_word) words in
                        let right_words := drop (S idx_word) words in
                        match left_words, right_words with
                        | _, [] => Returned ed [msg_empty_right]
                        | [], _ :: _ => Raised "ValueError" ed []
                        | l :: ls, r :: rs =>
                            let left :=
                              {| p_bbox := words_bbox l ls;
                                 p_text := words_text left_words;
                                 p_words := left_words |} in
                            let right :=
                              {| p_bbox := words_bbox r rs;
                                 p_text := words_text right_words;
                                 p_words := right_words |} in
                            let paras := delete pi paras in
                            let paras := list_insert_at pi right paras in
                            let paras := list_insert_at pi left paras in
                            Returned
                              {| paragraphs_by_page :=
                                   <[current_page ed := paras]> (paragraphs_by_page ed);
                                 current_page := current_page ed;
                                 selected_indices := selected_indices ed;
                                 undo_stack := undo_stack ed;
                                 last_right_click := None |}
                              [Render; msg_split pi]
                        end
                    end
                end
            end
        end
  end.
End Split.

(** [sorted(self.selected_indices)] *)
Definition sorted_indices (s : gset nat) : list nat := merge_sort le (elements s).

(** The adjacency test: every successor is its predecessor plus one. *)
Definition contiguous (sel : list nat) : bool :=
  forallb (fun ab => (ab.2 =? S ab.1)%nat) (zip sel (tail sel)).

(** The accumulators of the merge loop. *)
Record Merging := {
  m_paras : list Para;
  m_text : list pystr;
  m_words : list Word;
  m_bbox : BBox
}.

(** One iteration: [paras.pop(idx)] and the three accumulations; [None]
    when [idx] is out of range. *)
Definition merge_step (acc : option Merging) (idx : nat) : option Merging :=
  match acc with
  | None => None
  | Some a =>
      match m_paras a !! idx with
      | None => None
      | Some p =>
          Some {| m_paras := delete idx (m_paras a);
                  m_text := p_text p :: m_text a;
                  m_words := p_words p ++ m_words a;
                  m_bbox := bbox_merge (m_bbox a) (p_bbox p) |}
      end
  end.

Definition msg_select_more : UiEvent :=
  ShowInfo (s2u "Merge") (s2u "Select 2+ adjacent paragraphs (Ctrl+Click).").
Definition msg_not_adjacent : UiEvent :=
  ShowWarning (s2u "Merge") (s2u "Selected must be adjacent.").
Definition msg_merged (first : nat) : UiEvent :=
  ShowInfo (s2u "Merge") (s2u "Paragraphs merged into P" ++ str_of_nat (S first) ++ s2u ".").

Definition on_merge (ed : Editor) : Outcome Editor :=
  if (size (selected_indices ed) <? 2)%nat then Returned ed [msg_select_more]
  else
    match paragraphs_by_page ed !! current_page ed with
    | None => Raised "KeyError" ed []
    | Some paras =>
        let sel := sorted_indices (selected_indices ed) in
        if negb (contiguous sel) then Returned ed [msg_not_adjacent]
        else
          let ed := push_undo ed in
          let first := default 0 (head sel) in
          match paras !! first with
          | None => Raised "IndexError" ed []
          | Some p_first =>
              let start :=
                {| m_paras := paras; m_text := []; m_words := []; m_bbox := p_bbox p_first |} in
              match fold_left merge_step (rev sel) (Some start) with
              | None => Raised "IndexError" ed []
              | Some a =>
                  let merged :=
                    {| p_bbox := m_bbox a;
                       p_text := join [0x0A%N] (m_text a);
                       p_words := m_words a |} in
                  Returned
                    {| paragraphs_by_page :=
                         <[current_page ed := list_insert_at first merged (m_paras a)]>
                           (paragraphs_by_page ed);
                       current_page := current_page ed;
                       selected_indices := {[ first ]};
                       undo_stack := undo_stack ed;
                       last_right_click := last_right_click ed |}
                    [Render; msg_merged first]
              end
          end
    end.

(** The user's selection of a set of paragraphs (Ctrl+Click). *)
Definition select (s : gset nat) (ed : Editor) : Editor :=
  {| paragraphs_by_page := paragraphs_by_page ed;
     current_page := current_page ed;
     selected_indices := s;
     undo_stack := undo_stack ed;
     last_right_click := last_right_click ed |}.

(** A split at the stored point followed at once by the merge of the two
    halves; [None] when the split does not go through. *)
Definition split_then_merge (hypot : float -> float -> float) (ed : Editor)
    : option (Outcome Editor) :=
  match last_right_click ed, on_split_horizontal hypot ed with
  | Some click, Returned ed1 [Render; _] =>
      let pi := click_para_index click in
      Some (on_merge (select {[ pi; S pi ]} ed1))
  | _, _ => None
  end.

(** The paragraph at an index of the current page after a handler. *)
Definition para_after (o : option (Outcome Editor)) (i : nat) : option Para :=
  match o with
  | Some (Returned ed _) => paragraphs_by_page ed !! current_page ed ≫= (fun ps => ps !! i)
  | _ => None
  end.

(** *** Vocabulary of the properties *)

(** [r] is a least (greatest) element of [l]: it occurs in [l] and no
    element of [l] is smaller (greater). *)
Definition is_min (r : float) (l : list float) : Prop :=
  r ∈ l /\ forall y, y ∈ l -> PrimFloat.ltb y r = false.
Definition is_max (r : float) (l : list float) : Prop :=
  r ∈ l /\ forall y, y ∈ l -> PrimFloat.ltb r y = false.

(** [b] is the union bounding box of the rectangles [bs]: each edge is an
    edge of one of them, and no rectangle reaches beyond it. *)
Definition is_union_bbox (b : BBox) (bs : list BBox) : Prop :=
  is_min (bx0 b) (map bx0 bs) /\ is_min (by0 b) (map by0 bs) /\
  is_max (bx1 b) (map bx1 bs) /\ is_max (by1 b) (map by1 bs).

Definition word_box (w : Word) : BBox := (w0 w, w1 w, w2 w, w3 w).

(** The four coordinates of a word are numbers. *)
Definition word_is_number (w : Word) : Prop :=
  PrimFloat.is_nan (w0 w) = false /\ PrimFloat.is_nan (w1 w) = false /\
  PrimFloat.is_nan (w2 w) = false /\ PrimFloat.is_nan (w3 w) = false.

End Zone.

(** ** Sample data *)

Module Samples.
Import Provider Py.
Local Open Scope float_scope.

Definition span_of_size (sz : float) : Span :=
  {| span_text := s2u "x"; span_flags := 0; span_size := sz |}.

(** A page on which the rectangle with left edge [1] holds 12 pt text, the
    one with left edge [2] holds 9 pt text, and any other 6 pt text. *)
Definition page_12_9_6 : Page :=
  fun rect =>
    let x0 := rect.1.1.1 in
    if PrimFloat.eqb x0 1 then [[[span_of_size 12]]]
    else if PrimFloat.eqb x0 2 then [[[span_of_size 9]; [span_of_size 9; span_of_size 0]]]
    else [[[span_of_size 6]]].

Definition region_at (x0 : float) (n : nat) : Region :=
  {| r_id := s2u "p1_r" ++ str_of_nat n;
     r_rect := (x0, 0, x0 + 1, 1);
     r_text := s2u "text";
     r_tag := s2u "p" |}.

Definition st_12_9_6 : Headings.State :=
  {| Headings.doc := Some [page_12_9_6];
     Headings.page_index := 0;
     Headings.regions := {[ 0%nat := [region_at 1 1; region_at 2 2; region_at 3 3] ]};
     Headings.undo_stack := [];
     Headings.redo_stack := [] |}.

(** A page without any text, and a state with one region on it. *)
Definition page_blank : Page := fun _ => [].

Definition st_blank : Headings.State :=
  {| Headings.doc := Some [page_blank];
     Headings.page_index := 0;
     Headings.regions := {[ 0%nat := [region_at 1 1] ]};
     Headings.undo_stack := [];
     Headings.redo_stack := [] |}.

(** Regions for the section builder. *)
Definition cfg : Settings := {| AUTO_ENTITIES := true; NESTING_PREF := Escape.B_OUTSIDE_I |}.

Definition heading (tag text : string) (n : nat) : Region :=
  {| r_id := s2u tag ++ s2u "_p1_r" ++ str_of_nat n;
     r_rect := (0, 0, 1, 1);
     r_text := s2u text;
     r_tag := s2u tag |}.

Definition regs_h1_h3 : list Region := [heading "h1" "Intro" 1; heading "h3" "Detail" 2].


Definition regs_h1_to_h4 : list Region :=
  [heading "h1" "A" 1; heading "h2" "B" 2; heading "h3" "C" 3; heading "h4" "D" 4].

(** An editor with one paragraph of two words whose box is wider than
    its words, and a split point on the first word. *)
Definition hypot_sqrt (x y : float) : float := PrimFloat.sqrt (x * x + y * y).

Definition word_at (x0 y0 x1 y1 : float) (t : string) : Zone.Word :=
  {| Zone.w0 := x0; Zone.w1 := y0; Zone.w2 := x1; Zone.w3 := y1; Zone.w4 := s2u t |}.

Definition para_wide : Zone.Para :=
  {| Zone.p_bbox := (0, 0, 100, 100);
     Zone.p_text := s2u "a b";
     Zone.p_words := [word_at 10 10 20 20 "a"; word_at 30 10 40 20 "b"] |}.

Definition click_first_word : Zone.Click :=
  {| Zone.click_page := 0; Zone.click_para_index := 0;
     Zone.click_x := 15; Zone.click_y := 15 |}.

Definition ed_wide : Zone.Editor :=
  {| Zone.paragraphs_by_page := {[ 0%nat := [para_wide] ]};
     Zone.current_page := 0;
     Zone.selected_indices := ∅;
     Zone.undo_stack := [];
     Zone.last_right_click := Some click_first_word |}.

(** An editor with three one-word paragraphs, the last two selected, and
    one with the outer two selected. *)
Definition para_word (x0 y0 x1 y1 : float) (t : string) : Zone.Para :=
  {| Zone.p_bbox := (x0, y0, x1, y1);
     Zone.p_text := s2u t;
     Zone.p_words := [word_at x0 y0 x1 y1 t] |}.

Definition paras_three : list Zone.Para :=
  [para_word 0 0 10 10 "a"; para_word 0 20 15 30 "b"; para_word 5 40 12 50 "c"].

Definition ed_three (sel : gset nat) : Zone.Editor :=
  {| Zone.paragraphs_by_page := {[ 0%nat := paras_three ]};
     Zone.current_page := 0;
     Zone.selected_indices := sel;
     Zone.undo_stack := [];
     Zone.last_right_click := None |}.

End Samples.

(** ** What the escaped text is made of *)

Module Markup.
Import Escape.
Local Open Scope N_scope.

Definition inline_tags : list pystr := [tag_b_open; tag_b_close; tag_i_open; tag_i_close].

(** A text made of code points other than angle brackets and of the four
    inline tags: every [<] and every [>] in it belongs to a tag. *)
Inductive markup_safe : pystr -> Prop :=
| safe_nil : markup_safe []
| safe_char c s : c <> 0x3C -> c <> 0x3E -> markup_safe s -> markup_safe (c :: s)
| safe_tag t s : t ∈ inline_tags -> markup_safe s -> markup_safe (t ++ s).

End Markup.

(** ** Vocabulary for the shape of the section lines *)

Module Nesting.
Import Provider Sections.

(** The number of sections open behind the lines [ls] when [d] are open
    before them; [None] when a [</section>] has nothing to close or an
    element stands outside every section. *)
Fixpoint nesting (d : nat) (ls : list Line) : option nat :=
  match ls with
  | [] => Some d
  | SectionOpen _ :: ls' => nesting (S d) ls'
  | SectionClose :: ls' =>
      match d with
      | O => None
      | S d' => nesting d' ls'
      end
  | Element _ _ _ :: ls' =>
      match d with
      | O => None
      | S _ => nesting d ls'
      end
  end.

(** The elements among the lines, in order: tag, id and escaped text. *)
Definition elements (ls : list Line) : list (pystr * pystr * pystr) :=
  omap (fun l => match l with Element tag id text => Some (tag, id, text) | _ => None end) ls.

(** The region is a heading: its tag is a key of [level_map]. *)
Definition is_heading (r : Region) : bool :=
  bool_decide (is_Some (dict_get level_map (region_tag r))).

(** The tag of the region is written in ASCII, where [Chars.py_lower] is
    [str.lower]. *)
Definition ascii_tag (r : Region) : Prop := Forall (fun c => (c < 128)%N) (r_tag r).

End Nesting.

(** ** Editing handlers of [all.py]: undo, redo, tagging, deleting, paging *)

Module Editing.
Import Provider Py Headings.

(** [rect_normalize] *)
Definition rect_normalize (r : Rect) : Rect :=
  let '(x0, y0, x1, y1) := r in
  (min2 x0 x1, min2 y0 y1, max2 x0 x1, max2 y0 y1).

(** [generate_region_id]: the text [p<page_idx+1>_r<idx+1>]. *)
Definition generate_region_id (page_idx idx : nat) : pystr :=
  s2u "p" ++ str_of_nat (page_idx + 1) ++ s2u "_r" ++ str_of_nat (idx + 1).

(** The state with the selection [(page_idx, idx)]. *)
Record Session := {
  st : State;
  selected_region : option (nat * nat)
}.

(** [l.pop()]: the list without its last item, and that item. *)
Definition pop {A} (l : list A) : option (list A * A) :=
  match rev l with
  | [] => None
  | x :: r => Some (rev r, x)
  end.

Definition msg_nothing_to_undo : UiEvent := ShowInfo (s2u "Undo") (s2u "Nothing to undo").
Definition msg_nothing_to_redo : UiEvent := ShowInfo (s2u "Redo") (s2u "Nothing to redo").
Definition msg_select_first : UiEvent := ShowInfo (s2u "Tag") (s2u "Select a region first.").
Definition msg_select_to_delete : UiEvent :=
  ShowInfo (s2u "Info") (s2u "Select a region to delete").

Definition do_undo (s : Session) : Outcome Session :=
  match pop (undo_stack (st s)) with
  | None => Returned s [msg_nothing_to_undo]
  | Some (rest, top) =>
      Returned
        {| st := {| doc := doc (st s); page_index := page_index (st s);
                    regions := top;
                    undo_stack := rest;
                    redo_stack := redo_stack (st s) ++ [regions (st s)] |};
           selected_region := None |}
        [Render]
  end.

Definition do_redo (s : Session) : Outcome Session :=
  match pop (redo_stack (st s)) with
  | None => Returned s [msg_nothing_to_redo]
  | Some (rest, top) =>
      Returned
        {| st := {| doc := doc (st s); page_index := page_index (st s);
                    regions := top;
                    undo_stack := undo_stack (st s) ++ [regions (st s)];
                    redo_stack := rest |};
           selected_region := None |}
        [Render]
  end.

(** The region with its new tag and the tag put before its id. *)
Definition tagged (tag : pystr) (r : Region) : Region :=
  {| r_id := tag ++ s2u "_" ++ r_id r;
     r_rect := r_rect r;
     r_text := r_text r;
     r_tag := tag |}.

Definition with_regions (s : State) (regs : gmap nat (list Region)) : State :=
  {| doc := doc s; page_index := page_index s; regions := regs;
     undo_stack := undo_stack s; redo_stack := redo_stack s |}.

Definition set_tag_for_selected (tag : pystr) (s : Session) : Outcome Session :=
  match selected_region s with
  | None => Returned s [msg_select_first]
  | Some (pidx, idx) =>
      let regs := default [] (regions (st s) !! pidx) in
      match regs !! idx with
      | None => Returned s []
      | Some r =>
          let st1 := push_undo (st s) in
          Returned
            {| st := with_regions st1 (<[pidx := <[idx := tagged tag r]> regs]> (regions st1));
               selected_region := selected_region s |}
            [Render]
      end
  end.

(** [delete_region]; [sel] is [listbox.curselection()]. *)
Definition delete_region (sel : list nat) (s : Session) : Outcome Session :=
  match sel with
  | [] => Returned s [msg_select_to_delete]
  | idx :: _ =>
      let regs := default [] (regions (st s) !! page_index (st s)) in
      match regs !! idx with
      | None => Returned s []
      | Some _ =>
          let st1 := push_undo (st s) in
          Returned
            {| st := with_regions st1
                       (<[page_index st1 := delete idx regs]> (regions st1));
               selected_region := selected_region s |}
            [Render]
      end
  end.

Definition at_page (s : Session) (i : nat) : Session :=
  {| st := {| doc := doc (st s); page_index := i; regions := regions (st s);
              undo_stack := undo_stack (st s); redo_stack := redo_stack (st s) |};
     selected_region := None |}.

(** [prev_page] and [next_page]; a document without pages counts as no
    document. *)
Definition prev_page (s : Session) : Outcome Session :=
  match doc (st s) with
  | None | Some [] => Returned s []
  | Some (_ :: _) =>
      match page_index (st s) with
      | O => Returned s []
      | S i => Returned (at_page s i) [Render]
      end
  end.

Definition next_page (s : Session) : Outcome Session :=
  match doc (st s) with
  | None | Some [] => Returned s []
  | Some ((_ :: _) as d) =>
      if (S (page_index (st s)) <? length d)%nat
      then Returned (at_page s (S (page_index (st s)))) [Render]
      else Returned s []
  end.

(** The handlers that change regions, and paging, as one alphabet. *)
Inductive Action :=
| SetTag (tag : pystr)
| DeleteRegion (sel : list nat)
| InferHeadings
| Undo
| Redo
| PrevPage
| NextPage.

Definition lift (s : Session) (o : Outcome State) : Outcome Session :=
  match o with
  | Returned st' ui => Returned {| st := st'; selected_region := selected_region s |} ui
  | Raised exc st' ui => Raised exc {| st := st'; selected_region := selected_region s |} ui
  end.

Definition run (a : Action) (s : Session) : Outcome Session :=
  match a with
  | SetTag tag => set_tag_for_selected tag s
  | DeleteRegion sel => delete_region sel s
  | InferHeadings => lift s (infer_headings_for_page (st s))
  | Undo => do_undo s
  | Redo => do_redo s
  | PrevPage => prev_page s
  | NextPage => next_page s
  end.

(** The state a handler leaves behind, however it ends. *)
Definition state_of {S} (o : Outcome S) : S :=
  match o with
  | Returned s _ => s
  | Raised _ s _ => s
  end.

(** The handlers that edit the regions. *)
Definition is_edit (a : Action) : bool :=
  match a with
  | SetTag _ | DeleteRegion _ | InferHeadings => true
  | _ => false
  end.

(** Running the actions one after the other. *)
Definition run_all (acts : list Action) (s : Session) : Session :=
  fold_left (fun s a => state_of (run a s)) acts s.

End Editing.

(** ** More of [zone.py]: vertical split, undo, export *)

Module ZoneEdit.
Import Py Zone.

(** [(w[0] + w[2]) / 2] *)
Definition center_x (w : Word) : float := PrimFloat.div (PrimFloat.add (w0 w) (w2 w)) 2.
Definition center_y (w : Word) : float := PrimFloat.div (PrimFloat.add (w1 w) (w3 w)) 2.

(** [(x0 + x1) / 2] of a paragraph box. *)
Definition mid_x (b : BBox) : float := PrimFloat.div (PrimFloat.add (bx0 b) (bx1 b)) 2.

Definition msg_cannot_split : UiEvent :=
  ShowInfo (s2u "Split") (s2u "Cannot split vertically (no words on one side).").
Definition msg_split_vertically (pi : nat) : UiEvent :=
  ShowInfo (s2u "Split") (s2u "P" ++ str_of_nat (S pi) ++ s2u " split vertically.").

Definition on_split_vertical (ed : Editor) : Outcome Editor :=
  match last_right_click ed with
  | None => Returned ed []
  | Some click =>
      if negb (click_page click =? current_page ed)%nat
      then Returned ed [ShowWarning (s2u "Split") (s2u "Split point is on another page.")]
      else
        let pi := click_para_index click in
        match paragraphs_by_page ed !! current_page ed with
        | None => Raised "KeyError" ed []
        | Some paras =>
            match paras !! pi with
            | None => Returned ed []
            | Some para =>
                let mid := mid_x (p_bbox para) in
                let words_left :=
                  List.filter (fun w => PrimFloat.leb (center_x w) mid) (p_words para) in
                let words_right :=
                  List.filter (fun w => PrimFloat.ltb mid (center_x w)) (p_words para) in
                match words_left, words_right with
                | [], _ | _, [] => Returned ed [msg_cannot_split]
                | l :: ls, r :: rs =>
                    let ed := push_undo ed in
                    let left :=
                      {| p_bbox := words_bbox l ls;
                         p_text := words_text words_left;
                         p_words := words_left |} in
                    let right :=
                      {| p_bbox := words_bbox r rs;
                         p_text := words_text words_right;
                         p_words := words_right |} in
                    let paras := delete pi paras in
                    let paras := list_insert_at pi right paras in
                    let paras := list_insert_at pi left paras in
                    Returned
                      {| paragraphs_by_page :=
                           <[current_page ed := paras]> (paragraphs_by_page ed);
                         current_page := current_page ed;
                         selected_indices := selected_indices ed;
                         undo_stack := undo_stack ed;
                         last_right_click := last_right_click ed |}
                      [Render; msg_split_vertically pi]
                end
            end
        end
  end.

(** [on_undo]: the last snapshot becomes the paragraphs again. *)
Definition on_undo (ed : Editor) : Outcome Editor :=
  match Editing.pop (undo_stack ed) with
  | None => Returned ed []
  | Some (rest, top) =>
      Returned
        {| paragraphs_by_page := top;
           current_page := current_page ed;
           selected_indices := selected_indices ed;
           undo_stack := rest;
           last_right_click := last_right_click ed |}
        [Render]
  end.

(** The three handlers that change paragraphs. *)
Inductive Edit :=
| SplitHorizontal
| SplitVertical
| Merge.

Definition run (hypot : float -> float -> float) (a : Edit) (ed : Editor) : Outcome Editor :=
  match a with
  | SplitHorizontal => on_split_horizontal hypot ed
  | SplitVertical => on_split_vertical ed
  | Merge => on_merge ed
  end.

(** The distance [nearest_word_index] computes for a word. *)
Definition word_distance (hypot : float -> float -> float) (cx cy : float) (w : Word) : float :=
  hypot (PrimFloat.sub (center_x w) cx) (PrimFloat.sub (center_y w) cy).

(** The escaping of a paragraph text in [export_html]:
    [text.replace("&", "&amp;").replace("<", "&lt;").replace(">", "&gt;")]. *)
Definition escape_text (text : pystr) : pystr :=
  str_replace [0x3E%N] (s2u "&gt;")
    (str_replace [0x3C%N] (s2u "&lt;")
       (str_replace [0x26%N] (s2u "&amp;") text)).

(** The line [export_html] writes for a paragraph. *)
Definition export_line (para : Para) : pystr :=
  s2u "<p>" ++ escape_text (p_text para) ++ s2u "</p>".

(** The pages in ascending order, as [sorted(items())] gives them. *)
Definition page_le (a b : nat * list Para) : Prop := a.1 <= b.1.

#[global] Instance page_le_dec : RelDecision page_le := fun a b => decide (a.1 <= b.1).

Definition sorted_pages (m : gmap nat (list Para)) : list (nat * list Para) :=
  merge_sort page_le (map_to_list m).

(** The text [export_html] writes to the chosen file; nothing is written
    for an editor without paragraphs or without a chosen file. *)
Definition export_html (ed : Editor) (out : pystr) : option pystr :=
  if bool_decide (paragraphs_by_page ed = ∅) then None
  else match out with
       | [] => None
       | _ :: _ =>
           let lines :=
             [s2u "<!doctype html>"; s2u "<html><head><meta charset='utf-8'></head><body>"]
             ++ flat_map (fun kv => map export_line kv.2) (sorted_pages (paragraphs_by_page ed))
             ++ [s2u "</body></html>"] in
           Some (join [0x0A%N] lines)
       end.



End ZoneEdit.

(** ** Paragraph reordering and scaling ([stage.py]) *)

Module Stage.
Import Py.

(** A paragraph [{'bbox', 'text', 'words', 'number'}]. *)
Record Para := {
  p_bbox : Zone.BBox;
  p_text : pystr;
  p_words : list Zone.Word;
  p_number : nat
}.

(** The fields of the editor the handlers below read or write. *)
Record Editor := {
  paragraphs_by_page : gmap nat (list Para);
  current_page : nat;
  selected_indices : gset nat;
  undo_stack : list (gmap nat (list Para));
  scale : float;
  min_scale : float;
  max_scale : float
}.

Definition push_undo (ed : Editor) : Editor :=
  {| paragraphs_by_page := paragraphs_by_page ed;
     current_page := current_page ed;
     selected_indices := selected_indices ed;
     undo_stack := undo_stack ed ++ [paragraphs_by_page ed];
     scale := scale ed; min_scale := min_scale ed; max_scale := max_scale ed |}.

Definition with_number (n : nat) (p : Para) : Para :=
  {| p_bbox := p_bbox p; p_text := p_text p; p_words := p_words p; p_number := n |}.

(** [for i, p in enumerate(paras): p['number'] = i + 1] *)
Definition renumber (paras : list Para) : list Para :=
  imap (fun i p => with_number (S i) p) paras.

(** The editor after a move: the reordered page, the new selection. *)
Definition moved (ed : Editor) (paras : list Para) (sel : nat) : Editor :=
  {| paragraphs_by_page := <[current_page ed := paras]> (paragraphs_by_page ed);
     current_page := current_page ed;
     selected_indices := {[ sel ]};
     undo_stack := undo_stack ed;
     scale := scale ed; min_scale := min_scale ed; max_scale := max_scale ed |}.

(** [paras[i], paras[j] = paras[j], paras[i]]: both items are read (the
    one at [j] first), then both are stored. *)
Definition swap_items (i j : nat) (paras : list Para) : option (list Para) :=
  match paras !! j with
  | None => None
  | Some b =>
      match paras !! i with
      | None => None
      | Some a => Some (<[j := a]> (<[i := b]> paras))
      end
  end.

Definition ctrl_up (ed : Editor) : Outcome Editor :=
  let paras := default [] (paragraphs_by_page ed !! current_page ed) in
  match elements (selected_indices ed) with
  | [idx] =>
      match idx with
      | O => Returned ed []
      | S k =>
          let ed := push_undo ed in
          match swap_items k idx paras with
          | None => Raised "IndexError" ed []
          | Some paras => Returned (moved ed (renumber paras) k) [Render]
          end
      end
  | _ => Returned ed []
  end.

Definition ctrl_down (ed : Editor) : Outcome Editor :=
  let paras := default [] (paragraphs_by_page ed !! current_page ed) in
  match elements (selected_indices ed) with
  | [idx] =>
      if (length paras <=? S idx)%nat then Returned ed []
      else
        let ed := push_undo ed in
        match swap_items idx (S idx) paras with
        | None => Raised "IndexError" ed []
        | Some paras => Returned (moved ed (renumber paras) (S idx)) [Render]
        end
  | _ => Returned ed []
  end.

(** [change_scale]: the new scale is clamped between [min_scale] and
    [max_scale]; a change of less than a millionth is dropped. *)
Definition change_scale (factor : float) (ed : Editor) : Outcome Editor :=
  let new_scale :=
    max2 (min_scale ed) (min2 (max_scale ed) (PrimFloat.mul (scale ed) factor)) in
  if PrimFloat.ltb (PrimFloat.abs (PrimFloat.sub new_scale (scale ed))) 1e-6
  then Returned ed []
  else
    Returned
      {| paragraphs_by_page := paragraphs_by_page ed;
         current_page := current_page ed;
         selected_indices := selected_indices ed;
         undo_stack := undo_stack ed;
         scale := new_scale; min_scale := min_scale ed; max_scale := max_scale ed |}
      [Render].

(** The paragraph without its number. *)
Definition content (p : Para) : Zone.BBox * pystr * list Zone.Word :=
  (p_bbox p, p_text p, p_words p).

(** An editor as [__init__] leaves it, with three paragraphs on page 0
    and the second one selected. *)
Definition para_numbered (n : nat) (t : string) : Para :=
  {| p_bbox := (0, 0, 1, 1)%float; p_text := s2u t; p_words := []; p_number := n |}.

Definition ed_three : Editor :=
  {| paragraphs_by_page :=
       {[ 0%nat := [para_numbered 1 "a"; para_numbered 2 "b"; para_numbered 3 "c"] ]};
     current_page := 0;
     selected_indices := {[ 1%nat ]};
     undo_stack := [];
     scale := 1.0; min_scale := 0.1; max_scale := 5.0 |}.

End Stage.

(** ** Block deletion ([delete.py]) *)

Module Deleting.
Import Py.

(** A rectangle in canvas coordinates.  The corners of the drag area are
    the integer event coordinates, held here as the floats of the same
    value. *)
Definition VRect : Type := float * float * float * float.

(** The fields of the editor the handlers below read or write; [doc] is
    the number of pages of the open document. *)
Record Editor := {
  doc : option nat;
  current_page : nat;
  deleted_blocks : gmap nat (list nat);
  history : list (gmap nat (list nat));
  selected_block : option nat;
  drag_area : option VRect;
  block_visual_rects : list VRect
}.

(** [not self.doc]: no document, or one without pages. *)
Definition no_doc (ed : Editor) : bool :=
  match doc ed with
  | None | Some O => true
  | Some (S _) => false
  end.

Section View.
(** What [show_page] computes for a page from the document and the size
    of the canvas: the scaled rectangles of its blocks. *)
Variable visual_rects : nat -> list VRect.

Definition show_page (ed : Editor) : Editor :=
  if no_doc ed then ed
  else
    {| doc := doc ed; current_page := current_page ed;
       deleted_blocks := deleted_blocks ed; history := history ed;
       selected_block := None;
       drag_area := drag_area ed;
       block_visual_rects := visual_rects (current_page ed) |}.

(** The overlap test of the drag deletion. *)
Definition overlaps (area r : VRect) : bool :=
  let '(x0, y0, x1, y1) := area in
  let '(sx0, sy0, sx1, sy1) := r in
  negb (PrimFloat.ltb sx1 x0 || PrimFloat.ltb x1 sx0
        || PrimFloat.ltb sy1 y0 || PrimFloat.ltb y1 sy0).

(** [lst = d.setdefault(page, [])] followed by
    [if i not in lst: lst.append(i)]. *)
Definition mark (page i : nat) (d : gmap nat (list nat)) : gmap nat (list nat) :=
  let lst := default [] (d !! page) in
  <[page := if bool_decide (i ∈ lst) then lst else lst ++ [i]]> d.

(** The loop over the blocks of the drag deletion. *)
Definition mark_overlapping (page : nat) (area : VRect) (rects : list VRect)
    (d : gmap nat (list nat)) : gmap nat (list nat) :=
  fold_left (fun d ir => if overlaps area ir.2 then mark page ir.1 d else d)
            (imap (fun i r => (i, r)) rects) d.

Definition delete_action (ed : Editor) : Editor :=
  if no_doc ed then ed
  else
    let history := history ed ++ [deleted_blocks ed] in
    match selected_block ed with
    | Some b =>
        show_page
          {| doc := doc ed; current_page := current_page ed;
             deleted_blocks := mark (current_page ed) b (deleted_blocks ed);
             history := history;
             selected_block := None;
             drag_area := drag_area ed;
             block_visual_rects := block_visual_rects ed |}
    | None =>
        match drag_area ed with
        | Some area =>
            show_page
              {| doc := doc ed; current_page := current_page ed;
                 deleted_blocks :=
                   mark_overlapping (current_page ed) area (block_visual_rects ed)
                     (deleted_blocks ed);
                 history := history;
                 selected_block := None;
                 drag_area := None;
                 block_visual_rects := block_visual_rects ed |}
        | None =>
            {| doc := doc ed; current_page := current_page ed;
               deleted_blocks := deleted_blocks ed;
               history := history;
               selected_block := selected_block ed;
               drag_area := drag_area ed;
               block_visual_rects := block_visual_rects ed |}
        end
    end.

Definition undo (ed : Editor) : Editor :=
  match Editing.pop (history ed) with
  | None => ed
  | Some (rest, top) =>
      show_page
        {| doc := doc ed; current_page := current_page ed;
           deleted_blocks := top;
           history := rest;
           selected_block := selected_block ed;
           drag_area := drag_area ed;
           block_visual_rects := block_visual_rects ed |}
  end.

Definition at_page (ed : Editor) (i : nat) : Editor :=
  show_page
    {| doc := doc ed; current_page := i;
       deleted_blocks := deleted_blocks ed; history := history ed;
       selected_block := selected_block ed;
       drag_area := drag_area ed;
       block_visual_rects := block_visual_rects ed |}.

Definition next_page (ed : Editor) : Editor :=
  match doc ed with
  | None | Some O => ed
  | Some (S last) => if (last <=? current_page ed)%nat then ed else at_page ed (S (current_page ed))
  end.

Definition prev_page (ed : Editor) : Editor :=
  if no_doc ed then ed
  else match current_page ed with
       | O => ed
       | S i => at_page ed i
       end.

Definition msg_out_of_range : UiEvent :=
  ShowWarning (s2u "Invalid") (s2u "Page number out of range!").

(** [jump_to_page]; [num] is what the dialog returned. *)
Definition jump_to_page (num : option Z) (ed : Editor) : Editor * list UiEvent :=
  match doc ed with
  | None | Some O => (ed, [])
  | Some (S _ as total) =>
      match num with
      | None => (ed, [])
      | Some n =>
          if ((1 <=? n) && (n <=? Z.of_nat total))%Z
          then (at_page ed (Z.to_nat (n - 1)), [])
          else (ed, [msg_out_of_range])
      end
  end.

(** The handlers as one alphabet. *)
Inductive Action :=
| Delete
| UndoDelete
| NextPage
| PrevPage
| JumpTo (num : option Z).

Definition run (a : Action) (ed : Editor) : Editor :=
  match a with
  | Delete => delete_action ed
  | UndoDelete => undo ed
  | NextPage => next_page ed
  | PrevPage => prev_page ed
  | JumpTo num => (jump_to_page num ed).1
  end.

Definition run_all (acts : list Action) (ed : Editor) : Editor :=
  fold_left (fun ed a => run a ed) acts ed.
End View.

(** The blocks deleted on a page. *)
Definition deleted_on (ed : Editor) (page : nat) : list nat :=
  default [] (deleted_blocks ed !! page).

(** A view with two blocks on every page, and an editor on a three-page
    document with a drag area over the first block. *)
Definition two_blocks (page : nat) : list VRect :=
  [(0, 0, 10, 10)%float; (0, 20, 10, 30)%float].

Definition ed_dragged : Editor :=
  {| doc := Some 3; current_page := 1;
     deleted_blocks := ∅; history := [];
     selected_block := None;
     drag_area := Some (5, 5, 8, 8)%float;
     block_visual_rects := two_blocks 1 |}.

End Deleting.

(** ** The entity converter of [entity.py] *)

Module EntityFile.
Local Open Scope N_scope.

Section Names.
(** [html.entities.codepoint2name] of the standard library: the name of
    the entity of a code point, where there is one. *)
Variable codepoint2name : N -> option pystr.

(** What the loop body appends for one character. *)
Definition convert_char (cp : N) : pystr :=
  if cp <? 128 then [cp]
  else
    match codepoint2name cp with
    | Some name => s2u "&" ++ name ++ s2u ";"
    | None => s2u "&#" ++ str_of_N cp ++ s2u ";"
    end.

Definition convert_chars_to_entities (text : pystr) : pystr :=
  concat (map convert_char text).
End Names.

(** A table with the single entry of [é]. *)
Definition only_eacute (cp : N) : option pystr :=
  if cp =? 0xE9 then Some (s2u "eacute") else None.

End EntityFile.

(** ** Region detection ([auto_detect]) *)

Module AutoDetect.
Import Provider Py Headings.
Local Open Scope float_scope.

(** A block of [page.get_text('blocks')]: [(x0, y0, x1, y1, text, ...)]. *)
Record Block := {
  k0 : float;
  k1 : float;
  k2 : float;
  k3 : float;
  k4 : pystr
}.

(** [list.sort(key=...)] and [sorted(...)]: a stable sort that compares
    with [<] only.  An item is put behind the items that are not greater
    than it.  (Where the keys are numbers, any stable sort gives this
    order; page coordinates are numbers.) *)
Fixpoint insert_by {A} (key : A -> float) (x : A) (l : list A) : list A :=
  match l with
  | [] => [x]
  | y :: l' => if PrimFloat.ltb (key x) (key y) then x :: l else y :: insert_by key x l'
  end.

Definition sort_by {A} (key : A -> float) (l : list A) : list A :=
  fold_left (fun acc x => insert_by key x acc) l [].

(** [blocks[i][1] - blocks[i-1][3]] for [i] from 1. *)
Definition gaps_of (blocks : list Block) : list float :=
  zip_with (fun prev next => k1 next - k3 prev) blocks (tail blocks).

(** [sorted([g for g in gaps if g>=0] + [0])[len(gaps)//2] if gaps else 0];
    [None] where the index is out of range. *)
Definition median_gap (gaps : list float) : option float :=
  match gaps with
  | [] => Some 0
  | _ :: _ =>
      sort_by id (List.filter (fun g => PrimFloat.leb 0 g) gaps ++ [0])
        !! (length gaps / 2)%nat
  end.

(** [max(5, median_gap * 1.5)] *)
Definition threshold_of (median : float) : float := max2 5 (median * 1.5).

Definition block_rect (b : Block) : Rect := (k0 b, k1 b, k2 b, k3 b).

(** One iteration of the grouping loop: the current rectangle (if any)
    and the rectangles finished so far. *)
Definition group_step (threshold : float) (acc : option Rect * list Rect) (b : Block)
    : option Rect * list Rect :=
  match acc with
  | (None, regs_calc) => (Some (block_rect b), regs_calc)
  | (Some (cur_x0, cur_y0, cur_x1, cur_y1), regs_calc) =>
      let gap := k1 b - cur_y1 in
      if PrimFloat.ltb threshold gap
      then (Some (block_rect b), regs_calc ++ [(cur_x0, cur_y0, cur_x1, cur_y1)])
      else (Some (min2 cur_x0 (k0 b), cur_y0, max2 cur_x1 (k2 b), max2 cur_y1 (k3 b)),
            regs_calc)
  end.

Definition finish (acc : option Rect * list Rect) : list Rect :=
  match acc with
  | (Some cur, regs_calc) => regs_calc ++ [cur]
  | (None, regs_calc) => regs_calc
  end.

Definition group_blocks (threshold : float) (blocks : list Block) : list Rect :=
  finish (fold_left (group_step threshold) blocks (None, [])).

Section Detect.
Variable cfg : Settings.

(** The region appended for a rectangle when the page has [n] regions. *)
Definition new_region (page : Page) (page_idx n : nat) (rr : Rect) : Region :=
  let text := extract_text_from_rect (NESTING_PREF cfg) page rr in
  let text := if AUTO_ENTITIES cfg then Entities.apply_html_entities text else text in
  {| r_id := Editing.generate_region_id page_idx n;
     r_rect := rr;
     r_text := text;
     r_tag := s2u "p" |}.

Definition append_regions (page : Page) (page_idx : nat) (regs_calc : list Rect)
    (page_regs : list Region) : list Region :=
  fold_left (fun regs rr => regs ++ [new_region page page_idx (length regs) rr])
            regs_calc page_regs.

(** [auto_detect(state.page_index, ...)]; [blocks] is what
    [page.get_text('blocks')] returns for the current page. *)
Definition auto_detect (blocks : list Block) (st : State) : Outcome State :=
  match doc st with
  | None | Some [] => Returned st []
  | Some ((_ :: _) as d) =>
      let page_idx := page_index st in
      match d !! page_idx with
      | None => Raised "IndexError" st []
      | Some page =>
          let blocks := sort_by k1 blocks in
          match median_gap (gaps_of blocks) with
          | None => Raised "IndexError" st []
          | Some median =>
              let regs_calc := group_blocks (threshold_of median) blocks in
              let st1 := match regs_calc with [] => st | _ :: _ => push_undo st end in
              let page_regs := default [] (regions st1 !! page_idx) in
              Returned
                (Editing.with_regions st1
                   (<[page_idx := append_regions page page_idx regs_calc page_regs]>
                      (regions st1)))
                [Render]
          end
      end
  end.
End Detect.

(** *** Vocabulary of the properties *)

(** The rectangle [r] reaches over the block [b] on all four sides. *)
Definition covers (r : Rect) (b : Block) : Prop :=
  let '(x0, y0, x1, y1) := r in
  PrimFloat.ltb (k0 b) x0 = false /\ PrimFloat.ltb (k1 b) y0 = false /\
  PrimFloat.ltb x1 (k2 b) = false /\ PrimFloat.ltb y1 (k3 b) = false.

(** Three blocks side by side, as the columns of a page are. *)
Definition block_at (x0 y0 x1 y1 : float) : Block :=
  {| k0 := x0; k1 := y0; k2 := x1; k3 := y1; k4 := s2u "text" |}.

Definition three_columns : list Block :=
  [block_at 0 0 10 100; block_at 20 0 30 100; block_at 40 0 50 100].

(** Two paragraphs far apart. *)
Definition two_paragraphs : list Block :=
  [block_at 0 200 10 300; block_at 0 0 10 100].

End AutoDetect.

(** ** The text of a section id *)

Module SectionIds.
Import Sections.

(** [".".join(nums)], the value of the [id] attribute of a section. *)
Definition id_text (nums : list nat) : pystr := join (s2u ".") (map str_of_nat nums).

End SectionIds.

(** * Properties *)

(** ** Substitution facts *)

Section ScanFacts.
Variable m : pystr -> option (pystr * nat).

Lemma scan_sub_skip k s : scan_sub m k s = scan_sub m 0 (drop k s).
Proof.
  revert k. induction s as [|c s IH]; intros [|k]; simpl; try reflexivity.
  apply IH.
Qed.

Lemma scan_sub_hit c s repl len :
  m (c :: s) = Some (repl, len) ->
  scan_sub m 0 (c :: s) = repl ++ scan_sub m 0 (drop (pred len) s).
Proof. intros H. simpl. rewrite H. now rewrite scan_sub_skip. Qed.

Lemma scan_sub_miss c s :
  m (c :: s) = None -> scan_sub m 0 (c :: s) = c :: scan_sub m 0 s.
Proof. intros H. simpl. now rewrite H. Qed.

(** Where the pattern matches at no position, the subject is unchanged. *)
Lemma scan_sub_id s :
  (forall u, u <> [] -> u `suffix_of` s -> m u = None) -> scan_sub m 0 s = s.
Proof.
  induction s as [|c s IH]; intros H; [reflexivity|].
  rewrite scan_sub_miss by (apply H; [discriminate | reflexivity]).
  f_equal. apply IH. intros u Hu Hs. apply H; [assumption|].
  now apply suffix_cons_r.
Qed.
End ScanFacts.

Lemma startswith_app p s : startswith p (p ++ s) = true.
Proof. induction p as [|a p IH]; simpl; [reflexivity|]. now rewrite N.eqb_refl. Qed.

Lemma startswith_prefix p s : startswith p s = true -> exists r, s = p ++ r.
Proof.
  revert s. induction p as [|a p IH]; intros s H; simpl in H.
  - now exists s.
  - destruct s as [|c s]; [discriminate|].
    apply andb_true_iff in H as [Ha Hp]. apply N.eqb_eq in Ha. subst c.
    destruct (IH _ Hp) as [r ->]. now exists r.
Qed.

Lemma str_replace_nil old new : old <> [] -> str_replace old new [] = [].
Proof. destruct old; [congruence | reflexivity]. Qed.

Lemma str_replace_hit old new s :
  old <> [] -> str_replace old new (old ++ s) = new ++ str_replace old new s.
Proof.
  destruct old as [|a old]; [congruence|]. intros _.
  unfold str_replace. change ((a :: old) ++ s) with (a :: (old ++ s)).
  erewrite scan_sub_hit.
  2:{ change (a :: old ++ s) with ((a :: old) ++ s). now rewrite startswith_app. }
  simpl. now rewrite drop_app_length.
Qed.

Lemma str_replace_miss old new c s :
  old <> [] -> startswith old (c :: s) = false ->
  str_replace old new (c :: s) = c :: str_replace old new s.
Proof.
  destruct old as [|a old]; [congruence|]. intros _ H.
  unfold str_replace. rewrite scan_sub_miss; [reflexivity|]. now rewrite H.
Qed.

(** Replacing a single code point is a code-point-wise map. *)
Lemma str_replace_single k v s :
  str_replace [k] v s = flat_map (fun c => if (c =? k)%N then v else [c]) s.
Proof.
  induction s as [|c s IH]; [reflexivity|]. simpl flat_map.
  destruct (N.eqb_spec c k) as [->|Hne].
  - change (k :: s) with ([k] ++ s). rewrite str_replace_hit by discriminate.
    now rewrite IH.
  - rewrite str_replace_miss; [now rewrite IH | discriminate |].
    simpl. destruct (N.eqb_spec k c); [congruence | reflexivity].
Qed.

(** Without an occurrence of [old], nothing is replaced. *)
Lemma str_replace_absent old new s :
  old <> [] ->
  (forall u, u `suffix_of` s -> startswith old u = false) ->
  str_replace old new s = s.
Proof.
  intros Hold. induction s as [|c s IH]; intros H.
  - now apply str_replace_nil.
  - rewrite str_replace_miss; [|assumption|now apply H].
    f_equal. apply IH. intros u Hu. apply H. now apply suffix_cons_r.
Qed.

Lemma flat_map_flat_map {A B C} (f : A -> list B) (g : B -> list C) l :
  flat_map g (flat_map f l) = flat_map (fun x => flat_map g (f x)) l.
Proof.
  induction l as [|x l IH]; [reflexivity|]. simpl.
  now rewrite flat_map_app, IH.
Qed.

Lemma flat_map_id_on {A} (f : A -> list A) l :
  Forall (fun x => f x = [x]) l -> flat_map f l = l.
Proof. induction 1 as [|x l Hx _ IH]; [reflexivity|]. simpl. now rewrite Hx, IH. Qed.

(** ** Entity transcoding *)

Section EntityFacts.
Import Entities.
Local Open Scope N_scope.

(** An entry as the table has them: the key is one code point outside
    ASCII, the entity is ASCII only. *)
Definition entry_ok (kv : pystr * pystr) : bool :=
  match fst kv with
  | [k] => (128 <=? k) && forallb (fun c => c <? 128) (snd kv)
  | _ => false
  end.

Lemma table_ok : forallb entry_ok HTML_ENTITY_MAP = true.
Proof. vm_compute. reflexivity. Qed.

Lemma table_entity_ascii tb c :
  forallb entry_ok tb = true -> c < 128 -> table_entity tb c = None.
Proof.
  induction tb as [|[k v] tb IH]; intros Hok Hc; [reflexivity|].
  simpl in Hok. apply andb_true_iff in Hok as [Hkv Htb].
  simpl. unfold entry_ok in Hkv. simpl in Hkv.
  destruct k as [|k [|? ?]]; try discriminate.
  apply andb_true_iff in Hkv as [Hk _]. apply N.leb_le in Hk.
  unfold pystr_eqb. rewrite bool_decide_eq_false_2; [now apply IH|].
  intros [= ->]. lia.
Qed.

Lemma transcode_ascii_entity tb v :
  forallb entry_ok tb = true -> forallb (fun c => c <? 128) v = true ->
  flat_map (transcode_char tb) v = v.
Proof.
  intros Hok Hv. apply flat_map_id_on. apply Forall_forall. intros c Hc.
  unfold transcode_char. rewrite table_entity_ascii; [reflexivity|assumption|].
  rewrite forallb_forall in Hv. apply N.ltb_lt, Hv. now apply list_elem_of_In.
Qed.

(** The chain of replacements over the table is a single pass that maps
    each code point to its table entry. *)
Lemma fold_replace_table tb s :
  forallb entry_ok tb = true ->
  fold_left (fun t kv => str_replace (fst kv) (snd kv) t) tb s
  = flat_map (transcode_char tb) s.
Proof.
  revert s. induction tb as [|[k v] tb IH]; intros s Hok.
  - simpl. symmetry. apply flat_map_id_on. now apply Forall_forall.
  - simpl in Hok. apply andb_true_iff in Hok as [Hkv Htb].
    simpl fold_left. rewrite IH by assumption.
    unfold entry_ok in Hkv. simpl in Hkv.
    destruct k as [|k [|? ?]]; try discriminate.
    apply andb_true_iff in Hkv as [_ Hv].
    rewrite str_replace_single, flat_map_flat_map.
    apply flat_map_ext. intros c.
    unfold transcode_char at 2. simpl. unfold pystr_eqb.
    destruct (N.eqb_spec c k) as [->|Hne].
    + rewrite bool_decide_eq_true_2 by reflexivity.
      now apply transcode_ascii_entity.
    + rewrite bool_decide_eq_false_2 by congruence.
      simpl. now rewrite app_nil_r.
Qed.

(** [apply_html_entities] is total and maps every code point on its own:
    a table code point to the table's entity, any other to itself. *)
Lemma apply_html_entities_pointwise text :
  apply_html_entities text = flat_map (transcode_char HTML_ENTITY_MAP) text.
Proof.
  destruct text as [|c text]; [reflexivity|].
  unfold apply_html_entities. apply fold_replace_table, table_ok.
Qed.

Lemma table_entity_is_ascii tb c v :
  forallb entry_ok tb = true -> table_entity tb c = Some v ->
  forallb (fun c => c <? 128) v = true.
Proof.
  induction tb as [|[k w] tb IH]; [discriminate|].
  simpl. intros Hok E. apply andb_true_iff in Hok as [Hkw Htb].
  destruct (pystr_eqb k [c]).
  - injection E as ->. unfold entry_ok in Hkw. simpl in Hkw.
    destruct k as [|k [|? ?]]; try discriminate.
    now apply andb_true_iff in Hkw as [_ Hv].
  - now apply IH.
Qed.

Lemma transcode_no_raw tb text :
  forallb entry_ok tb = true ->
  Forall (fun c => table_entity tb c = None) (flat_map (transcode_char tb) text).
Proof.
  intros Hok. induction text as [|c text IH]; [constructor|].
  simpl. apply Forall_app. split; [|assumption].
  unfold transcode_char. destruct (table_entity tb c) as [v|] eqn:E.
  - pose proof (table_entity_is_ascii _ _ _ Hok E) as Hv.
    apply Forall_forall. intros x Hx.
    apply table_entity_ascii; [assumption|].
    rewrite forallb_forall in Hv. apply N.ltb_lt, Hv. now apply list_elem_of_In.
  - constructor; [assumption|constructor].
Qed.

(** No code point of the table is left in the result. *)
Lemma apply_html_entities_no_raw text :
  Forall (fun c => table_entity HTML_ENTITY_MAP c = None) (apply_html_entities text).
Proof.
  rewrite apply_html_entities_pointwise. apply transcode_no_raw, table_ok.
Qed.

(** C6: the transcoder is total, maps each code point on its own (table
    code points to the table's entity, all others to themselves) and
    leaves no table code point behind; but for the theta symbol U+03D1
    the table's entity is the character reference of U+03D0, which is
    not the reference of U+03D1. *)
Theorem apply_html_entities_theta_symbol :
  (forall text,
      apply_html_entities text = flat_map (transcode_char HTML_ENTITY_MAP) text /\
      Forall (fun c => table_entity HTML_ENTITY_MAP c = None) (apply_html_entities text)) /\
  apply_html_entities [0x3D1] = numeric_entity 0x3D0 /\
  apply_html_entities [0x3D1] <> numeric_entity 0x3D1.
Proof.
  split; [|split].
  - intros text. split;
      [apply apply_html_entities_pointwise | apply apply_html_entities_no_raw].
  - vm_compute. reflexivity.
  - vm_compute. discriminate.
Qed.
End EntityFacts.

(** ** Order facts on binary64 values *)

Section FloatOrder.

Ltac cmp_cases :=
  repeat match goal with
    | H : context [Z.compare ?a ?b] |- _ => destruct (Z.compare_spec a b)
    | H : context [Pos.compare_cont Eq ?a ?b] |- _ =>
        change (Pos.compare_cont Eq a b) with (Pos.compare a b) in *;
        destruct (Pos.compare_spec a b)
    | |- context [Z.compare ?a ?b] => destruct (Z.compare_spec a b)
    | |- context [Pos.compare_cont Eq ?a ?b] =>
        change (Pos.compare_cont Eq a b) with (Pos.compare a b) in *;
        destruct (Pos.compare_spec a b)
    end;
  simpl in *; try congruence; try lia.

Lemma SFcompare_antisym x y :
  SFcompare y x = option_map CompOpp (SFcompare x y).
Proof.
  destruct x as [[]|[]| |[] mx ex], y as [[]|[]| |[] my ey];
    simpl; try reflexivity; cmp_cases.
Qed.

Lemma SFcompare_lt_trans x y z :
  SFcompare x y = Some Lt -> SFcompare y z = Some Lt -> SFcompare x z = Some Lt.
Proof.
  destruct x as [[]|[]| |[] mx ex], y as [[]|[]| |[] my ey], z as [[]|[]| |[] mz ez];
    simpl; intros H1 H2; try discriminate; try reflexivity;
    injection H1 as H1; injection H2 as H2; f_equal; cmp_cases.
Qed.

Lemma SFcompare_refl x : x <> S754_nan -> SFcompare x x = Some Eq.
Proof.
  destruct x as [[]|[]| |[] mx ex]; simpl; intros H; try congruence;
    rewrite Z.compare_refl;
    change (Pos.compare_cont Eq mx mx) with (Pos.compare mx mx);
    now rewrite Pos.compare_refl.
Qed.

Lemma ltb_irrefl x : PrimFloat.ltb x x = false.
Proof.
  rewrite FloatAxioms.ltb_spec. unfold SFltb.
  destruct (Prim2SF x) as [[]|[]| |[] mx ex] eqn:E; simpl; try reflexivity;
    rewrite Z.compare_refl;
    change (Pos.compare_cont Eq mx mx) with (Pos.compare mx mx);
    now rewrite Pos.compare_refl.
Qed.

Lemma ltb_trans x y z :
  PrimFloat.ltb x y = true -> PrimFloat.ltb y z = true -> PrimFloat.ltb x z = true.
Proof.
  rewrite !FloatAxioms.ltb_spec. unfold SFltb. intros H1 H2.
  destruct (SFcompare (Prim2SF x) (Prim2SF y)) as [[]|] eqn:E1; try discriminate.
  destruct (SFcompare (Prim2SF y) (Prim2SF z)) as [[]|] eqn:E2; try discriminate.
  now rewrite (SFcompare_lt_trans _ _ _ E1 E2).
Qed.

Lemma ltb_asym x y : PrimFloat.ltb x y = true -> PrimFloat.ltb y x = false.
Proof.
  intros H. destruct (PrimFloat.ltb y x) eqn:E; [|reflexivity].
  pose proof (ltb_trans _ _ _ H E) as Hxx. now rewrite ltb_irrefl in Hxx.
Qed.

(** A strict inequality excludes the converse large one. *)
Lemma ltb_not_leb x y : PrimFloat.ltb x y = true -> PrimFloat.leb y x = false.
Proof.
  rewrite FloatAxioms.ltb_spec, FloatAxioms.leb_spec. unfold SFltb, SFleb.
  rewrite (SFcompare_antisym (Prim2SF x) (Prim2SF y)).
  destruct (SFcompare (Prim2SF x) (Prim2SF y)) as [[]|]; simpl; congruence.
Qed.

Lemma is_nan_spec x : PrimFloat.is_nan x = false -> Prim2SF x <> S754_nan.
Proof.
  unfold PrimFloat.is_nan. rewrite FloatAxioms.eqb_spec. intros H E.
  rewrite E in H. discriminate.
Qed.

(** On numbers, "not greater" is "at most". *)
Lemma not_ltb_leb x y :
  PrimFloat.is_nan x = false -> PrimFloat.is_nan y = false ->
  PrimFloat.ltb y x = false -> PrimFloat.leb x y = true.
Proof.
  intros Hx Hy. apply is_nan_spec in Hx, Hy.
  rewrite FloatAxioms.ltb_spec, FloatAxioms.leb_spec. unfold SFltb, SFleb.
  rewrite (SFcompare_antisym (Prim2SF x) (Prim2SF y)).
  destruct (Prim2SF x) as [[]|[]| |[] mx ex], (Prim2SF y) as [[]|[]| |[] my ey];
    simpl; try congruence;
    repeat match goal with
      | |- context [Z.compare ?a ?b] => destruct (Z.compare a b); simpl
      | |- context [Pos.compare_cont Eq ?a ?b] =>
          destruct (Pos.compare_cont Eq a b); simpl
      end; congruence.
Qed.

Lemma SFcompare_neg_trans x y z :
  y <> S754_nan ->
  SFcompare x y <> Some Lt -> SFcompare y z <> Some Lt -> SFcompare x z <> Some Lt.
Proof.
  destruct x as [[]|[]| |[] mx ex], y as [[]|[]| |[] my ey], z as [[]|[]| |[] mz ez];
    simpl; intros Hy H1 H2; try congruence;
    intros H3; injection H3 as H3;
    first [ apply H1 | apply H2 ]; f_equal; cmp_cases.
Qed.

(** With a number in the middle, "not smaller" is transitive. *)
Lemma ltb_neg_trans x y z :
  PrimFloat.is_nan y = false ->
  PrimFloat.ltb x y = false -> PrimFloat.ltb y z = false -> PrimFloat.ltb x z = false.
Proof.
  intros Hy. apply is_nan_spec in Hy.
  rewrite !FloatAxioms.ltb_spec. unfold SFltb. intros H1 H2.
  pose proof (SFcompare_neg_trans (Prim2SF x) (Prim2SF y) (Prim2SF z) Hy) as H.
  destruct (SFcompare (Prim2SF x) (Prim2SF z)) as [[]|]; try reflexivity.
  exfalso. apply H; [| |reflexivity].
  - destruct (SFcompare (Prim2SF x) (Prim2SF y)) as [[]|]; congruence.
  - destruct (SFcompare (Prim2SF y) (Prim2SF z)) as [[]|]; congruence.
Qed.

End FloatOrder.

(** ** Minima and maxima as Python computes them *)

Section MinMax.
Import Py Zone.

Lemma min2_cases a b : min2 a b = a \/ min2 a b = b.
Proof. unfold min2. destruct (PrimFloat.ltb b a); auto. Qed.

Lemma max2_cases a b : max2 a b = a \/ max2 a b = b.
Proof. unfold max2. destruct (PrimFloat.ltb a b); auto. Qed.

Lemma min2_below_l a b : PrimFloat.ltb a (min2 a b) = false.
Proof.
  unfold min2. destruct (PrimFloat.ltb b a) eqn:E;
    [now apply ltb_asym | apply ltb_irrefl].
Qed.

Lemma min2_below_r a b : PrimFloat.ltb b (min2 a b) = false.
Proof.
  unfold min2. destruct (PrimFloat.ltb b a) eqn:E; [apply ltb_irrefl | assumption].
Qed.

Lemma min2_below y a b : PrimFloat.ltb y a = false -> PrimFloat.ltb y (min2 a b) = false.
Proof.
  intros H. unfold min2. destruct (PrimFloat.ltb b a) eqn:E; [|assumption].
  destruct (PrimFloat.ltb y b) eqn:E'; [|reflexivity].
  now rewrite (ltb_trans _ _ _ E' E) in H.
Qed.

Lemma max2_above_l a b : PrimFloat.ltb (max2 a b) a = false.
Proof.
  unfold max2. destruct (PrimFloat.ltb a b) eqn:E;
    [now apply ltb_asym | apply ltb_irrefl].
Qed.

Lemma max2_above_r a b : PrimFloat.ltb (max2 a b) b = false.
Proof.
  unfold max2. destruct (PrimFloat.ltb a b) eqn:E; [apply ltb_irrefl | assumption].
Qed.

Lemma max2_above y a b : PrimFloat.ltb a y = false -> PrimFloat.ltb (max2 a b) y = false.
Proof.
  intros H. unfold max2. destruct (PrimFloat.ltb a b) eqn:E; [|assumption].
  destruct (PrimFloat.ltb b y) eqn:E'; [|reflexivity].
  now rewrite (ltb_trans _ _ _ E E') in H.
Qed.

(** Folding [min2] over a list keeps a least element of what was seen. *)
Lemma fold_min2_is_min xs acc seen :
  is_min acc seen -> is_min (fold_left min2 xs acc) (seen ++ xs).
Proof.
  revert acc seen. induction xs as [|x xs IH]; intros acc seen H; simpl.
  - now rewrite app_nil_r.
  - replace (seen ++ x :: xs) with ((seen ++ [x]) ++ xs) by now rewrite <- app_assoc.
    apply IH. destruct H as [Hin Hlb]. split.
    + destruct (min2_cases acc x) as [-> | ->]; set_solver.
    + intros y Hy. apply elem_of_app in Hy as [Hy|Hy].
      * apply min2_below. now apply Hlb.
      * apply list_elem_of_singleton in Hy as ->. apply min2_below_r.
Qed.

Lemma fold_max2_is_max xs acc seen :
  is_max acc seen -> is_max (fold_left max2 xs acc) (seen ++ xs).
Proof.
  revert acc seen. induction xs as [|x xs IH]; intros acc seen H; simpl.
  - now rewrite app_nil_r.
  - replace (seen ++ x :: xs) with ((seen ++ [x]) ++ xs) by now rewrite <- app_assoc.
    apply IH. destruct H as [Hin Hlb]. split.
    + destruct (max2_cases acc x) as [-> | ->]; set_solver.
    + intros y Hy. apply elem_of_app in Hy as [Hy|Hy].
      * apply max2_above. now apply Hlb.
      * apply list_elem_of_singleton in Hy as ->. apply max2_above_r.
Qed.

Lemma is_min_singleton x : is_min x [x].
Proof.
  split; [set_solver|]. intros y Hy. apply list_elem_of_singleton in Hy as ->.
  apply ltb_irrefl.
Qed.

Lemma is_max_singleton x : is_max x [x].
Proof.
  split; [set_solver|]. intros y Hy. apply list_elem_of_singleton in Hy as ->.
  apply ltb_irrefl.
Qed.

Lemma is_min_same_elements r l l' : (forall y, y ∈ l <-> y ∈ l') -> is_min r l -> is_min r l'.
Proof. intros H [Hin Hlb]. split; [now apply H | intros y Hy; now apply Hlb, H]. Qed.

Lemma is_max_same_elements r l l' : (forall y, y ∈ l <-> y ∈ l') -> is_max r l -> is_max r l'.
Proof. intros H [Hin Hlb]. split; [now apply H | intros y Hy; now apply Hlb, H]. Qed.

(** [min2] and [max2] are associative when the middle value is a number. *)
Lemma min2_assoc a b c :
  PrimFloat.is_nan b = false -> min2 a (min2 b c) = min2 (min2 a b) c.
Proof.
  intros Hb. unfold min2.
  destruct (PrimFloat.ltb c b) eqn:Ecb, (PrimFloat.ltb b a) eqn:Eba;
    rewrite ?Ecb, ?Eba; try reflexivity.
  - now rewrite (ltb_trans _ _ _ Ecb Eba).
  - now rewrite (ltb_neg_trans _ _ _ Hb Ecb Eba).
Qed.

Lemma max2_assoc a b c :
  PrimFloat.is_nan b = false -> max2 a (max2 b c) = max2 (max2 a b) c.
Proof.
  intros Hb. unfold max2.
  destruct (PrimFloat.ltb b c) eqn:Ebc, (PrimFloat.ltb a b) eqn:Eab;
    rewrite ?Ebc, ?Eab; try reflexivity.
  - now rewrite (ltb_trans _ _ _ Eab Ebc).
  - now rewrite (ltb_neg_trans _ _ _ Hb Eab Ebc).
Qed.

Definition all_numbers (l : list float) : Prop :=
  Forall (fun x => PrimFloat.is_nan x = false) l.

Lemma fold_min2_assoc a b xs :
  all_numbers (b :: xs) ->
  min2 a (fold_left min2 xs b) = fold_left min2 xs (min2 a b).
Proof.
  revert b. induction xs as [|x xs IH]; intros b H; simpl; [reflexivity|].
  apply Forall_cons in H as [Hb H]. apply Forall_cons in H as [Hx H].
  rewrite IH.
  - now rewrite min2_assoc.
  - constructor; [|assumption]. destruct (min2_cases b x) as [-> | ->]; assumption.
Qed.

Lemma fold_max2_assoc a b xs :
  all_numbers (b :: xs) ->
  max2 a (fold_left max2 xs b) = fold_left max2 xs (max2 a b).
Proof.
  revert b. induction xs as [|x xs IH]; intros b H; simpl; [reflexivity|].
  apply Forall_cons in H as [Hb H]. apply Forall_cons in H as [Hx H].
  rewrite IH.
  - now rewrite max2_assoc.
  - constructor; [|assumption]. destruct (max2_cases b x) as [-> | ->]; assumption.
Qed.

(** The minimum of a list cut in two is the [min2] of the two minima,
    also when it is merged once more with the first. *)
Lemma min_of_split l ls r rs :
  all_numbers (r :: rs) ->
  min2 (min2 (min_of l ls) (min_of r rs)) (min_of l ls) = min_of l (ls ++ r :: rs).
Proof.
  intros H. unfold min_of. rewrite fold_left_app. simpl.
  rewrite <- fold_min2_assoc by assumption.
  set (L := fold_left min2 ls l). set (R := fold_left min2 rs r).
  unfold min2 at 1. now rewrite min2_below_l.
Qed.

Lemma max_of_split l ls r rs :
  all_numbers (r :: rs) ->
  max2 (max2 (max_of l ls) (max_of r rs)) (max_of l ls) = max_of l (ls ++ r :: rs).
Proof.
  intros H. unfold max_of. rewrite fold_left_app. simpl.
  rewrite <- fold_max2_assoc by assumption.
  set (L := fold_left max2 ls l). set (R := fold_left max2 rs r).
  unfold max2 at 1. now rewrite max2_above_l.
Qed.

End MinMax.

(** ** Heading inference *)

Section HeadingFacts.
Import Provider Py Headings.
Local Open Scope float_scope.

(** The state after a run of the classification. *)
Definition retagged (st : State) (page : Page) (regs : list Region) : State :=
  let sizes := map (avg_size page) regs in
  {| doc := doc st; page_index := page_index st;
     regions := <[page_index st := zip_with (retag (max_size sizes)) regs sizes]> (regions st);
     undo_stack := undo_stack st ++ [regions st];
     redo_stack := [] |}.

Lemma infer_headings_runs st d page regs :
  doc st = Some d -> d !! page_index st = Some page ->
  regions st !! page_index st = Some regs -> regs <> [] ->
  PrimFloat.leb (max_size (map (avg_size page) regs)) 0 = false ->
  infer_headings_for_page st = Returned (retagged st page regs) [Render; msg_done].
Proof.
  intros Hd Hp Hr Hne Hmax. unfold infer_headings_for_page.
  rewrite Hd. destruct d as [|pg d]; [discriminate Hp|].
  rewrite Hp, Hr. simpl default.
  destruct regs as [|r regs]; [congruence|].
  rewrite Hmax. reflexivity.
Qed.

(** C5: on three regions whose average font sizes are 12, 9 and 6 the
    classification assigns h1, h3 and p; the ratio 9/12 is exactly 0.75,
    which is not greater than 0.75, so the second region is an h3. *)
Theorem infer_headings_sizes_12_9_6 st d page r1 r2 r3 :
  doc st = Some d -> d !! page_index st = Some page ->
  regions st !! page_index st = Some [r1; r2; r3] ->
  map (avg_size page) [r1; r2; r3] = [12; 9; 6] ->
  (exists st',
      infer_headings_for_page st = Returned st' [Render; msg_done] /\
      regions st' !! page_index st
      = Some [retag 12 r1 12; retag 12 r2 9; retag 12 r3 6] /\
      map r_tag [retag 12 r1 12; retag 12 r2 9; retag 12 r3 6]
      = [s2u "h1"; s2u "h3"; s2u "p"]) /\
  max_size [12; 9; 6] = 12 /\
  9 / 12 = 0.75 /\ PrimFloat.ltb 0.75 (9 / 12) = false /\
  new_tag_for 9 12 = s2u "h3".
Proof.
  intros Hd Hp Hr Hs.
  split; [|repeat split; vm_compute; reflexivity].
  exists (retagged st page [r1; r2; r3]). split; [|split].
  - apply infer_headings_runs with d; try assumption; [discriminate|].
    rewrite Hs. vm_compute. reflexivity.
  - unfold retagged. cbn [regions page_index]. rewrite lookup_insert_eq.
    rewrite Hs. reflexivity.
  - vm_compute. reflexivity.
Qed.

Lemma infer_headings_sizes_12_9_6_witness :
  exists st',
    infer_headings_for_page Samples.st_12_9_6 = Returned st' [Render; msg_done] /\
    map r_tag <$> regions st' !! 0%nat = Some [s2u "h1"; s2u "h3"; s2u "p"].
Proof.
  destruct (infer_headings_sizes_12_9_6 Samples.st_12_9_6 [Samples.page_12_9_6]
              Samples.page_12_9_6 (Samples.region_at 1 1) (Samples.region_at 2 2)
              (Samples.region_at 3 3))
    as [(st' & Hrun & Hregs & Htags) _];
    [reflexivity | reflexivity | reflexivity | vm_compute; reflexivity |].
  exists st'. split; [exact Hrun|].
  change (page_index Samples.st_12_9_6) with 0%nat in Hregs.
  rewrite Hregs. exact (f_equal Some Htags).
Defined.

(** C9: with no region on the current page, or with a maximum average
    font size that is a number and not positive, the handler only reports
    the condition and returns the state it was given. *)
Theorem infer_headings_no_data st d page :
  doc st = Some d -> d !! page_index st = Some page ->
  let regs := default [] (regions st !! page_index st) in
  let max_sz := max_size (map (avg_size page) regs) in
  regs = [] \/ (PrimFloat.is_nan max_sz = false /\ PrimFloat.ltb 0 max_sz = false) ->
  exists message,
    infer_headings_for_page st = Returned st [ShowInfo (s2u "Info") message].
Proof.
  intros Hd Hp regs max_sz H. subst max_sz regs.
  unfold infer_headings_for_page. rewrite Hd.
  destruct d as [|pg d]; [discriminate Hp|]. rewrite Hp.
  destruct (default [] (regions st !! page_index st)) as [|r rs];
    [eexists; reflexivity|].
  destruct H as [H|[Hnan Hpos]]; [discriminate|].
  rewrite (not_ltb_leb _ 0 Hnan eq_refl Hpos).
  eexists; reflexivity.
Qed.

Lemma infer_headings_no_data_witness :
  exists message,
    infer_headings_for_page Samples.st_blank
    = Returned Samples.st_blank [ShowInfo (s2u "Info") message].
Proof.
  apply (infer_headings_no_data Samples.st_blank [Samples.page_blank] Samples.page_blank).
  - reflexivity.
  - reflexivity.
  - right. split; vm_compute; reflexivity.
Defined.

(** C10: when the classification runs, the page keeps its regions in
    number and order, every region keeps its rectangle and its text, its
    new id is the new tag, an underscore and the old id, and the regions
    of the other pages are untouched. *)
Theorem infer_headings_frame st d page regs :
  doc st = Some d -> d !! page_index st = Some page ->
  regions st !! page_index st = Some regs -> regs <> [] ->
  PrimFloat.ltb 0 (max_size (map (avg_size page) regs)) = true ->
  exists st' regs',
    infer_headings_for_page st = Returned st' [Render; msg_done] /\
    doc st' = doc st /\ page_index st' = page_index st /\
    regions st' !! page_index st = Some regs' /\
    length regs' = length regs /\
    (forall i r, regs !! i = Some r ->
       exists r', regs' !! i = Some r' /\
         r_rect r' = r_rect r /\ r_text r' = r_text r /\
         r_id r' = r_tag r' ++ s2u "_" ++ r_id r /\
         r_tag r' ∈ [s2u "h1"; s2u "h2"; s2u "h3"; s2u "p"]) /\
    (forall p, p <> page_index st -> regions st' !! p = regions st !! p).
Proof.
  intros Hd Hp Hr Hne Hpos.
  set (sizes := map (avg_size page) regs) in *.
  exists (retagged st page regs), (zip_with (retag (max_size sizes)) regs sizes).
  split; [|split; [|split; [|split; [|split; [|split]]]]].
  - apply infer_headings_runs with d; try assumption.
    now apply ltb_not_leb.
  - reflexivity.
  - reflexivity.
  - unfold retagged. cbn [regions page_index]. apply lookup_insert_eq.
  - rewrite length_zip_with. unfold sizes. rewrite length_map. lia.
  - intros i r Hi.
    exists (retag (max_size sizes) r (avg_size page r)). split.
    + rewrite lookup_zip_with. rewrite Hi. simpl.
      unfold sizes. rewrite list_lookup_fmap, Hi. reflexivity.
    + repeat split.
      unfold retag, new_tag_for. cbn [r_tag].
      repeat match goal with
        | |- context [if ?b then _ else _] => destruct b
        end; set_solver.
  - intros p Hne'. unfold retagged. cbn [regions page_index].
    now apply lookup_insert_ne.
Qed.

Lemma infer_headings_frame_witness :
  exists st' regs',
    infer_headings_for_page Samples.st_12_9_6 = Returned st' [Render; msg_done] /\
    regions st' !! 0%nat = Some regs' /\ length regs' = 3%nat.
Proof.
  destruct (infer_headings_frame Samples.st_12_9_6 [Samples.page_12_9_6]
              Samples.page_12_9_6
              [Samples.region_at 1 1; Samples.region_at 2 2; Samples.region_at 3 3])
    as (st' & regs' & Hrun & _ & _ & Hregs & Hlen & _);
    [reflexivity | reflexivity | reflexivity | discriminate | vm_compute; reflexivity |].
  exists st', regs'. split; [exact Hrun|]. split; [exact Hregs | exact Hlen].
Defined.

End HeadingFacts.

(** ** Nested sections *)

Section SectionFacts.
Import Provider Sections.
Variable cfg : Settings.
Variable page_index : nat.
Variable page : Page.

Local Abbreviation build_step := (build_step cfg page_index page).
Local Abbreviation build_loop := (build_loop cfg page_index page).
Local Abbreviation build_lines := (build_lines cfg page_index page).

Lemma level_map_levels tag lvl :
  dict_get level_map tag = Some lvl -> lvl = 1 \/ lvl = 2 \/ lvl = 3 \/ lvl = 4.
Proof.
  unfold level_map. simpl.
  repeat match goal with
    | |- context [pystr_eqb ?a ?b] => destruct (pystr_eqb a b)
    end; intros [= <-]; tauto.
Qed.

Lemma build_step_heading b r lvl :
  dict_get level_map (region_tag r) = Some lvl ->
  build_step b r =
    let b' := ensure_base page_index b in
    let so := close_to_level lvl (open_stack b') (out b') in
    {| counters := bump_counters lvl (counters b);
       open_stack := lvl :: so.1;
       out := so.2 ++ [SectionOpen (section_nums page_index lvl (bump_counters lvl (counters b)));
                       Element (region_tag r) (r_id r) (region_text_esc cfg page r)];
       base_opened := true |}.
Proof.
  intros H. unfold Sections.build_step. rewrite H. cbv zeta.
  now destruct (close_to_level lvl _ _).
Qed.

Lemma build_step_other b r :
  dict_get level_map (region_tag r) = None ->
  build_step b r =
    let b' := ensure_base page_index b in
    {| counters := counters b';
       open_stack := open_stack b';
       out := out b' ++ [Element (region_tag r) (r_id r) (region_text_esc cfg page r)];
       base_opened := base_opened b' |}.
Proof. intros H. unfold Sections.build_step. now rewrite H. Qed.










(** *** The order of the ids and the depth of the stack *)

Definition lex_le (a b : list nat) : Prop := lex_lt a b \/ a = b.

Lemma lex_lt_trans a b c : lex_lt a b -> lex_lt b c -> lex_lt a c.
Proof.
  revert b c. induction a as [|x a IH]; intros [|y b] [|z c]; simpl; try tauto.
  intros [H1|[-> H1]] [H2|[-> H2]]; try (left; lia).
  right. split; [reflexivity|]. now apply IH with b.
Qed.

Lemma lex_le_lt_trans a b c : lex_le a b -> lex_lt b c -> lex_lt a c.
Proof. intros [H| ->] Hbc; [now apply lex_lt_trans with b | assumption]. Qed.

Lemma lex_le_trans a b c : lex_le a b -> lex_le b c -> lex_le a c.
Proof.
  intros Hab [Hbc| <-]; [|assumption]. left. now apply lex_le_lt_trans with b.
Qed.

Lemma lex_lt_snoc pre x y : lex_lt (pre ++ [x]) (pre ++ [y]) -> x < y.
Proof. induction pre as [|p pre IH]; simpl; intros [H|[_ H]]; try lia; tauto. Qed.

Lemma lex_lt_ids_increase a b : lex_lt a b -> ids_increase a b.
Proof.
  intros H _. split; [assumption|]. intros pre x y -> ->. now apply lex_lt_snoc in H.
Qed.

(** The path the counters stand for: the page number, then the counters
    of the levels 1 to 4. *)
Definition path (counters : list nat) : list nat := S page_index :: drop 1 counters.

Lemma section_nums_path lvl c0 c1 c2 c3 c4 :
  lvl = 1 \/ lvl = 2 \/ lvl = 3 \/ lvl = 4 ->
  section_nums page_index lvl [c0; c1; c2; c3; c4]
  = take (S lvl) (path [c0; c1; c2; c3; c4]).
Proof. intros [->|[->|[->| ->]]]; reflexivity. Qed.

Lemma bump_counters_shape lvl c0 c1 c2 c3 c4 :
  lvl = 1 \/ lvl = 2 \/ lvl = 3 \/ lvl = 4 ->
  exists d1 d2 d3 d4, bump_counters lvl [c0; c1; c2; c3; c4] = [c0; d1; d2; d3; d4].
Proof. intros [->|[->|[->| ->]]]; repeat eexists; reflexivity. Qed.

(** A heading moves every prefix of the path forward or leaves it, and
    moves the prefix that ends at its own level strictly forward. *)
Lemma bump_path_mono lvl c0 c1 c2 c3 c4 n :
  lvl = 1 \/ lvl = 2 \/ lvl = 3 \/ lvl = 4 ->
  lex_le (take n (path [c0; c1; c2; c3; c4]))
         (take n (path (bump_counters lvl [c0; c1; c2; c3; c4]))).
Proof.
  intros [->|[->|[->| ->]]];
    destruct n as [|[|[|[|[|[|n]]]]]];
    first [ right; reflexivity | left; simpl; lia ].
Qed.

Lemma bump_path_strict lvl c0 c1 c2 c3 c4 :
  lvl = 1 \/ lvl = 2 \/ lvl = 3 \/ lvl = 4 ->
  lex_lt (take (S lvl) (path [c0; c1; c2; c3; c4]))
         (take (S lvl) (path (bump_counters lvl [c0; c1; c2; c3; c4]))).
Proof. intros [->|[->|[->| ->]]]; simpl; lia. Qed.

Lemma ForallOrdPairs_snoc {A} (R : A -> A -> Prop) l x :
  ForallOrdPairs R l -> Forall (fun a => R a x) l -> ForallOrdPairs R (l ++ [x]).
Proof.
  induction 1 as [|a l Ha Hl IH]; intros Hx; simpl.
  - constructor; constructor.
  - apply Forall_cons in Hx as [Hax Hx]. constructor; [|now apply IH].
    apply Forall_app. split; [assumption|]. now constructor.
Qed.

Lemma section_ids_app l1 l2 : section_ids (l1 ++ l2) = section_ids l1 ++ section_ids l2.
Proof. apply omap_app. Qed.

Lemma close_to_level_ids lvl stack o :
  section_ids (close_to_level lvl stack o).2 = section_ids o.
Proof.
  revert o. induction stack as [|top rest IH]; intros o; simpl; [reflexivity|].
  destruct (lvl <=? top); [|reflexivity].
  rewrite IH, section_ids_app. simpl. apply app_nil_r.
Qed.

Lemma decreasing_tail a stack : decreasing (a :: stack) -> decreasing stack.
Proof. destruct stack; simpl; tauto. Qed.

Lemma close_to_level_stack lvl stack o :
  decreasing stack -> Forall (fun l => l <= 4) stack ->
  decreasing (lvl :: (close_to_level lvl stack o).1) /\
  Forall (fun l => l <= 4) (close_to_level lvl stack o).1.
Proof.
  revert o. induction stack as [|top rest IH]; intros o Hd Hf; simpl.
  - split; [exact I | constructor].
  - destruct (Nat.leb_spec lvl top).
    + apply IH; [now apply decreasing_tail in Hd | now apply Forall_cons in Hf as [_ ?]].
    + split; [|assumption]. simpl. split; [lia | assumption].
Qed.

Lemma decreasing_length top stack : decreasing (top :: stack) -> length (top :: stack) <= S top.
Proof.
  revert top. induction stack as [|b stack IH]; intros top H; simpl; [lia|].
  destruct H as [Hlt H]. specialize (IH _ H). simpl in IH. lia.
Qed.

(** What holds of the loop variables after any number of regions. *)
Record Inv (b : Builder) : Prop := {
  inv_counters : exists c0 c1 c2 c3 c4, counters b = [c0; c1; c2; c3; c4];
  inv_fresh : base_opened b = false -> out b = [] /\ open_stack b = [];
  inv_decreasing : decreasing (open_stack b);
  inv_levels : Forall (fun l => l <= 4) (open_stack b);
  inv_ordered : ForallOrdPairs ids_increase (section_ids (out b));
  inv_behind :
    Forall (fun a => lex_le a (take (length a) (path (counters b)))) (section_ids (out b))
}.

Lemma Inv_init : Inv builder_init.
Proof.
  constructor; simpl; try constructor; auto.
  now exists 0, 0, 0, 0, 0.
Qed.

Lemma Inv_ensure_base b : Inv b -> Inv (ensure_base page_index b).
Proof.
  intros [Hc Hf Hd Hl Ho Hb]. unfold ensure_base.
  destruct (base_opened b) eqn:E;
    [constructor; auto; rewrite E; discriminate|].
  destruct (Hf eq_refl) as [Hout Hst].
  constructor; cbn [counters open_stack out base_opened];
    rewrite ?Hout, ?Hst; simpl; try discriminate; try assumption.
  - exact I.
  - repeat constructor.
  - repeat constructor.
  - constructor; [|constructor]. right.
    destruct Hc as (c0 & c1 & c2 & c3 & c4 & ->). reflexivity.
Qed.

Lemma Inv_step b r : Inv b -> Inv (build_step b r).
Proof.
  intros HI. destruct (dict_get level_map (region_tag r)) as [lvl|] eqn:E.
  - rewrite (build_step_heading _ _ _ E). cbv zeta.
    pose proof (level_map_levels _ _ E) as Hlvl.
    pose proof (Inv_ensure_base _ HI) as [Hc Hf Hd Hl Ho Hb].
    assert (Hcb : counters (ensure_base page_index b) = counters b)
      by (unfold ensure_base; now destruct (base_opened b)).
    rewrite Hcb in Hc, Hb.
    destruct Hc as (c0 & c1 & c2 & c3 & c4 & Hc).
    destruct (close_to_level_stack lvl _ (out (ensure_base page_index b)) Hd Hl)
      as [Hd' Hl'].
    constructor; cbn [counters open_stack out base_opened].
    + rewrite Hc. destruct (bump_counters_shape lvl c0 c1 c2 c3 c4 Hlvl)
        as (d1 & d2 & d3 & d4 & ->). now exists c0, d1, d2, d3, d4.
    + discriminate.
    + assumption.
    + constructor; [lia | assumption].
    + rewrite section_ids_app, close_to_level_ids. simpl.
      apply ForallOrdPairs_snoc; [assumption|].
      eapply Forall_impl; [exact Hb|]. intros a Ha. simpl in Ha.
      intros Hlen. apply lex_lt_ids_increase; [|assumption].
      rewrite Hc in Ha, Hlen |- *.
      pose proof (bump_path_strict lvl c0 c1 c2 c3 c4 Hlvl) as Hstrict.
      destruct (bump_counters_shape lvl c0 c1 c2 c3 c4 Hlvl)
        as (d1 & d2 & d3 & d4 & Hbump).
      rewrite Hbump in Hlen, Hstrict |- *.
      rewrite section_nums_path in Hlen |- * by assumption.
      apply lex_le_lt_trans with (take (S lvl) (path [c0; c1; c2; c3; c4]));
        [|assumption].
      replace (S lvl) with (length a); [assumption|].
      rewrite Hlen. destruct Hlvl as [->|[->|[->| ->]]]; reflexivity.
    + rewrite section_ids_app, close_to_level_ids. simpl.
      rewrite Hc in Hb |- *. apply Forall_app. split.
      * eapply Forall_impl; [exact Hb|]. intros a Ha. simpl in Ha.
        eapply lex_le_trans; [exact Ha|]. now apply bump_path_mono.
      * constructor; [|constructor]. right.
        destruct (bump_counters_shape lvl c0 c1 c2 c3 c4 Hlvl)
          as (d1 & d2 & d3 & d4 & ->).
        rewrite section_nums_path by assumption.
        destruct Hlvl as [->|[->|[->| ->]]]; reflexivity.
  - rewrite (build_step_other _ _ E). cbv zeta.
    pose proof (Inv_ensure_base _ HI) as [Hc Hf Hd Hl Ho Hb].
    constructor; cbn [counters open_stack out base_opened]; try assumption.
    + intros Hbo. unfold ensure_base in Hbo.
      destruct (base_opened b) eqn:Eb; simpl in Hbo; congruence.
    + rewrite section_ids_app. simpl. now rewrite app_nil_r.
    + rewrite section_ids_app. simpl. now rewrite app_nil_r.
Qed.

Lemma Inv_loop regs b : Inv b -> Inv (fold_left build_step regs b).
Proof.
  revert b. induction regs as [|r regs IH]; intros b Hb; simpl; [assumption|].
  apply IH. now apply Inv_step.
Qed.

Lemma section_ids_closes (stack : list nat) :
  section_ids (map (fun _ => SectionClose) stack) = [].
Proof. induction stack; simpl; auto. Qed.

(** C4 (as the code has it): whatever the regions, two sections of the
    same level carry strictly increasing ids (siblings strictly
    increasing last numbers), and after every region at most five
    sections are open: the page section and one per heading level. *)
Theorem build_ids_increase_depth_five regs :
  ForallOrdPairs ids_increase (section_ids (build_lines regs)) /\
  forall k, length (open_stack (build_loop (take k regs))) <= 5.
Proof.
  split.
  - unfold Sections.build_lines.
    rewrite section_ids_app, section_ids_closes, app_nil_r.
    apply inv_ordered, Inv_loop, Inv_init.
  - intros k.
    pose proof (Inv_loop (take k regs) _ Inv_init) as [_ _ Hd Hl _ _].
    fold (build_loop (take k regs)) in Hd, Hl.
    destruct (open_stack (build_loop (take k regs))) as [|top stack]; [simpl; lia|].
    apply decreasing_length in Hd. apply Forall_cons in Hl as [Htop _]. lia.
Qed.

End SectionFacts.

(** Four headings of increasing depth leave five sections open. *)
Lemma build_depth_exceeds_four :
  ~ (length (Sections.open_stack
       (Sections.build_loop Samples.cfg 0 Samples.page_blank Samples.regs_h1_to_h4)) <= 4).
Proof. vm_compute. lia. Qed.



(** ** Paragraph merge and split *)

Section ZoneFacts.
Import Py Zone.

Lemma contiguous_seq a l : contiguous (a :: l) = true -> a :: l = seq a (S (length l)).
Proof.
  revert a. induction l as [|b l IH]; intros a H; [reflexivity|].
  unfold contiguous in H. simpl in H.
  apply andb_true_iff in H as [Hb H]. apply Nat.eqb_eq in Hb. subst b.
  change (a :: S a :: l = a :: seq (S a) (S (length l))). f_equal. now apply IH.
Qed.

Lemma sorted_indices_length s : length (sorted_indices s) = size s.
Proof.
  unfold sorted_indices. now rewrite merge_sort_Permutation.
Qed.

(** The paragraphs a contiguous selection stands for. *)
Definition chosen (first k : nat) (paras : list Para) : list Para :=
  take k (drop first paras).

(** The merge loop over a contiguous selection, from the last index
    down to the first. *)
Lemma merge_loop first k paras text words bbox :
  first + k <= length paras ->
  fold_left merge_step (rev (seq first k))
    (Some {| m_paras := paras; m_text := text; m_words := words; m_bbox := bbox |})
  = Some {| m_paras := take first paras ++ drop (first + k) paras;
            m_text := map p_text (chosen first k paras) ++ text;
            m_words := concat (map p_words (chosen first k paras)) ++ words;
            m_bbox := fold_left bbox_merge (map p_bbox (rev (chosen first k paras))) bbox |}.
Proof.
  unfold chosen.
  revert paras text words bbox. induction k as [|k IH]; intros paras text words bbox Hlen.
  - simpl. now rewrite Nat.add_0_r, take_drop.
  - rewrite seq_S, rev_app_distr. simpl rev. simpl app.
    destruct (lookup_lt_is_Some_2 paras (first + k) ltac:(lia)) as [p Hp].
    cbn [fold_left]. unfold merge_step at 2. cbn [m_paras]. rewrite Hp.
    cbn [m_text m_words m_bbox].
    rewrite IH by (rewrite length_delete by eauto; lia).
    assert (Hk : take (S k) (drop first paras) = take k (drop first paras) ++ [p]).
    { apply take_S_r. now rewrite lookup_drop. }
    assert (Hd : take k (drop first (delete (first + k) paras)) = take k (drop first paras)).
    { rewrite delete_take_drop, drop_app_le by (rewrite length_take; lia).
      rewrite <- take_drop_commute.
      rewrite take_app_le by (rewrite length_take, length_drop; lia).
      rewrite take_take. f_equal. lia. }
    rewrite Hd, Hk. f_equal. f_equal.
    + rewrite delete_take_drop.
      rewrite take_app_le by (rewrite length_take; lia).
      rewrite take_take, Nat.min_l by lia. f_equal.
      rewrite drop_app_length' by (rewrite length_take; lia).
      f_equal. lia.
    + now rewrite map_app, <- app_assoc.
    + rewrite map_app, concat_app. simpl. now rewrite app_nil_r, <- app_assoc.
    + now rewrite rev_app_distr.
Qed.

Lemma contiguous_of_seq a k : contiguous (seq a k) = true.
Proof.
  revert a. induction k as [|k IH]; intros a; [reflexivity|].
  destruct k as [|k]; [reflexivity|].
  specialize (IH (S a)). unfold contiguous in *. simpl in *.
  now rewrite Nat.eqb_refl.
Qed.

(** The paragraph a merge of [k] paragraphs from [first] on produces;
    [b0] is the box the loop starts from. *)
Definition merged_para (first k : nat) (paras : list Para) (b0 : BBox) : Para :=
  {| p_bbox := fold_left bbox_merge (map p_bbox (rev (chosen first k paras))) b0;
     p_text := join [0x0A%N] (map p_text (chosen first k paras));
     p_words := concat (map p_words (chosen first k paras)) |}.

Lemma on_merge_run ed paras first k p_first :
  paragraphs_by_page ed !! current_page ed = Some paras ->
  sorted_indices (selected_indices ed) = seq first k ->
  2 <= k -> first + k <= length paras ->
  paras !! first = Some p_first ->
  on_merge ed =
    Returned
      {| paragraphs_by_page :=
           <[current_page ed :=
               take first paras ++ merged_para first k paras (p_bbox p_first)
                 :: drop (first + k) paras]> (paragraphs_by_page ed);
         current_page := current_page ed;
         selected_indices := {[ first ]};
         undo_stack := undo_stack ed ++ [paragraphs_by_page ed];
         last_right_click := last_right_click ed |}
      [Render; msg_merged first].
Proof.
  intros Hparas Hsel Hk Hlen Hfirst. unfold on_merge.
  rewrite <- sorted_indices_length, Hsel, length_seq.
  destruct (Nat.ltb_spec k 2); [lia|].
  rewrite Hparas, contiguous_of_seq. cbn [negb].
  assert (Hhead : head (seq first k) = Some first) by (destruct k; [lia | reflexivity]).
  rewrite Hhead. cbn [default from_option id push_undo current_page
    paragraphs_by_page undo_stack last_right_click selected_indices].
  rewrite Hfirst, merge_loop by assumption.
  cbn [m_paras m_text m_words m_bbox]. rewrite !app_nil_r.
  unfold list_insert_at.
  rewrite take_app_length' by (rewrite length_take; lia).
  rewrite drop_app_length' by (rewrite length_take; lia).
  reflexivity.
Qed.

Lemma fold_bbox_merge_x0 bs b :
  bx0 (fold_left bbox_merge bs b) = fold_left min2 (map bx0 bs) (bx0 b).
Proof. revert b. induction bs as [|c bs IH]; intros b; simpl; [reflexivity | now rewrite IH]. Qed.

Lemma fold_bbox_merge_y0 bs b :
  by0 (fold_left bbox_merge bs b) = fold_left min2 (map by0 bs) (by0 b).
Proof. revert b. induction bs as [|c bs IH]; intros b; simpl; [reflexivity | now rewrite IH]. Qed.

Lemma fold_bbox_merge_x1 bs b :
  bx1 (fold_left bbox_merge bs b) = fold_left max2 (map bx1 bs) (bx1 b).
Proof. revert b. induction bs as [|c bs IH]; intros b; simpl; [reflexivity | now rewrite IH]. Qed.

Lemma fold_bbox_merge_y1 bs b :
  by1 (fold_left bbox_merge bs b) = fold_left max2 (map by1 bs) (by1 b).
Proof. revert b. induction bs as [|c bs IH]; intros b; simpl; [reflexivity | now rewrite IH]. Qed.

(** Merging a box with boxes of a list it belongs to gives the union
    bounding box of the list, in whatever order they are merged. *)
Lemma fold_bbox_merge_union b0 bs all :
  (forall c, c ∈ b0 :: bs <-> c ∈ all) ->
  is_union_bbox (fold_left bbox_merge bs b0) all.
Proof.
  intros Hall.
  assert (Hmap : forall (f : BBox -> float) y, y ∈ [f b0] ++ map f bs <-> y ∈ map f all).
  { intros f y. change ([f b0] ++ map f bs) with (map f (b0 :: bs)).
    rewrite !list_elem_of_fmap. split; intros (c & -> & Hc); exists c;
      (split; [reflexivity | now apply Hall]). }
  unfold is_union_bbox.
  rewrite fold_bbox_merge_x0, fold_bbox_merge_y0, fold_bbox_merge_x1, fold_bbox_merge_y1.
  repeat split.
  - apply Hmap, fold_min2_is_min, is_min_singleton.
  - intros y Hy. apply (fold_min2_is_min _ _ [bx0 b0]); [apply is_min_singleton|].
    now apply Hmap.
  - apply Hmap, fold_min2_is_min, is_min_singleton.
  - intros y Hy. apply (fold_min2_is_min _ _ [by0 b0]); [apply is_min_singleton|].
    now apply Hmap.
  - apply Hmap, fold_max2_is_max, is_max_singleton.
  - intros y Hy. apply (fold_max2_is_max _ _ [bx1 b0]); [apply is_max_singleton|].
    now apply Hmap.
  - apply Hmap, fold_max2_is_max, is_max_singleton.
  - intros y Hy. apply (fold_max2_is_max _ _ [by1 b0]); [apply is_max_singleton|].
    now apply Hmap.
Qed.

Lemma elem_of_rev {A} (x : A) l : x ∈ rev l <-> x ∈ l.
Proof. rewrite !list_elem_of_In. symmetry. apply in_rev. Qed.

Lemma chosen_first first k paras p :
  paras !! first = Some p -> chosen first (S k) paras = p :: chosen (S first) k paras.
Proof.
  intros Hp. unfold chosen. rewrite (drop_S _ _ _ Hp). reflexivity.
Qed.

Lemma elem_of_sorted_indices s i : i ∈ sorted_indices s <-> i ∈ s.
Proof. unfold sorted_indices. now rewrite merge_sort_Permutation, elem_of_elements. Qed.

Lemma Sorted_le_seq a k : Sorted le (seq a k).
Proof.
  revert a. induction k as [|k IH]; intros a; cbn [seq]; constructor; [apply IH|].
  destruct k; constructor. lia.
Qed.

(** The sorted indices of a selection that is the run of [k] indices
    from [first] on. *)
Lemma sorted_indices_run s first k :
  (forall i, i ∈ s <-> first <= i < first + k) -> sorted_indices s = seq first k.
Proof.
  intros Hs. unfold sorted_indices. apply (Sorted_unique le).
  - apply (Sorted_merge_sort le).
  - apply Sorted_le_seq.
  - rewrite merge_sort_Permutation. apply NoDup_Permutation.
    + apply NoDup_elements.
    + apply NoDup_ListNoDup, seq_NoDup.
    + intros i. now rewrite elem_of_elements, elem_of_seq, Hs.
Qed.

(** C8: with two or more paragraphs selected that are the [k] paragraphs
    from index [first] on, the page afterwards holds one paragraph in
    their place, with the texts joined by line breaks in index order, the
    word lists concatenated in index order and the union bounding box;
    with two or more selected that are not such a run, the handler warns
    that the selection must be adjacent and returns the editor unchanged.
    With fewer than two selected it asks for two or more and returns the
    editor unchanged. *)
Theorem on_merge_contiguous_or_rejected ed paras :
  paragraphs_by_page ed !! current_page ed = Some paras ->
  let s := selected_indices ed in
  (forall first k,
     2 <= k -> first + k <= length paras ->
     (forall i, i ∈ s <-> first <= i < first + k) ->
     exists merged,
       on_merge ed =
         Returned
           {| paragraphs_by_page :=
                <[current_page ed := take first paras ++ merged :: drop (first + k) paras]>
                  (paragraphs_by_page ed);
              current_page := current_page ed;
              selected_indices := {[ first ]};
              undo_stack := undo_stack ed ++ [paragraphs_by_page ed];
              last_right_click := last_right_click ed |}
           [Render; msg_merged first] /\
       let inputs := chosen first k paras in
       p_text merged = join [0x0A%N] (map p_text inputs) /\
       p_words merged = concat (map p_words inputs) /\
       is_union_bbox (p_bbox merged) (map p_bbox inputs)) /\
  (2 <= size s ->
   ~ (exists first k, forall i, i ∈ s <-> first <= i < first + k) ->
   on_merge ed = Returned ed [msg_not_adjacent]) /\
  (size s < 2 -> on_merge ed = Returned ed [msg_select_more]).
Proof.
  intros Hparas s. split; [|split].
  - intros first k Hk Hlen Hs.
    destruct (lookup_lt_is_Some_2 paras first ltac:(lia)) as [p Hp].
    exists (merged_para first k paras (p_bbox p)).
    split; [|split; [|split]].
    + apply (on_merge_run ed paras first k p Hparas);
        [now apply sorted_indices_run | assumption..].
    + reflexivity.
    + reflexivity.
    + cbn [merged_para p_bbox]. apply fold_bbox_merge_union.
      intros c. rewrite elem_of_cons, !list_elem_of_fmap.
      assert (Hin : p ∈ chosen first k paras).
      { destruct k as [|k]; [lia|]. rewrite (chosen_first _ _ _ _ Hp). constructor. }
      split.
      * intros [-> | (q & -> & Hq)].
        -- now exists p.
        -- exists q. split; [reflexivity|]. exact (proj1 (elem_of_rev q _) Hq).
      * intros (q & -> & Hq). right. exists q. split; [reflexivity|].
        exact (proj2 (elem_of_rev q _) Hq).
  - intros Hsz Hrun. unfold on_merge. fold s.
    destruct (Nat.ltb_spec (size s) 2); [lia|].
    rewrite Hparas.
    destruct (contiguous (sorted_indices s)) eqn:Hc; [|reflexivity].
    exfalso. apply Hrun.
    destruct (sorted_indices s) as [|a l] eqn:Hsel.
    { pose proof (sorted_indices_length s) as Hl. rewrite Hsel in Hl. cbn in Hl. lia. }
    exists a, (S (length l)). intros i.
    rewrite <- elem_of_sorted_indices, Hsel, (contiguous_seq _ _ Hc). apply elem_of_seq.
  - intros Hsz. unfold on_merge. fold s.
    now destruct (Nat.ltb_spec (size s) 2); [|lia].
Qed.

(** *** Split, then merge *)

Lemma sorted_indices_pair a : sorted_indices {[ a; S a ]} = [a; S a].
Proof.
  unfold sorted_indices. apply (Sorted_unique le).
  - apply (Sorted_merge_sort le).
  - repeat constructor.
  - rewrite merge_sort_Permutation.
    rewrite elements_union_singleton by (rewrite elem_of_singleton; lia).
    now rewrite elements_singleton.
Qed.

Lemma list_insert_at_app {A} (x : A) l1 l2 i :
  length l1 = i -> list_insert_at i x (l1 ++ l2) = l1 ++ x :: l2.
Proof.
  intros <-. unfold list_insert_at. now rewrite take_app_length, drop_app_length.
Qed.

Lemma words_bbox_union w ws :
  is_union_bbox (words_bbox w ws) (map word_box (w :: ws)).
Proof.
  unfold is_union_bbox, words_bbox, min_of, max_of, bx0, by0, bx1, by1.
  cbn [fst snd]. rewrite !map_map.
  repeat split;
    first [ apply (fold_min2_is_min _ _ [_]), is_min_singleton
          | apply (fold_max2_is_max _ _ [_]), is_max_singleton ].
Qed.

Lemma words_bbox_split l ls r rs :
  Forall word_is_number (r :: rs) ->
  bbox_merge (bbox_merge (words_bbox l ls) (words_bbox r rs)) (words_bbox l ls)
  = words_bbox l (ls ++ r :: rs).
Proof.
  intros H.
  assert (Hn : forall f : Word -> float,
             (forall x, word_is_number x -> PrimFloat.is_nan (f x) = false) ->
             all_numbers (f r :: map f rs)).
  { intros f Hf. change (f r :: map f rs) with (map f (r :: rs)).
    apply Forall_fmap. eapply Forall_impl; [exact H | exact Hf]. }
  unfold bbox_merge, words_bbox, bx0, by0, bx1, by1. cbn [fst snd].
  rewrite !map_app. cbn [map].
  rewrite !min_of_split, !max_of_split; [reflexivity|..];
    apply Hn; intros x (? & ? & ? & ?); assumption.
Qed.

(** C7 (as the code has it): after a successful split of a paragraph
    whose word coordinates are numbers, merging the two halves at once
    gives a paragraph with the words of the original, in their order,
    and with the tight bounding box of those words, which is the
    original box only where that one was tight. *)
Theorem split_then_merge_words_and_tight_box hypot ed click paras para w ws idx_word :
  last_right_click ed = Some click ->
  click_page click = current_page ed ->
  paragraphs_by_page ed !! current_page ed = Some paras ->
  paras !! click_para_index click = Some para ->
  p_words para = w :: ws ->
  Forall word_is_number (w :: ws) ->
  nearest_word_index hypot (w :: ws) (click_x click) (click_y click) = Some idx_word ->
  drop (S idx_word) (w :: ws) <> [] ->
  let pi := click_para_index click in
  exists ed2 ui2 merged,
    split_then_merge hypot ed = Some (Returned ed2 ui2) /\
    current_page ed2 = current_page ed /\
    paragraphs_by_page ed2 !! current_page ed
    = Some (take pi paras ++ merged :: drop (S pi) paras) /\
    p_words merged = p_words para /\
    p_bbox merged = words_bbox w ws /\
    is_union_bbox (words_bbox w ws) (map word_box (w :: ws)).
Proof.
  intros Hclick Hpage Hparas Hpara Hwords Hnum Hnear Hright pi.
  assert (Hpi : pi < length paras) by (eapply lookup_lt_Some; exact Hpara).
  destruct (drop (S idx_word) (w :: ws)) as [|r rs] eqn:Hdrop; [congruence|].
  cbn [drop] in Hdrop.
  set (left := {| p_bbox := words_bbox w (take idx_word ws);
                  p_text := words_text (w :: take idx_word ws);
                  p_words := w :: take idx_word ws |}).
  set (right := {| p_bbox := words_bbox r rs;
                   p_text := words_text (r :: rs);
                   p_words := r :: rs |}).
  set (paras1 := take pi paras ++ left :: right :: drop (S pi) paras).
  assert (Hsplit : on_split_horizontal hypot ed =
    Returned {| paragraphs_by_page := <[current_page ed := paras1]> (paragraphs_by_page ed);
                current_page := current_page ed;
                selected_indices := selected_indices ed;
                undo_stack := undo_stack ed ++ [paragraphs_by_page ed];
                last_right_click := None |}
             [Render; msg_split pi]).
  { unfold on_split_horizontal. rewrite Hclick, Hpage, Nat.eqb_refl. cbn [negb].
    rewrite Hparas. subst pi. rewrite Hpara, Hwords, Hnear.
    cbn [take drop]. rewrite Hdrop.
    cbn [push_undo current_page paragraphs_by_page undo_stack selected_indices].
    do 3 f_equal. rewrite delete_take_drop.
    rewrite !list_insert_at_app by (rewrite length_take; lia).
    reflexivity. }
  assert (Hmerge := on_merge_run
    (select {[ pi; S pi ]}
       {| paragraphs_by_page := <[current_page ed := paras1]> (paragraphs_by_page ed);
          current_page := current_page ed;
          selected_indices := selected_indices ed;
          undo_stack := undo_stack ed ++ [paragraphs_by_page ed];
          last_right_click := None |})
    paras1 pi 2 left).
  cbn [select current_page paragraphs_by_page selected_indices] in Hmerge.
  assert (Hlen1 : length (take pi paras) = pi) by (rewrite length_take; lia).
  specialize (Hmerge (lookup_insert_eq _ _ _) (sorted_indices_pair pi) (le_n 2)).
  assert (Hchosen : chosen pi 2 paras1 = [left; right]).
  { unfold chosen, paras1. now rewrite drop_app_length' by (symmetry; exact Hlen1). }
  eexists _, _, (merged_para pi 2 paras1 (p_bbox left)).
  split; [|split; [|split; [|split; [|split]]]].
  - unfold split_then_merge. rewrite Hclick, Hsplit. fold pi. f_equal.
    apply Hmerge.
    + unfold paras1. rewrite length_app, Hlen1. simpl. lia.
    + unfold paras1. rewrite lookup_app_r, Hlen1, Nat.sub_diag by lia. reflexivity.
  - reflexivity.
  - cbn [paragraphs_by_page]. rewrite lookup_insert_eq. f_equal.
    unfold paras1 at 1 3. rewrite take_app_length' by (symmetry; exact Hlen1).
    f_equal. f_equal.
    rewrite drop_app_ge by lia. rewrite Hlen1.
    replace (pi + 2 - pi) with 2 by lia. reflexivity.
  - unfold merged_para. cbn [p_words]. rewrite Hchosen, Hwords. simpl.
    rewrite app_nil_r, <- Hdrop. now rewrite take_drop.
  - unfold merged_para. cbn [p_bbox]. rewrite Hchosen. simpl.
    rewrite words_bbox_split.
    + now rewrite <- Hdrop, take_drop.
    + rewrite <- Hdrop. apply Forall_cons in Hnum as [_ Hnum].
      now apply Forall_drop.
  - apply words_bbox_union.
Qed.

End ZoneFacts.

Lemma split_then_merge_witness :
  exists ed2 ui2 merged,
    Zone.split_then_merge Samples.hypot_sqrt Samples.ed_wide = Some (Py.Returned ed2 ui2) /\
    Zone.paragraphs_by_page ed2 !! 0%nat = Some [merged] /\
    Zone.p_words merged = Zone.p_words Samples.para_wide.
Proof.
  destruct (split_then_merge_words_and_tight_box Samples.hypot_sqrt Samples.ed_wide
              Samples.click_first_word [Samples.para_wide] Samples.para_wide
              (Samples.word_at 10 10 20 20 "a") [Samples.word_at 30 10 40 20 "b"] 0)
    as (ed2 & ui2 & merged & Hrun & _ & Hparas & Hwords & _);
    [ reflexivity | reflexivity | reflexivity | reflexivity | reflexivity
    | repeat constructor | vm_compute; reflexivity | discriminate | ].
  exists ed2, ui2, merged. split; [exact Hrun|]. split; [exact Hparas | exact Hwords].
Defined.

(** The box after the round trip is not the box of the original
    paragraph. *)
Lemma split_then_merge_box_differs :
  Zone.p_bbox <$>
    Zone.para_after (Zone.split_then_merge Samples.hypot_sqrt Samples.ed_wide) 0
  <> Some (Zone.p_bbox Samples.para_wide).
Proof.
  intros H.
  apply (f_equal (fun o => match o with
                           | Some b => PrimFloat.eqb (Zone.bx0 b) 0
                           | None => false
                           end)) in H.
  vm_compute in H. discriminate.
Qed.

Lemma on_merge_contiguous_witness :
  let ed := Samples.ed_three {[ 1; 2 ]} in
  exists merged,
    Zone.on_merge ed =
      Py.Returned
        {| Zone.paragraphs_by_page :=
             {[ 0 := [Samples.para_word 0 0 10 10 "a"; merged] ]};
           Zone.current_page := 0;
           Zone.selected_indices := {[ 1 ]};
           Zone.undo_stack := [Zone.paragraphs_by_page ed];
           Zone.last_right_click := None |}
        [Py.Render; Zone.msg_merged 1] /\
    Zone.p_text merged = s2u "b" ++ [0x0A%N] ++ s2u "c".
Proof.
  intros ed.
  destruct (on_merge_contiguous_or_rejected ed Samples.paras_three eq_refl) as (H & _).
  destruct (H 1 2) as (merged & Hrun & Htext & _).
  - lia.
  - cbn. lia.
  - intros i. cbn. rewrite elem_of_union, !elem_of_singleton. lia.
  - exists merged. split; [|exact Htext].
    rewrite Hrun. reflexivity.
Defined.

(** ** Inline-markup escaping *)

Section EscapeFacts.
Import Chars Escape.
Local Open Scope N_scope.

Lemma suffix_cons_cases {A} (u : list A) c s :
  u `suffix_of` c :: s -> u = c :: s \/ u `suffix_of` s.
Proof.
intros [[|x k] E]; simpl in E.
- now left.
- injection E as -> ->. right. now exists k.
Qed.

Lemma any_suffix_cons P c s : any_suffix P (c :: s) = P (c :: s) || any_suffix P s.
Proof. reflexivity. Qed.

Lemma any_suffix_false P s u :
  any_suffix P s = false -> u `suffix_of` s -> P u = false.
Proof.
induction s as [|c s IH]; simpl; intros H Hu.
- apply suffix_nil_inv in Hu as ->. now apply orb_false_iff in H as [H _].
- apply orb_false_iff in H as [H1 H2].
  apply suffix_cons_cases in Hu as [-> | Hu]; [assumption | now apply IH].
Qed.

Lemma any_suffix_true P s u :
  u `suffix_of` s -> P u = true -> any_suffix P s = true.
Proof.
intros Hu HP. destruct (any_suffix P s) eqn:E; [reflexivity|].
now rewrite (any_suffix_false _ _ _ E Hu) in HP.
Qed.

(** *** How the escaping steps act block by block *)

Lemma amp_sub_cons c s :
  amp_sub (c :: s) =
    (if c =? 0x26
     then if entity_match (take 30 s) then [0x26] else s2u "&amp;"
     else [c]) ++ amp_sub s.
Proof.
unfold amp_sub. destruct (c =? 0x26) eqn:E.
- erewrite scan_sub_hit by (simpl; rewrite E; reflexivity). reflexivity.
- rewrite scan_sub_miss by (simpl; rewrite E; reflexivity). reflexivity.
Qed.

Lemma escape_angle_flat s :
  escape_angle s =
    flat_map (fun c => if c =? 0x3C then s2u "&lt;"
                       else if c =? 0x3E then s2u "&gt;" else [c]) s.
Proof.
unfold escape_angle. rewrite !str_replace_single, flat_map_flat_map.
apply flat_map_ext. intros c.
destruct (N.eqb_spec c 0x3C) as [->|H1]; [reflexivity|].
simpl. rewrite app_nil_r. reflexivity.
Qed.

Lemma escape_angle_cons c s :
  escape_angle (c :: s) =
    (if c =? 0x3C then s2u "&lt;" else if c =? 0x3E then s2u "&gt;" else [c])
      ++ escape_angle s.
Proof. now rewrite !escape_angle_flat. Qed.

(** A function that rewrites a string block by block: a code point is kept,
    or it becomes a block that starts with [&] and holds no [@], [<] or
    [>]. *)
Definition blockwise (f : pystr -> pystr) : Prop :=
  f [] = [] /\
  forall c s,
    f (c :: s) = c :: f s \/
    exists b, f (c :: s) = (0x26 :: b) ++ f s /\
              Forall (fun x => x <> 0x40 /\ x <> 0x3C /\ x <> 0x3E /\ x <> 0x26) b.

Lemma blockwise_amp_sub : blockwise amp_sub.
Proof.
split; [reflexivity|]. intros c s. rewrite amp_sub_cons.
destruct (c =? 0x26) eqn:E; [|now left].
apply N.eqb_eq in E as ->.
destruct (entity_match (take 30 s)); [now left|].
right. exists (s2u "amp;"). split; [reflexivity|].
repeat constructor; discriminate.
Qed.

Lemma blockwise_escape_angle : blockwise escape_angle.
Proof.
split; [reflexivity|]. intros c s. rewrite escape_angle_cons.
destruct (c =? 0x3C); [|destruct (c =? 0x3E)].
- right. exists (s2u "lt;"). split; [reflexivity|]. repeat constructor; discriminate.
- right. exists (s2u "gt;"). split; [reflexivity|]. repeat constructor; discriminate.
- now left.
Qed.

(** A pattern without [&] that stands at the head of the result stood at
    the head of the argument. *)
Lemma blockwise_startswith f p s :
  blockwise f -> 0x26 ∉ p -> startswith p (f s) = true -> startswith p s = true.
Proof.
intros [Hnil Hcons] Hp. revert s. induction p as [|a p IH]; intros s H; [reflexivity|].
apply not_elem_of_cons in Hp as [Ha Hp].
destruct s as [|c s]; [now rewrite Hnil in H|].
destruct (Hcons c s) as [E | (b & E & _)]; rewrite E in H; simpl in H |- *.
- apply andb_true_iff in H as [H1 H2]. rewrite H1. simpl. now apply IH.
- apply andb_true_iff in H as [H1 _]. apply N.eqb_eq in H1. congruence.
Qed.

(** No occurrence of a pattern that starts with [@] and holds no [&]
    appears in the result unless there was one in the argument. *)
Lemma blockwise_no_occurrence f p s :
  blockwise f -> 0x26 ∉ p -> head p = Some 0x40 ->
  any_suffix (startswith p) s = false -> any_suffix (startswith p) (f s) = false.
Proof.
intros Hf Hp Hhd. destruct p as [|a p]; [discriminate|]. injection Hhd as ->.
induction s as [|c s IH]; intros H.
- destruct Hf as [-> _]. assumption.
- rewrite any_suffix_cons in H. apply orb_false_iff in H as [H1 H2]. specialize (IH H2).
  destruct (proj2 Hf c s) as [E | (b & E & Hb)]; rewrite E.
  + rewrite any_suffix_cons, IH, orb_false_r.
    destruct (startswith (0x40 :: p) (c :: f s)) eqn:E'; [|reflexivity].
    rewrite <- E in E'. apply (blockwise_startswith f) in E'; [congruence|assumption..].
  + clear E. change ((0x26 :: b) ++ f s) with (0x26 :: (b ++ f s)).
    rewrite any_suffix_cons. change (startswith (0x40 :: p) (0x26 :: b ++ f s)) with false.
    rewrite orb_false_l.
    induction b as [|x b IHb]; [assumption|].
    apply Forall_cons in Hb as [(Hx & _) Hb].
    change ((x :: b) ++ f s) with (x :: (b ++ f s)). rewrite any_suffix_cons.
    rewrite (IHb Hb), orb_false_r. cbn [startswith].
    destruct (N.eqb_spec 0x40 x); [congruence | reflexivity].
Qed.

Lemma blockwise_Forall f (P : N -> Prop) s :
  blockwise f -> P 0x26 ->
  (forall x, x <> 0x40 /\ x <> 0x3C /\ x <> 0x3E /\ x <> 0x26 -> P x) ->
  Forall P s -> Forall P (f s).
Proof.
intros [Hnil Hcons] Hamp HP. induction 1 as [|c s Hc Hs IH]; [now rewrite Hnil|].
destruct (Hcons c s) as [E | (b & E & Hb)]; rewrite E.
- now constructor.
- simpl. constructor; [assumption|]. apply Forall_app. split; [|assumption].
  eapply Forall_impl; [exact Hb | exact HP].
Qed.

(** Where the result holds no [&], nothing was rewritten. *)
Lemma blockwise_no_amp_id f s : blockwise f -> 0x26 ∉ f s -> f s = s.
Proof.
intros [Hnil Hcons]. induction s as [|c s IH]; intros H; [assumption|].
destruct (Hcons c s) as [E | (b & E & _)]; rewrite E in H |- *.
- apply not_elem_of_cons in H as [_ H]. f_equal. now apply IH.
- simpl in H. apply not_elem_of_cons in H as [H _]. congruence.
Qed.

(** *** The ampersand pass *)

Lemma class_star_amp_sub P n s :
  P 0x26 = false ->
  class_star P semicolon (take n s) = true ->
  class_star P semicolon (take n (amp_sub s)) = true.
Proof.
intros HP. revert n. induction s as [|c s IH]; intros [|n] H; try discriminate.
rewrite amp_sub_cons. destruct (N.eqb_spec c 0x26) as [->|Hc].
- simpl in H. rewrite HP in H. discriminate.
- change (class_star P semicolon (c :: take n (amp_sub s)) = true).
  change (class_star P semicolon (c :: take n s) = true) in H.
  simpl in H |- *. destruct (P c); [|assumption].
  apply orb_true_iff in H as [H|H]; [|now rewrite H, orb_true_r].
  now rewrite (IH _ H).
Qed.

Lemma class_plus_amp_sub P n s :
  P 0x26 = false ->
  class_plus P semicolon (take n s) = true ->
  class_plus P semicolon (take n (amp_sub s)) = true.
Proof.
intros HP. destruct s as [|c s], n as [|n]; intros H; try discriminate.
rewrite amp_sub_cons. destruct (N.eqb_spec c 0x26) as [->|Hc].
- simpl in H. rewrite HP in H. discriminate.
- change (class_plus P semicolon (c :: take n (amp_sub s)) = true).
  change (class_plus P semicolon (c :: take n s) = true) in H.
  simpl in H |- *. apply andb_true_iff in H as [-> H]. simpl.
  now apply class_star_amp_sub.
Qed.

(** An entity behind an ampersand is left as it is by the pass. *)
Lemma entity_match_amp_sub n s :
  entity_match (take n s) = true -> entity_match (take n (amp_sub s)) = true.
Proof.
destruct s as [|c s], n as [|n]; intros H; try discriminate.
change (entity_match (c :: take n s) = true) in H.
rewrite amp_sub_cons. destruct (N.eqb_spec c 0x26) as [->|Hc]; [discriminate|].
change (entity_match (c :: take n (amp_sub s)) = true).
unfold entity_match in H |- *.
apply orb_true_iff in H as [H|H]; [apply orb_true_iff in H as [H|H]|].
- apply andb_true_iff in H as [-> H]. simpl.
  rewrite (class_plus_amp_sub _ _ _ eq_refl H). reflexivity.
- apply andb_true_iff in H as [-> H]. simpl.
  destruct s as [|x s], n as [|n]; try discriminate.
  change (take (S n) (x :: s)) with (x :: take n s) in H.
  apply andb_true_iff in H as [Hx H].
  rewrite amp_sub_cons. apply N.eqb_eq in Hx. subst x.
  change (0x78 =? 0x26) with false. cbv iota.
  change (take (S n) ([0x78] ++ amp_sub s)) with (0x78 :: take n (amp_sub s)).
  cbv beta iota. rewrite (class_plus_amp_sub _ _ _ eq_refl H).
  change (0x78 =? 0x78) with true. cbn [andb]. now rewrite orb_true_r.
- apply andb_true_iff in H as [-> H]. simpl.
  rewrite (class_plus_amp_sub _ _ _ eq_refl H). now rewrite orb_true_r.
Qed.

Lemma amp_begins_entity_tail c s : amp_begins_entity (c :: s) -> amp_begins_entity s.
Proof. intros H pre r ->. apply (H (c :: pre) r). reflexivity. Qed.

Lemma amp_at_cons pre r c t :
  pre ++ 0x26 :: r = c :: t ->
  (c = 0x26 /\ r = t) \/ exists pre', pre' ++ 0x26 :: r = t.
Proof.
destruct pre as [|x pre]; simpl; intros [= <- <-]; [now left | right; now exists pre].
Qed.

(** After the pass every [&] begins an entity. *)
Lemma amp_sub_begins_entity s : amp_begins_entity (amp_sub s).
Proof.
induction s as [|c s IH]; intros pre r E.
- destruct pre; discriminate.
- rewrite amp_sub_cons in E. symmetry in E.
  destruct (N.eqb_spec c 0x26) as [->|Hc].
  + destruct (entity_match (take 30 s)) eqn:Em;
      [|change (s2u "&amp;") with [0x26; 0x61; 0x6D; 0x70; 0x3B] in E];
      cbn [app] in E.
    * apply amp_at_cons in E as [[_ ->] | [pre' E]].
      -- now apply entity_match_amp_sub.
      -- now apply (IH pre' r).
    * apply amp_at_cons in E as [[_ ->] | [pre1 E]]; [reflexivity|].
      apply amp_at_cons in E as [[? _] | [pre2 E]]; [discriminate|].
      apply amp_at_cons in E as [[? _] | [pre3 E]]; [discriminate|].
      apply amp_at_cons in E as [[? _] | [pre4 E]]; [discriminate|].
      apply amp_at_cons in E as [[? _] | [pre5 E]]; [discriminate|].
      now apply (IH pre5 r).
  + cbn [app] in E. apply amp_at_cons in E as [[? _] | [pre' E]]; [congruence|].
    now apply (IH pre' r).
Qed.

(** Where every [&] begins an entity the pass changes nothing. *)
Lemma amp_sub_fixed s : amp_begins_entity s -> amp_sub s = s.
Proof.
induction s as [|c s IH]; intros H; [reflexivity|].
rewrite amp_sub_cons, (IH (amp_begins_entity_tail _ _ H)).
destruct (N.eqb_spec c 0x26) as [->|Hc]; [|reflexivity].
now rewrite (H [] s eq_refl).
Qed.

(** *** Angle brackets *)

Definition no_angle (s : pystr) : Prop := Forall (fun x => x <> 0x3C /\ x <> 0x3E) s.

Lemma escape_angle_no_angle s : no_angle (escape_angle s).
Proof.
rewrite escape_angle_flat. induction s as [|c s IH]; [constructor|].
simpl. apply Forall_app. split; [|assumption].
destruct (N.eqb_spec c 0x3C); [repeat constructor; discriminate|].
destruct (N.eqb_spec c 0x3E); [repeat constructor; discriminate|].
repeat constructor; assumption.
Qed.

Lemma escape_angle_fixed s : no_angle s -> escape_angle s = s.
Proof.
intros H. rewrite escape_angle_flat. apply flat_map_id_on.
eapply Forall_impl; [exact H|]. intros c [H1 H2]. simpl.
destruct (N.eqb_spec c 0x3C); [congruence|].
destruct (N.eqb_spec c 0x3E); [congruence|reflexivity].
Qed.

Lemma amp_sub_no_angle s : no_angle s -> no_angle (amp_sub s).
Proof.
apply blockwise_Forall; [apply blockwise_amp_sub | split; discriminate |].
intros x (_ & ? & ? & _). now split.
Qed.

(** *** Tag protection *)

Lemma lit_ci_lt_head p c u : c <> 0x3C -> lit_ci (0x3C :: p) (c :: u) = None.
Proof.
intros H. cbn [lit_ci]. change (ci_eq 0x3C c) with (0x3C =? c).
destruct (N.eqb_spec 0x3C c); [congruence | reflexivity].
Qed.

Lemma tag_pair_at_no_lt u : head u <> Some 0x3C -> tag_pair_at u = false.
Proof.
intros H. destruct u as [|c u]; [reflexivity|].
assert (Hc : c <> 0x3C) by (intros ->; now apply H).
unfold tag_pair_at, match_nested, match_single, tag_b_open, tag_i_open.
rewrite !lit_ci_lt_head by assumption. reflexivity.
Qed.

Lemma no_angle_no_pair s : no_angle s -> has_inline_pair s = false.
Proof.
unfold has_inline_pair. induction 1 as [|c s [Hc _] _ IH]; [reflexivity|].
rewrite any_suffix_cons, IH, orb_false_r. apply tag_pair_at_no_lt.
simpl. congruence.
Qed.

Lemma not_is_Some_None {A} (o : option A) : bool_decide (is_Some o) = false -> o = None.
Proof.
destruct o; [|reflexivity]. intros H. apply bool_decide_eq_false in H.
exfalso. apply H. eauto.
Qed.

Lemma re_sub_tag_id matcher repl s :
  (forall u, u `suffix_of` s -> matcher u = None) -> re_sub_tag matcher repl s = s.
Proof.
intros H. unfold re_sub_tag. apply scan_sub_id. intros u _ Hu. now rewrite (H u Hu).
Qed.

(** Without a tag pair the four protections change nothing. *)
Lemma protect_tags_id s : has_inline_pair s = false -> protect_tags s = s.
Proof.
intros H. unfold protect_tags.
assert (Hu : forall u, u `suffix_of` s -> tag_pair_at u = false)
  by (intros u; now apply any_suffix_false).
assert (Hnone : forall u, u `suffix_of` s ->
  match_nested tag_b_open tag_i_open tag_i_close tag_b_close u = None /\
  match_nested tag_i_open tag_b_open tag_b_close tag_i_close u = None /\
  match_single tag_b_open tag_b_close u = None /\
  match_single tag_i_open tag_i_close u = None).
{ intros u Hs. specialize (Hu u Hs). unfold tag_pair_at in Hu.
  repeat (apply orb_false_iff in Hu as [Hu ?]).
  repeat split; now apply not_is_Some_None. }
rewrite (re_sub_tag_id (match_nested tag_b_open tag_i_open tag_i_close tag_b_close) _ s)
  by (intros u Hs; apply (Hnone u Hs)).
rewrite (re_sub_tag_id (match_nested tag_i_open tag_b_open tag_b_close tag_i_close) _ s)
  by (intros u Hs; apply (Hnone u Hs)).
rewrite (re_sub_tag_id (match_single tag_b_open tag_b_close) _ s)
  by (intros u Hs; apply (Hnone u Hs)).
apply re_sub_tag_id. intros u Hs. apply (Hnone u Hs).
Qed.

(** *** Placeholders *)

Lemma any_suffix_orb P Q s :
  any_suffix (fun u => P u || Q u) s = any_suffix P s || any_suffix Q s.
Proof.
induction s as [|c s IH]; simpl; [now rewrite !orb_false_r|].
rewrite IH. destruct (P (c :: s)), (Q (c :: s)), (any_suffix P s); reflexivity.
Qed.

Lemma has_placeholder_split s :
  has_placeholder s =
    any_suffix (startswith ph_b_open) s || any_suffix (startswith ph_b_close) s
    || any_suffix (startswith ph_i_open) s || any_suffix (startswith ph_i_close) s.
Proof.
unfold has_placeholder, placeholder_at. now rewrite !any_suffix_orb.
Qed.

Lemma no_amp_in_placeholders :
  (0x26 ∉ ph_b_open) /\ (0x26 ∉ ph_b_close) /\ (0x26 ∉ ph_i_open) /\ (0x26 ∉ ph_i_close).
Proof.
repeat split; intros H; apply list_elem_of_In in H; simpl in H;
  repeat (destruct H as [H|H]; [discriminate|]); contradiction.
Qed.

Lemma blockwise_no_placeholder f s :
  blockwise f -> has_placeholder s = false -> has_placeholder (f s) = false.
Proof.
intros Hf. rewrite !has_placeholder_split. intros H.
destruct no_amp_in_placeholders as (H1 & H2 & H3 & H4).
repeat (apply orb_false_iff in H as [H ?]).
rewrite (blockwise_no_occurrence f ph_b_open), (blockwise_no_occurrence f ph_b_close),
  (blockwise_no_occurrence f ph_i_open), (blockwise_no_occurrence f ph_i_close);
  first [ reflexivity | assumption ].
Qed.

Lemma restore_placeholders_id s : has_placeholder s = false -> restore_placeholders s = s.
Proof.
rewrite has_placeholder_split. intros H.
repeat (apply orb_false_iff in H as [H ?]).
unfold restore_placeholders.
rewrite (str_replace_absent ph_b_open _ s), (str_replace_absent ph_b_close _ s),
  (str_replace_absent ph_i_open _ s), (str_replace_absent ph_i_close _ s);
  first [ reflexivity | discriminate
        | intros u Hu; eapply any_suffix_false; eassumption ].
Qed.

(** *** Escaping twice *)

(** Without tag pairs and placeholders, escaping is the angle pass followed
    by the ampersand pass. *)
Lemma escape_plain x :
  has_inline_pair x = false -> has_placeholder x = false ->
  escape_html_keep_bi_and_entities x = amp_sub (escape_angle x).
Proof.
intros Hp Hph. destruct x as [|c x]; [reflexivity|].
unfold escape_html_keep_bi_and_entities.
rewrite protect_tags_id by assumption.
apply restore_placeholders_id.
apply blockwise_no_placeholder; [apply blockwise_amp_sub|].
now apply blockwise_no_placeholder; [apply blockwise_escape_angle|].
Qed.

(** C2 (as the code has it): on a text without recognized tag pair and
    without placeholder token, escaping twice is escaping once. *)
Theorem escape_idempotent_on_plain_text x :
  has_inline_pair x = false -> has_placeholder x = false ->
  escape_html_keep_bi_and_entities (escape_html_keep_bi_and_entities x)
  = escape_html_keep_bi_and_entities x.
Proof.
intros Hp Hph. rewrite (escape_plain x Hp Hph).
set (y := amp_sub (escape_angle x)).
assert (Hy : no_angle y) by apply amp_sub_no_angle, escape_angle_no_angle.
rewrite escape_plain.
- rewrite (escape_angle_fixed y Hy). apply amp_sub_fixed, amp_sub_begins_entity.
- now apply no_angle_no_pair.
- apply blockwise_no_placeholder; [apply blockwise_amp_sub|].
  now apply blockwise_no_placeholder; [apply blockwise_escape_angle|].
Qed.

(** *** Restoring the placeholders around a styled text *)

Lemma str_replace_hit_drop old new s :
  old <> [] -> startswith old s = true ->
  str_replace old new s = new ++ str_replace old new (drop (length old) s).
Proof.
intros Hold H. destruct (startswith_prefix _ _ H) as [r ->].
rewrite str_replace_hit by assumption. now rewrite drop_app_length.
Qed.

(** Code points other than the first of [old] are stepped over. *)
Lemma str_replace_skip a old new l rest :
  Forall (fun x => x <> a) l ->
  str_replace (a :: old) new (l ++ rest) = l ++ str_replace (a :: old) new rest.
Proof.
induction 1 as [|c l Hc _ IH]; [reflexivity|].
change ((c :: l) ++ rest) with (c :: (l ++ rest)).
rewrite str_replace_miss, IH; [reflexivity | discriminate |].
cbn [startswith]. destruct (N.eqb_spec a c); [congruence | reflexivity].
Qed.

(** A pattern [pw @ q] can stand at the head of [body @ rest], where
    neither [pw] nor [body] holds an [@], only if [body] is [pw]. *)
Lemma startswith_up_to_at pw q body rest :
  0x40 ∉ pw -> 0x40 ∉ body ->
  startswith (pw ++ 0x40 :: q) (body ++ 0x40 :: rest) = true -> body = pw.
Proof.
revert body. induction pw as [|a pw IH]; intros body Hpw Hbody H.
- destruct body as [|c body]; [reflexivity|].
  apply not_elem_of_cons in Hbody as [Hc _].
  cbn [app startswith] in H. apply andb_true_iff in H as [H _]. apply N.eqb_eq in H. congruence.
- apply not_elem_of_cons in Hpw as [Ha Hpw].
  destruct body as [|c body].
  + cbn [app startswith] in H. apply andb_true_iff in H as [H _]. apply N.eqb_eq in H. congruence.
  + apply not_elem_of_cons in Hbody as [Hc Hbody].
    cbn [app startswith] in H. apply andb_true_iff in H as [H1 H2]. apply N.eqb_eq in H1. subst c.
    f_equal. now apply IH.
Qed.

Lemma startswith_cons_same a p s : startswith (a :: p) (a :: s) = startswith p s.
Proof. cbn [startswith]. now rewrite N.eqb_refl. Qed.

Lemma not_at_Forall body : 0x40 ∉ body -> Forall (fun x => x <> 0x40) body.
Proof.
intros H. apply Forall_forall. intros x Hx ->. contradiction.
Qed.

Ltac not_in_list := apply (bool_decide_eq_false_1 _); vm_compute; reflexivity.

Ltac norm_literals :=
  repeat match goal with
    | |- context [s2u ?l] =>
        let x := eval vm_compute in (s2u l) in change (s2u l) with x
    end.

Ltac replace_hit :=
  rewrite str_replace_hit_drop by first [discriminate | reflexivity];
  cbn [length drop]; rewrite ?drop_0.

Ltac replace_miss :=
  rewrite str_replace_miss by first [discriminate | reflexivity].

(** *** The ampersand pass around placeholders *)

Lemma amp_sub_skip l s : 0x26 ∉ l -> amp_sub (l ++ s) = l ++ amp_sub s.
Proof.
induction l as [|c l IH]; intros H; [reflexivity|].
apply not_elem_of_cons in H as [Hc H].
change ((c :: l) ++ s) with (c :: (l ++ s)). rewrite amp_sub_cons, IH by assumption.
destruct (N.eqb_spec c 0x26); [congruence | reflexivity].
Qed.

Lemma class_star_before_at P n s r :
  P 0x40 = false ->
  class_star P semicolon (take n (s ++ 0x40 :: r)) = class_star P semicolon (take n s).
Proof.
intros HP. revert n. induction s as [|c s IH]; intros [|n]; try reflexivity.
- cbn [app take class_star]. now rewrite HP.
- cbn [app take class_star]. now rewrite IH.
Qed.

Lemma class_plus_before_at P n s r :
  P 0x40 = false ->
  class_plus P semicolon (take n (s ++ 0x40 :: r)) = class_plus P semicolon (take n s).
Proof.
intros HP. destruct s as [|c s], n as [|n]; try reflexivity.
- cbn [app take class_plus]. now rewrite HP.
- cbn [app take class_plus]. now rewrite class_star_before_at.
Qed.

(** The window behind an ampersand sees the same entity whether the text
    ends there or goes on with an [@]. *)
Lemma entity_match_before_at n s r :
  entity_match (take n (s ++ 0x40 :: r)) = entity_match (take n s).
Proof.
destruct s as [|c s], n as [|n]; try reflexivity.
cbn [app take]. unfold entity_match.
rewrite !class_plus_before_at by reflexivity.
destruct s as [|x s], n as [|n]; try reflexivity.
cbn [app take]. now rewrite class_plus_before_at by reflexivity.
Qed.

Lemma amp_sub_before_at s r :
  amp_sub (s ++ 0x40 :: r) = amp_sub s ++ amp_sub (0x40 :: r).
Proof.
induction s as [|c s IH]; [reflexivity|].
change ((c :: s) ++ 0x40 :: r) with (c :: (s ++ 0x40 :: r)).
rewrite !amp_sub_cons, IH, entity_match_before_at. now rewrite app_assoc.
Qed.

(** *** Protecting the tags of a styled text *)

(** A literal none of whose code points matches [<] cannot run over the
    end of [t] into a [<]. *)
Lemma lit_ci_before_lt tok t rest r :
  Forall (fun a => ci_eq a 0x3C = false) tok ->
  lit_ci tok (t ++ 0x3C :: rest) = Some r -> is_Some (lit_ci tok t).
Proof.
intros Htok. revert t. induction Htok as [|a tok Ha _ IH]; intros t H; [now eexists|].
destruct t as [|c t]; cbn [app lit_ci] in H |- *.
- now rewrite Ha in H.
- destruct (ci_eq a c); [now apply IH | discriminate].
Qed.

Lemma lit_ci_token_before_lt tok t rest :
  Forall (fun a => ci_eq a 0x3C = false) tok ->
  t <> [] -> lit_ci (0x3C :: tok) t = None ->
  lit_ci (0x3C :: tok) (t ++ 0x3C :: rest) = None.
Proof.
intros Htok Ht H. destruct t as [|c t]; [congruence|].
cbn [app lit_ci] in H |- *. destruct (ci_eq 0x3C c); [|reflexivity].
destruct (lit_ci tok (t ++ 0x3C :: rest)) eqn:E; [|reflexivity].
apply lit_ci_before_lt in E as [r' E]; [congruence | assumption].
Qed.

(** No tag token begins inside a text that holds none, whatever follows
    the text behind a [<]. *)
Lemma no_token_before_lt t u rest :
  has_tag_token t = false -> u <> [] -> u `suffix_of` t ->
  lit_ci tag_b_open (u ++ 0x3C :: rest) = None /\
  lit_ci tag_b_close (u ++ 0x3C :: rest) = None /\
  lit_ci tag_i_open (u ++ 0x3C :: rest) = None /\
  lit_ci tag_i_close (u ++ 0x3C :: rest) = None.
Proof.
intros Ht Hu Hs. pose proof (any_suffix_false _ _ _ Ht Hs) as H.
unfold tag_token_at in H. repeat (apply orb_false_iff in H as [H ?]).
repeat split; apply lit_ci_token_before_lt;
  first [ assumption | now apply not_is_Some_None | repeat constructor ].
Qed.

Lemma scan_sub_app_miss m t rest :
  (forall u, u <> [] -> u `suffix_of` t -> m (u ++ rest) = None) ->
  scan_sub m 0 (t ++ rest) = t ++ scan_sub m 0 rest.
Proof.
induction t as [|c t IH]; intros H; [reflexivity|].
change ((c :: t) ++ rest) with (c :: (t ++ rest)).
rewrite scan_sub_miss by (apply (H (c :: t)); [discriminate | reflexivity]).
rewrite IH; [reflexivity|]. intros u Hu Hs. apply H; [assumption|].
now apply suffix_cons_r.
Qed.

Lemma lazy_dot_app {A} (k : pystr -> option A) t rest r :
  (forall u, u <> [] -> u `suffix_of` t -> k (u ++ rest) = None) ->
  k rest = Some r -> lazy_dot k (t ++ rest) = Some (t, r).
Proof.
intros H Hr. induction t as [|c t IH].
- destruct rest; simpl; now rewrite Hr.
- change ((c :: t) ++ rest) with (c :: (t ++ rest)). cbn [lazy_dot].
  change (c :: (t ++ rest)) with ((c :: t) ++ rest).
  rewrite (H (c :: t)) by (discriminate || reflexivity).
  rewrite IH; [reflexivity|]. intros u Hu Hs. apply H; [assumption|].
  now apply suffix_cons_r.
Qed.

Lemma ws_star_none {A} (k : pystr -> option A) t rest :
  (forall u, u `suffix_of` t -> k (u ++ 0x3C :: rest) = None) ->
  ws_star k (t ++ 0x3C :: rest) = None.
Proof.
induction t as [|c t IH]; intros H.
- cbn [app ws_star]. change (uni_isspace 0x3C) with false. apply (H []). reflexivity.
- change ((c :: t) ++ 0x3C :: rest) with (c :: (t ++ 0x3C :: rest)). cbn [ws_star].
  rewrite IH by (intros u Hs; apply H; now apply suffix_cons_r).
  change (c :: (t ++ 0x3C :: rest)) with ((c :: t) ++ 0x3C :: rest).
  rewrite (H (c :: t)) by reflexivity. now destruct (uni_isspace c).
Qed.

Lemma suffix_no_angle u s : u `suffix_of` s -> no_angle s -> no_angle u.
Proof. intros [k ->] H. now apply Forall_app in H as [_ H]. Qed.

Lemma re_sub_tag_no_angle matcher repl s :
  (forall u, head u <> Some 0x3C -> matcher u = None) ->
  no_angle s -> re_sub_tag matcher repl s = s.
Proof.
intros Hm Hs. apply re_sub_tag_id. intros u Hu. apply Hm.
apply (suffix_no_angle _ _ Hu) in Hs. destruct Hs as [|c u' [Hc _] _]; simpl; congruence.
Qed.

Lemma matchers_need_lt u :
  head u <> Some 0x3C ->
  match_nested tag_b_open tag_i_open tag_i_close tag_b_close u = None /\
  match_nested tag_i_open tag_b_open tag_b_close tag_i_close u = None /\
  match_single tag_b_open tag_b_close u = None /\
  match_single tag_i_open tag_i_close u = None.
Proof.
intros H. apply tag_pair_at_no_lt in H. unfold tag_pair_at in H.
repeat (apply orb_false_iff in H as [H ?]).
repeat split; now apply not_is_Some_None.
Qed.

(** The last three protections leave a text without angle brackets as it
    is. *)
Lemma protect_rest_no_angle s :
  no_angle s ->
  re_sub_tag (match_single tag_i_open tag_i_close) protect_i
    (re_sub_tag (match_single tag_b_open tag_b_close) protect_b
       (re_sub_tag (match_nested tag_i_open tag_b_open tag_b_close tag_i_close)
          protect_nested s)) = s.
Proof.
intros H.
rewrite (re_sub_tag_no_angle (match_nested tag_i_open tag_b_open tag_b_close tag_i_close))
  by (assumption || intros u Hu; apply (matchers_need_lt u Hu)).
rewrite (re_sub_tag_no_angle (match_single tag_b_open tag_b_close))
  by (assumption || intros u Hu; apply (matchers_need_lt u Hu)).
apply re_sub_tag_no_angle; [|assumption]. intros u Hu. apply (matchers_need_lt u Hu).
Qed.

(** A match that covers the whole subject is replaced as a whole. *)
Lemma re_sub_tag_whole matcher repl s inner :
  s <> [] -> matcher s = Some (inner, []) -> re_sub_tag matcher repl s = repl s inner.
Proof.
intros Hs H. destruct s as [|c s]; [congruence|]. unfold re_sub_tag.
erewrite scan_sub_hit by (rewrite H; reflexivity).
cbn [length pred]. rewrite Nat.sub_0_r. cbn [pred].
rewrite drop_all. cbn [scan_sub]. rewrite app_nil_r.
change (S (length s)) with (length (c :: s)). now rewrite firstn_all.
Qed.

Lemma escape_angle_app a b : escape_angle (a ++ b) = escape_angle a ++ escape_angle b.
Proof. rewrite !escape_angle_flat. apply flat_map_app. Qed.

Lemma no_angle_protected p1 p2 e p3 p4 :
  no_angle p1 -> no_angle p2 -> no_angle p3 -> no_angle p4 ->
  no_angle (p1 ++ p2 ++ escape_angle e ++ p3 ++ p4).
Proof.
intros. unfold no_angle. rewrite !Forall_app.
repeat split; try assumption. apply escape_angle_no_angle.
Qed.

Lemma no_angle_placeholders :
  no_angle ph_b_open /\ no_angle ph_b_close /\ no_angle ph_i_open /\ no_angle ph_i_close.
Proof. repeat split; repeat constructor; discriminate. Qed.

Lemma escape_nonempty s :
  s <> [] ->
  escape_html_keep_bi_and_entities s
  = restore_placeholders (amp_sub (escape_angle (protect_tags s))).
Proof. destruct s; [congruence | reflexivity]. Qed.

(** Between two pairs of placeholders, only the text in the middle is
    touched by the two escaping passes. *)
Lemma escape_between_placeholders p1 p2 p3 p4 t :
  no_angle p1 -> no_angle p2 -> no_angle p3 -> no_angle p4 ->
  (0x26 ∉ p1) -> (0x26 ∉ p2) ->
  head (p3 ++ p4) = Some 0x40 -> amp_sub (p3 ++ p4) = p3 ++ p4 ->
  amp_sub (escape_angle (p1 ++ p2 ++ escape_angle t ++ p3 ++ p4))
  = p1 ++ p2 ++ amp_sub (escape_angle t) ++ p3 ++ p4.
Proof.
intros H1 H2 H3 H4 A1 A2 Hhd Hfix.
rewrite (escape_angle_fixed (p1 ++ _)) by now apply no_angle_protected.
rewrite !amp_sub_skip by assumption.
destruct (p3 ++ p4) as [|c r] eqn:E; [discriminate|].
injection Hhd as ->. now rewrite amp_sub_before_at, Hfix.
Qed.

Lemma escaped_body_no_at t : (0x40 ∉ t) -> 0x40 ∉ amp_sub (escape_angle t).
Proof.
intros H%not_at_Forall Hin.
assert (F : Forall (fun x => x <> 0x40) (amp_sub (escape_angle t))).
{ apply blockwise_Forall; [apply blockwise_amp_sub | discriminate | now intros x (? & _) |].
  apply blockwise_Forall; [apply blockwise_escape_angle | discriminate
                          | now intros x (? & _) | exact H]. }
rewrite Forall_forall in F. now apply (F _ Hin).
Qed.

Lemma escaped_body_plain t w :
  (0x26 ∉ w) -> amp_sub (escape_angle t) = w -> t = w.
Proof.
intros Hw E. subst w.
pose proof (blockwise_no_amp_id _ _ blockwise_amp_sub Hw) as E1.
rewrite E1 in Hw |- *.
pose proof (blockwise_no_amp_id _ _ blockwise_escape_angle Hw) as E2.
now rewrite E2.
Qed.

(** *** A styled text that does not close its own tags *)

Lemma lit_ci_app_lt tok t rest r :
  Forall (fun a => ci_eq a 0x3C = false) tok ->
  lit_ci tok (t ++ 0x3C :: rest) = Some r ->
  exists r', lit_ci tok t = Some r' /\ r = r' ++ 0x3C :: rest.
Proof.
intros Htok. revert t. induction Htok as [|a tok Ha _ IH]; intros t H.
- cbn [lit_ci] in H |- *. injection H as <-. now exists t.
- destruct t as [|c t]; cbn [app lit_ci] in H |- *.
  + now rewrite Ha in H.
  + destruct (ci_eq a c); [now apply IH | discriminate].
Qed.

(** White space and a closing tag that are not found in [r] are not found
    when [r] goes on with a [<] that does not begin the tag. *)
Lemma ws_star_lit_app_lt tok r rest :
  Forall (fun a => ci_eq a 0x3C = false) tok ->
  ws_star (lit_ci (0x3C :: tok)) r = None ->
  lit_ci (0x3C :: tok) (0x3C :: rest) = None ->
  ws_star (lit_ci (0x3C :: tok)) (r ++ 0x3C :: rest) = None.
Proof.
intros Htok H Hrest. induction r as [|c r IH].
- cbn [app ws_star]. change (uni_isspace 0x3C) with false. exact Hrest.
- cbn [ws_star] in H. change ((c :: r) ++ 0x3C :: rest) with (c :: (r ++ 0x3C :: rest)).
  cbn [ws_star].
  assert (Hk : lit_ci (0x3C :: tok) (c :: r) = None ->
               lit_ci (0x3C :: tok) (c :: r ++ 0x3C :: rest) = None).
  { intros E. apply (lit_ci_token_before_lt tok (c :: r) rest Htok); [discriminate | exact E]. }
  destruct (uni_isspace c).
  + destruct (ws_star (lit_ci (0x3C :: tok)) r) eqn:E; [discriminate|].
    rewrite (IH eq_refl). now apply Hk.
  + now apply Hk.
Qed.

(** A closing sequence that does not begin at [u] does not begin there
    when [u] goes on with a [<] either. *)
Lemma closing_app_lt tok2 tok1 u rest :
  Forall (fun a => ci_eq a 0x3C = false) tok2 ->
  Forall (fun a => ci_eq a 0x3C = false) tok1 ->
  u <> [] ->
  closing_at (0x3C :: tok2) (0x3C :: tok1) u = false ->
  lit_ci (0x3C :: tok1) (0x3C :: rest) = None ->
  match lit_ci (0x3C :: tok2) (u ++ 0x3C :: rest) with
  | None => None
  | Some t1 => ws_star (lit_ci (0x3C :: tok1)) t1
  end = None.
Proof.
intros H2 H1 Hu Hc Hrest. unfold closing_at in Hc. apply not_is_Some_None in Hc.
destruct u as [|c u]; [congruence|].
cbn [app lit_ci] in Hc |- *.
destruct (ci_eq 0x3C c); [|reflexivity].
destruct (lit_ci tok2 (u ++ 0x3C :: rest)) as [t1|] eqn:E; [|reflexivity].
apply lit_ci_app_lt in E as (r' & E & ->); [|assumption].
rewrite E in Hc. now apply ws_star_lit_app_lt.
Qed.

Lemma match_nested_bi_inner t :
  has_closing tag_i_close tag_b_close t = false ->
  match_nested tag_b_open tag_i_open tag_i_close tag_b_close
    (s2u "<b><i>" ++ t ++ s2u "</i></b>") = Some (t, []).
Proof.
intros Ht. unfold match_nested.
change (lit_ci tag_b_open (s2u "<b><i>" ++ t ++ s2u "</i></b>"))
  with (Some (tag_i_open ++ t ++ s2u "</i></b>")).
cbv beta iota. unfold tag_i_open at 2. cbn [app ws_star].
change (uni_isspace 0x3C) with false. cbv iota.
change (lit_ci tag_i_open (0x3C :: 0x69 :: 0x3E :: t ++ s2u "</i></b>"))
  with (Some (t ++ s2u "</i></b>")).
cbv beta iota. apply lazy_dot_app; [|reflexivity].
intros u Hu Hs.
change (s2u "</i></b>") with (0x3C :: s2u "/i></b>").
apply (closing_app_lt (s2u "/i>") (s2u "/b>"));
  [repeat constructor | repeat constructor | assumption | | reflexivity].
exact (any_suffix_false _ _ _ Ht Hs).
Qed.

Lemma match_nested_ib_inner t :
  has_closing tag_b_close tag_i_close t = false ->
  match_nested tag_i_open tag_b_open tag_b_close tag_i_close
    (s2u "<i><b>" ++ t ++ s2u "</b></i>") = Some (t, []).
Proof.
intros Ht. unfold match_nested.
change (lit_ci tag_i_open (s2u "<i><b>" ++ t ++ s2u "</b></i>"))
  with (Some (tag_b_open ++ t ++ s2u "</b></i>")).
cbv beta iota. unfold tag_b_open at 2. cbn [app ws_star].
change (uni_isspace 0x3C) with false. cbv iota.
change (lit_ci tag_b_open (0x3C :: 0x62 :: 0x3E :: t ++ s2u "</b></i>"))
  with (Some (t ++ s2u "</b></i>")).
cbv beta iota. apply lazy_dot_app; [|reflexivity].
intros u Hu Hs.
change (s2u "</b></i>") with (0x3C :: s2u "/b></i>").
apply (closing_app_lt (s2u "/b>") (s2u "/i>"));
  [repeat constructor | repeat constructor | assumption | | reflexivity].
exact (any_suffix_false _ _ _ Ht Hs).
Qed.

(** With bold outside: the first pattern takes the whole styled text
    unless the text closes the tags itself. *)
Lemma protect_tags_bold_outside t :
  has_closing tag_i_close tag_b_close t = false ->
  protect_tags (s2u "<b><i>" ++ t ++ s2u "</i></b>")
  = ph_b_open ++ ph_i_open ++ escape_angle t ++ ph_i_close ++ ph_b_close.
Proof.
intros Ht. unfold protect_tags.
rewrite (re_sub_tag_whole (match_nested tag_b_open tag_i_open tag_i_close tag_b_close)
           protect_nested (s2u "<b><i>" ++ t ++ s2u "</i></b>") t);
  [ | discriminate | now apply match_nested_bi_inner ].
unfold protect_nested at 1.
change (startswith tag_b_open (py_lower (s2u "<b><i>" ++ t ++ s2u "</i></b>"))) with true.
cbv iota. apply protect_rest_no_angle.
destruct no_angle_placeholders as (? & ? & ? & ?). now apply no_angle_protected.
Qed.

(** With italic outside: the first pattern must find nothing, then the
    second takes the whole styled text. *)
Lemma protect_tags_italic_outside t :
  has_closing tag_b_close tag_i_close t = false ->
  has_nested_b_i (s2u "<i><b>" ++ t ++ s2u "</b></i>") = false ->
  protect_tags (s2u "<i><b>" ++ t ++ s2u "</b></i>")
  = ph_i_open ++ ph_b_open ++ escape_angle t ++ ph_b_close ++ ph_i_close.
Proof.
intros Ht Hn. unfold protect_tags.
rewrite (re_sub_tag_id (match_nested tag_b_open tag_i_open tag_i_close tag_b_close)
           protect_nested (s2u "<i><b>" ++ t ++ s2u "</b></i>"))
  by (intros u Hs; apply not_is_Some_None; exact (any_suffix_false _ _ _ Hn Hs)).
rewrite (re_sub_tag_whole (match_nested tag_i_open tag_b_open tag_b_close tag_i_close)
           protect_nested (s2u "<i><b>" ++ t ++ s2u "</b></i>") t);
  [ | discriminate | now apply match_nested_ib_inner ].
unfold protect_nested at 1.
change (startswith tag_b_open (py_lower (s2u "<i><b>" ++ t ++ s2u "</b></i>"))) with false.
cbv iota.
rewrite (re_sub_tag_no_angle (match_single tag_b_open tag_b_close));
  [ | intros u Hu; apply (matchers_need_lt u Hu) | ].
- apply re_sub_tag_no_angle; [intros u Hu; apply (matchers_need_lt u Hu)|].
  destruct no_angle_placeholders as (? & ? & ? & ?). now apply no_angle_protected.
- destruct no_angle_placeholders as (? & ? & ? & ?). now apply no_angle_protected.
Qed.

(** *** Restoring the placeholders around a text with [@] in it *)

(** A placeholder token: a name without [@] between two [@@]. *)
Definition token_shape (p : pystr) : Prop :=
  exists name, p = 0x40 :: 0x40 :: name ++ [0x40; 0x40] /\ (0x40 ∉ name) /\ name <> [].

Lemma token_shape_b_open : token_shape ph_b_open.
Proof. exists (s2u "B_OPEN"). split; [reflexivity | split; [not_in_list | discriminate]]. Qed.

Lemma token_shape_b_close : token_shape ph_b_close.
Proof. exists (s2u "B_CLOSE"). split; [reflexivity | split; [not_in_list | discriminate]]. Qed.

Lemma token_shape_i_open : token_shape ph_i_open.
Proof. exists (s2u "I_OPEN"). split; [reflexivity | split; [not_in_list | discriminate]]. Qed.

Lemma token_shape_i_close : token_shape ph_i_close.
Proof. exists (s2u "I_CLOSE"). split; [reflexivity | split; [not_in_list | discriminate]]. Qed.

Lemma startswith_name_before_at name u r :
  0x40 ∉ name ->
  startswith (name ++ [0x40; 0x40]) (u ++ 0x40 :: 0x40 :: r) = true ->
  startswith (name ++ [0x40; 0x40]) (u ++ [0x40; 0x40]) = true.
Proof.
revert u. induction name as [|a name IH]; intros u Hn H.
- destruct u as [|c1 [|c2 u]]; cbn [app startswith] in H |- *.
  + reflexivity.
  + apply andb_true_iff in H as [H1 _]. now rewrite H1.
  + apply andb_true_iff in H as [H1 H]. apply andb_true_iff in H as [H2 _].
    now rewrite H1, H2.
- apply not_elem_of_cons in Hn as [Ha Hn].
  destruct u as [|c u]; cbn [app startswith] in H |- *.
  + apply andb_true_iff in H as [H _]. apply N.eqb_eq in H. congruence.
  + apply andb_true_iff in H as [H1 H]. rewrite H1. cbn [andb]. now apply IH.
Qed.

(** A token that begins inside [u] and is found when [@@] and more follow
    is found in [u @@] already. *)
Lemma startswith_token_before_at p u r :
  token_shape p -> u <> [] ->
  startswith p (u ++ 0x40 :: 0x40 :: r) = true ->
  startswith p (u ++ [0x40; 0x40]) = true.
Proof.
intros (name & -> & Hn & Hne) Hu H. destruct u as [|c1 u]; [congruence|].
cbn [app startswith] in H |- *. apply andb_true_iff in H as [H1 H]. rewrite H1. cbn [andb].
destruct u as [|c2 u]; cbn [app startswith] in H |- *.
- apply andb_true_iff in H as [_ H]. destruct name as [|a name]; [congruence|].
  apply not_elem_of_cons in Hn as [Ha _]. cbn [app startswith] in H.
  apply andb_true_iff in H as [H _]. apply N.eqb_eq in H. congruence.
- apply andb_true_iff in H as [H2 H]. rewrite H2. cbn [andb].
  now apply (startswith_name_before_at name u r).
Qed.

Lemma startswith_app_r p u r : startswith p u = true -> startswith p (u ++ r) = true.
Proof.
revert u. induction p as [|a p IH]; intros u H; [reflexivity|].
destruct u as [|c u]; [discriminate|]. cbn [app startswith] in H |- *.
apply andb_true_iff in H as [H1 H]. rewrite H1. cbn [andb]. now apply IH.
Qed.

Lemma startswith_before_lt p u r :
  0x3C ∉ p -> startswith p (u ++ 0x3C :: r) = true -> startswith p u = true.
Proof.
revert u. induction p as [|a p IH]; intros u Hp H; [reflexivity|].
apply not_elem_of_cons in Hp as [Ha Hp].
destruct u as [|c u]; cbn [app startswith] in H |- *.
- apply andb_true_iff in H as [H _]. apply N.eqb_eq in H. congruence.
- apply andb_true_iff in H as [H1 H]. rewrite H1. cbn [andb]. now apply IH.
Qed.

Lemma str_replace_app_miss old new l rest :
  old <> [] ->
  (forall u, u <> [] -> u `suffix_of` l -> startswith old (u ++ rest) = false) ->
  str_replace old new (l ++ rest) = l ++ str_replace old new rest.
Proof.
intros Hold H. destruct old as [|a old]; [congruence|]. unfold str_replace.
apply scan_sub_app_miss. intros u Hu Hs. now rewrite (H u Hu Hs).
Qed.

Lemma token_shape_nonempty p : token_shape p -> p <> [].
Proof. intros (name & -> & _). discriminate. Qed.

(** The text between [@@] and [@@]: a token that is not found in it is
    stepped over. *)
Lemma replace_over_body_between p new body r :
  token_shape p -> occurs p (at_at ++ body ++ at_at) = false ->
  str_replace p new (0x40 :: 0x40 :: body ++ 0x40 :: 0x40 :: r)
  = 0x40 :: 0x40 :: body ++ str_replace p new (0x40 :: 0x40 :: r).
Proof.
intros Hp H.
change (0x40 :: 0x40 :: body ++ 0x40 :: 0x40 :: r)
  with (([0x40; 0x40] ++ body) ++ 0x40 :: 0x40 :: r).
rewrite str_replace_app_miss; [reflexivity | now apply token_shape_nonempty |].
intros u Hu Hs. destruct (startswith p (u ++ 0x40 :: 0x40 :: r)) eqn:E; [|reflexivity].
apply startswith_token_before_at in E; [|assumption..].
rewrite <- E. apply (any_suffix_false _ _ _ H).
change (at_at ++ body ++ at_at) with ([0x40; 0x40] ++ body ++ [0x40; 0x40]).
rewrite app_assoc. now apply suffix_app.
Qed.

(** The text before [@@]. *)
Lemma replace_over_body_before p new body r :
  token_shape p -> occurs p (body ++ at_at) = false ->
  str_replace p new (body ++ 0x40 :: 0x40 :: r)
  = body ++ str_replace p new (0x40 :: 0x40 :: r).
Proof.
intros Hp H.
rewrite str_replace_app_miss; [reflexivity | now apply token_shape_nonempty |].
intros u Hu Hs. destruct (startswith p (u ++ 0x40 :: 0x40 :: r)) eqn:E; [|reflexivity].
apply startswith_token_before_at in E; [|assumption..].
rewrite <- E. apply (any_suffix_false _ _ _ H).
now apply suffix_app.
Qed.

(** The text before a tag. *)
Lemma replace_over_body_before_lt p new body r :
  p <> [] -> (0x3C ∉ p) -> occurs p body = false ->
  str_replace p new (body ++ 0x3C :: r) = body ++ str_replace p new (0x3C :: r).
Proof.
intros Hne Hp H.
rewrite str_replace_app_miss; [reflexivity | assumption |].
intros u Hu Hs. destruct (startswith p (u ++ 0x3C :: r)) eqn:E; [|reflexivity].
apply startswith_before_lt in E; [|assumption].
rewrite <- E. exact (any_suffix_false _ _ _ H Hs).
Qed.

Lemma restore_bold_outside body :
  occurs ph_b_open (at_at ++ body ++ at_at) = false ->
  occurs ph_b_close (at_at ++ body ++ at_at) = false ->
  occurs ph_i_open (body ++ at_at) = false ->
  occurs ph_i_close (body ++ at_at) = false ->
  restore_placeholders (ph_b_open ++ ph_i_open ++ body ++ ph_i_close ++ ph_b_close)
  = s2u "<b><i>" ++ body ++ s2u "</i></b>".
Proof.
intros Hbo Hbc Hio Hic.
assert (R1 : str_replace ph_b_open tag_b_open
               (ph_b_open ++ ph_i_open ++ body ++ ph_i_close ++ ph_b_close)
             = s2u "<b>" ++ ph_i_open ++ body ++ ph_i_close ++ ph_b_close).
{ unfold ph_b_open, ph_b_close, ph_i_open, ph_i_close, tag_b_open. norm_literals. cbn [app].
  replace_hit. do 8 replace_miss.
  rewrite replace_over_body_between; [ | exact token_shape_b_open | exact Hbo ].
  do 22 replace_miss. reflexivity. }
assert (R2 : str_replace ph_b_close tag_b_close
               (s2u "<b>" ++ ph_i_open ++ body ++ ph_i_close ++ ph_b_close)
             = s2u "<b>" ++ ph_i_open ++ body ++ ph_i_close ++ s2u "</b>").
{ unfold ph_b_close, ph_i_open, ph_i_close, tag_b_close. norm_literals. cbn [app].
  do 11 replace_miss.
  rewrite replace_over_body_between; [ | exact token_shape_b_close | exact Hbc ].
  do 11 replace_miss. replace_hit. reflexivity. }
assert (R3 : str_replace ph_i_open tag_i_open
               (s2u "<b>" ++ ph_i_open ++ body ++ ph_i_close ++ s2u "</b>")
             = s2u "<b><i>" ++ body ++ ph_i_close ++ s2u "</b>").
{ unfold ph_i_open, ph_i_close, tag_i_open. norm_literals. cbn [app].
  do 3 replace_miss. replace_hit.
  rewrite replace_over_body_before; [ | exact token_shape_i_open | exact Hio ].
  do 15 replace_miss. reflexivity. }
assert (R4 : str_replace ph_i_close tag_i_close
               (s2u "<b><i>" ++ body ++ ph_i_close ++ s2u "</b>")
             = s2u "<b><i>" ++ body ++ s2u "</i></b>").
{ unfold ph_i_close, tag_i_close. norm_literals. cbn [app].
  do 6 replace_miss.
  rewrite replace_over_body_before; [ | exact token_shape_i_close | exact Hic ].
  replace_hit. do 4 replace_miss. reflexivity. }
unfold restore_placeholders. now rewrite R1, R2, R3, R4.
Qed.

Lemma restore_italic_outside body :
  occurs ph_b_open (body ++ at_at) = false ->
  occurs ph_b_close (body ++ at_at) = false ->
  occurs ph_i_open body = false ->
  occurs ph_i_close body = false ->
  restore_placeholders (ph_i_open ++ ph_b_open ++ body ++ ph_b_close ++ ph_i_close)
  = s2u "<i><b>" ++ body ++ s2u "</b></i>".
Proof.
intros Hbo Hbc Hio Hic.
assert (R1 : str_replace ph_b_open tag_b_open
               (ph_i_open ++ ph_b_open ++ body ++ ph_b_close ++ ph_i_close)
             = ph_i_open ++ s2u "<b>" ++ body ++ ph_b_close ++ ph_i_close).
{ unfold ph_b_open, ph_b_close, ph_i_open, ph_i_close, tag_b_open. norm_literals.
  cbn [app]. do 10 replace_miss. replace_hit.
  rewrite replace_over_body_before; [ | exact token_shape_b_open | exact Hbo ].
  do 22 replace_miss. reflexivity. }
assert (R2 : str_replace ph_b_close tag_b_close
               (ph_i_open ++ s2u "<b>" ++ body ++ ph_b_close ++ ph_i_close)
             = ph_i_open ++ s2u "<b>" ++ body ++ s2u "</b>" ++ ph_i_close).
{ unfold ph_b_close, ph_i_open, ph_i_close, tag_b_close. norm_literals.
  cbn [app]. do 13 replace_miss.
  rewrite replace_over_body_before; [ | exact token_shape_b_close | exact Hbc ].
  replace_hit. do 11 replace_miss. reflexivity. }
assert (R3 : str_replace ph_i_open tag_i_open
               (ph_i_open ++ s2u "<b>" ++ body ++ s2u "</b>" ++ ph_i_close)
             = s2u "<i><b>" ++ body ++ s2u "</b>" ++ ph_i_close).
{ unfold ph_i_open, ph_i_close, tag_i_open. norm_literals.
  cbn [app]. replace_hit. do 3 replace_miss.
  rewrite replace_over_body_before_lt; [ | discriminate | not_in_list | exact Hio ].
  do 15 replace_miss. reflexivity. }
assert (R4 : str_replace ph_i_close tag_i_close
               (s2u "<i><b>" ++ body ++ s2u "</b>" ++ ph_i_close)
             = s2u "<i><b>" ++ body ++ s2u "</b></i>").
{ unfold ph_i_close, tag_i_close. norm_literals.
  cbn [app]. do 6 replace_miss.
  rewrite replace_over_body_before_lt; [ | discriminate | not_in_list | exact Hic ].
  do 4 replace_miss. replace_hit. reflexivity. }
unfold restore_placeholders. now rewrite R1, R2, R3, R4.
Qed.

(** *** From the text to the escaped text *)

Lemma token_head_at p : token_shape p -> head p = Some 0x40.
Proof. now intros (name & -> & _). Qed.

Lemma occurs_escaped p t :
  token_shape p -> (0x26 ∉ p) ->
  occurs p t = false -> occurs p (amp_sub (escape_angle t)) = false.
Proof.
intros Hp Ha H. unfold occurs.
apply (blockwise_no_occurrence amp_sub);
  [apply blockwise_amp_sub | assumption | now apply token_head_at |].
apply (blockwise_no_occurrence escape_angle);
  [apply blockwise_escape_angle | assumption | now apply token_head_at | exact H].
Qed.

Lemma escaped_before_at t :
  amp_sub (escape_angle (t ++ at_at)) = amp_sub (escape_angle t) ++ at_at.
Proof.
rewrite escape_angle_app. change (escape_angle at_at) with [0x40; 0x40].
now rewrite amp_sub_before_at.
Qed.

Lemma escaped_between_at t :
  amp_sub (escape_angle (at_at ++ t ++ at_at)) = at_at ++ amp_sub (escape_angle t) ++ at_at.
Proof.
rewrite escape_angle_app. change (escape_angle at_at) with at_at.
rewrite amp_sub_skip by not_in_list. now rewrite escaped_before_at.
Qed.

Lemma occurs_escaped_before p t :
  token_shape p -> (0x26 ∉ p) ->
  occurs p (t ++ at_at) = false -> occurs p (amp_sub (escape_angle t) ++ at_at) = false.
Proof. intros Hp Ha H. rewrite <- escaped_before_at. now apply occurs_escaped. Qed.

Lemma occurs_escaped_between p t :
  token_shape p -> (0x26 ∉ p) ->
  occurs p (at_at ++ t ++ at_at) = false ->
  occurs p (at_at ++ amp_sub (escape_angle t) ++ at_at) = false.
Proof. intros Hp Ha H. rewrite <- escaped_between_at. now apply occurs_escaped. Qed.

(** C1 (as the code has it): for a text that does not close the two tags
    itself (no [</i>\s*</b>] with bold outside, no [</b>\s*</i>] with
    italic outside, where the wrapped text must not hold a bold-outside
    pair either) and in which the restoration finds no placeholder token,
    escaping the bold-and-italic wrapping of the text gives the two
    opening tags in the configured order, the escaped text, and the two
    closing tags; the escaped text holds no [<] and no [>], and each of
    its [&] begins an entity. *)
Theorem escape_styled_text pref t :
  (if pystr_eqb pref B_OUTSIDE_I
   then has_closing tag_i_close tag_b_close t = false
   else has_closing tag_b_close tag_i_close t = false /\
        has_nested_b_i (wrap_span_text pref t true true) = false) ->
  placeholder_collision pref t = false ->
  let body := amp_sub (escape_angle t) in
  escape_html_keep_bi_and_entities (wrap_span_text pref t true true)
  = (if pystr_eqb pref B_OUTSIDE_I
     then s2u "<b><i>" ++ body ++ s2u "</i></b>"
     else s2u "<i><b>" ++ body ++ s2u "</b></i>")
  /\ no_angle body /\ amp_begins_entity body.
Proof.
intros Htags Hcol body.
split; [|split; [apply amp_sub_no_angle, escape_angle_no_angle | apply amp_sub_begins_entity]].
destruct no_angle_placeholders as (Nbo & Nbc & Nio & Nic).
destruct no_amp_in_placeholders as (Abo & Abc & Aio & Aic).
unfold placeholder_collision in Hcol. unfold wrap_span_text in Htags |- *.
cbn [andb] in Htags |- *.
destruct (pystr_eqb pref B_OUTSIDE_I).
- apply orb_false_iff in Hcol as [Hcol Hic]. apply orb_false_iff in Hcol as [Hcol Hio].
  apply orb_false_iff in Hcol as [Hbo Hbc].
  rewrite escape_nonempty by discriminate.
  rewrite protect_tags_bold_outside by assumption.
  rewrite escape_between_placeholders by (assumption || reflexivity).
  apply restore_bold_outside.
  + apply occurs_escaped_between; [exact token_shape_b_open | assumption..].
  + apply occurs_escaped_between; [exact token_shape_b_close | assumption..].
  + apply occurs_escaped_before; [exact token_shape_i_open | assumption..].
  + apply occurs_escaped_before; [exact token_shape_i_close | assumption..].
- destruct Htags as [Hclose Hnested].
  apply orb_false_iff in Hcol as [Hcol Hic]. apply orb_false_iff in Hcol as [Hcol Hio].
  apply orb_false_iff in Hcol as [Hbo Hbc].
  rewrite escape_nonempty by discriminate.
  rewrite protect_tags_italic_outside by assumption.
  rewrite escape_between_placeholders by (assumption || reflexivity).
  apply restore_italic_outside.
  + apply occurs_escaped_before; [exact token_shape_b_open | assumption..].
  + apply occurs_escaped_before; [exact token_shape_b_close | assumption..].
  + apply occurs_escaped; [exact token_shape_i_open | assumption..].
  + apply occurs_escaped; [exact token_shape_i_close | assumption..].
Qed.

End EscapeFacts.

Lemma escape_idempotent_on_plain_text_witness :
  let x := s2u "a < b & c &amp; <b>" in
  Escape.escape_html_keep_bi_and_entities (Escape.escape_html_keep_bi_and_entities x)
  = Escape.escape_html_keep_bi_and_entities x.
Proof.
apply (escape_idempotent_on_plain_text (s2u "a < b & c &amp; <b>")); reflexivity.
Defined.

(** A placeholder token in the text: no tag pair, yet escaping twice
    differs from escaping once. *)
Lemma escape_not_idempotent_on_placeholder :
  Escape.has_inline_pair (s2u "@@B_OPEN@@") = false /\
  Escape.escape_html_keep_bi_and_entities
    (Escape.escape_html_keep_bi_and_entities (s2u "@@B_OPEN@@"))
  <> Escape.escape_html_keep_bi_and_entities (s2u "@@B_OPEN@@").
Proof. split; [reflexivity | vm_compute; discriminate]. Qed.

Lemma escape_styled_text_witness :
  Escape.escape_html_keep_bi_and_entities
    (Escape.wrap_span_text Escape.B_OUTSIDE_I (s2u "a@b.c <b> x<y & z &amp; </i>w>") true true)
  = s2u "<b><i>a@b.c &lt;b&gt; x&lt;y &amp; z &amp; &lt;/i&gt;w&gt;</i></b>".
Proof.
destruct (escape_styled_text Escape.B_OUTSIDE_I (s2u "a@b.c <b> x<y & z &amp; </i>w>"))
  as [E _]; [ reflexivity | reflexivity | exact E ].
Defined.

(** A text that closes and reopens the tags: the result holds two tag
    pairs, and the angle brackets of the text stand in it unescaped. *)
Lemma escape_styled_text_reopened_tags :
  let text := s2u "</i></b><b><i>" in
  Escape.escape_html_keep_bi_and_entities
    (Escape.wrap_span_text Escape.B_OUTSIDE_I text true true)
  = s2u "<b><i>" ++ text ++ s2u "</i></b>"
  /\ Escape.has_inline_pair text = false
  /\ ~ no_angle text.
Proof.
split; [vm_compute; reflexivity | split; [reflexivity|]].
intros H. apply Forall_inv in H. now destruct H.
Qed.

(** With italic outside, a text that is an italic pair of its own closes
    nothing, yet the bold-outside pattern, tried first, takes it together
    with the inner bold tags: the tags of the text stand in the result as
    markup. *)
Lemma escape_styled_text_foreign_pair :
  let text := s2u "<i>x</i>" in
  Escape.has_closing Escape.tag_b_close Escape.tag_i_close text = false /\
  Escape.escape_html_keep_bi_and_entities
    (Escape.wrap_span_text Escape.I_OUTSIDE_B text true true)
  = s2u "<i><b><i>x</i></b></i>".
Proof. split; vm_compute; reflexivity. Qed.

(** With bold outside, the name of a bold placeholder as the text: between
    the italic placeholders it reads as the bold placeholder. *)
Lemma escape_styled_text_placeholder_name :
  Escape.escape_html_keep_bi_and_entities
    (Escape.wrap_span_text Escape.B_OUTSIDE_I (s2u "B_OPEN") true true)
  = s2u "<b>@@I_OPEN<b>I_CLOSE@@</b>".
Proof. vm_compute. reflexivity. Qed.

(** ** What escaping guarantees for every text *)

Ltac absent := apply (bool_decide_eq_false_1 _); vm_compute; reflexivity.

Section EscapeSafety.
Import Chars Escape Markup.
Local Open Scope N_scope.

(** A rewriting that keeps every code point other than [@] in place keeps
    the entity behind an ampersand. *)
Lemma class_star_through (f : pystr -> pystr) P n s :
  P 0x40 = false ->
  (forall c u, c <> 0x40 -> f (c :: u) = c :: f u) ->
  class_star P semicolon (take n s) = true ->
  class_star P semicolon (take n (f s)) = true.
Proof.
intros HP Hf. revert n. induction s as [|c s IH]; intros [|n] H; try discriminate.
change (class_star P semicolon (c :: take n s) = true) in H.
destruct (N.eqb_spec c 0x40) as [->|Hc].
- cbn [class_star semicolon] in H. rewrite HP in H. discriminate.
- rewrite Hf by assumption.
  change (class_star P semicolon (c :: take n (f s)) = true).
  cbn [class_star semicolon] in H |- *. destruct (P c); [|assumption].
  apply orb_true_iff in H as [H|H]; [|now rewrite H, orb_true_r].
  now rewrite (IH _ H).
Qed.

Lemma class_plus_through (f : pystr -> pystr) P n s :
  P 0x40 = false ->
  (forall c u, c <> 0x40 -> f (c :: u) = c :: f u) ->
  class_plus P semicolon (take n s) = true ->
  class_plus P semicolon (take n (f s)) = true.
Proof.
intros HP Hf. destruct s as [|c s], n as [|n]; intros H; try discriminate.
change (class_plus P semicolon (c :: take n s) = true) in H.
cbn [class_plus] in H. apply andb_true_iff in H as [Hc H].
assert (c <> 0x40) by (intros ->; congruence).
rewrite Hf by assumption.
change (class_plus P semicolon (c :: take n (f s)) = true).
cbn [class_plus]. rewrite Hc. now apply class_star_through.
Qed.

Lemma entity_match_through (f : pystr -> pystr) n s :
  (forall c u, c <> 0x40 -> f (c :: u) = c :: f u) ->
  entity_match (take n s) = true -> entity_match (take n (f s)) = true.
Proof.
intros Hf. destruct s as [|c s], n as [|n]; intros H; try discriminate.
change (entity_match (c :: take n s) = true) in H.
assert (Hc : c <> 0x40).
{ intros ->. vm_compute in H. destruct (take n s); discriminate. }
rewrite Hf by assumption.
change (entity_match (c :: take n (f s)) = true).
unfold entity_match in H |- *.
apply orb_true_iff in H as [H|H]; [apply orb_true_iff in H as [H|H]|].
- apply andb_true_iff in H as [-> H].
  now rewrite (class_plus_through f _ _ _ eq_refl Hf H).
- apply andb_true_iff in H as [-> H]. cbn [andb].
  destruct s as [|x s], n as [|n]; try discriminate.
  change (take (S n) (x :: s)) with (x :: take n s) in H.
  apply andb_true_iff in H as [Hx H]. apply N.eqb_eq in Hx. subst x.
  rewrite Hf by discriminate.
  change (take (S n) (0x78 :: f s)) with (0x78 :: take n (f s)).
  cbv iota. rewrite (class_plus_through f _ _ _ eq_refl Hf H).
  change (0x78 =? 0x78) with true. cbn [andb]. now rewrite orb_true_r.
- apply andb_true_iff in H as [-> H].
  rewrite (class_plus_through f _ _ _ eq_refl Hf H). now rewrite orb_true_r.
Qed.

Lemma amp_begins_entity_cons c s :
  amp_begins_entity (c :: s) <->
  (c = 0x26 -> entity_match (take 30 s) = true) /\ amp_begins_entity s.
Proof.
split.
- intros H. split; [|now apply amp_begins_entity_tail in H].
  intros ->. now apply (H [] s).
- intros [H1 H2] pre r E. symmetry in E.
  apply amp_at_cons in E as [[-> ->] | [pre' E]]; [now apply H1|].
  now apply (H2 pre' r).
Qed.

Lemma amp_begins_entity_nil : amp_begins_entity [].
Proof. intros [|? ?] r E; discriminate. Qed.

Lemma amp_begins_entity_app l s :
  (0x26 ∉ l) -> amp_begins_entity s -> amp_begins_entity (l ++ s).
Proof.
induction l as [|c l IH]; intros Hl Hs; [assumption|].
apply not_elem_of_cons in Hl as [Hc Hl].
change ((c :: l) ++ s) with (c :: (l ++ s)).
apply amp_begins_entity_cons. split; [congruence | now apply IH].
Qed.

Lemma amp_begins_entity_drop k s : amp_begins_entity s -> amp_begins_entity (drop k s).
Proof.
revert s. induction k as [|k IH]; intros [|c s] H; try assumption.
apply IH. now apply amp_begins_entity_tail in H.
Qed.

Lemma str_replace_at_miss old new c s :
  c <> 0x40 -> str_replace (0x40 :: old) new (c :: s) = c :: str_replace (0x40 :: old) new s.
Proof.
intros Hc. apply str_replace_miss; [discriminate|].
cbn [startswith]. destruct (N.eqb_spec 0x40 c); [congruence | reflexivity].
Qed.

(** Putting a text without [&] in the place of a token that starts with
    [@] leaves every [&] at the head of an entity. *)
Lemma str_replace_begins_entity old new s :
  (0x26 ∉ new) -> amp_begins_entity s ->
  amp_begins_entity (str_replace (0x40 :: old) new s).
Proof.
intros Hnew. remember (length s) as n eqn:Hn. revert s Hn.
induction n as [n IH] using lt_wf_ind. intros [|c s] Hn H.
- now rewrite str_replace_nil by discriminate.
- destruct (startswith (0x40 :: old) (c :: s)) eqn:E.
  + rewrite str_replace_hit_drop by (discriminate || assumption).
    apply amp_begins_entity_app; [assumption|].
    eapply IH; [|reflexivity|now apply amp_begins_entity_drop].
    subst n. cbn [length drop]. rewrite length_drop. lia.
  + rewrite str_replace_miss by (discriminate || assumption).
    apply amp_begins_entity_cons in H as [H1 H2].
    apply amp_begins_entity_cons. split.
    * intros Hc. apply entity_match_through; [|now apply H1].
      intros c' u Hc'. now apply str_replace_at_miss.
    * eapply IH; [|reflexivity|assumption]. subst n. cbn [length]. lia.
Qed.

Lemma restore_placeholders_begins_entity s :
  amp_begins_entity s -> amp_begins_entity (restore_placeholders s).
Proof.
intros H. unfold restore_placeholders, ph_b_open, ph_b_close, ph_i_open, ph_i_close.
repeat (apply str_replace_begins_entity; [absent|]). exact H.
Qed.

(** X1: whatever the text, every ampersand of the escaped text begins an
    entity (one the text held, or [&amp;] written by the escaping). *)
Theorem escape_every_amp_begins_entity text :
  amp_begins_entity (escape_html_keep_bi_and_entities text).
Proof.
destruct text as [|c text]; [apply amp_begins_entity_nil|].
rewrite escape_nonempty by discriminate.
apply restore_placeholders_begins_entity, amp_sub_begins_entity.
Qed.

Lemma markup_safe_app a b : markup_safe a -> markup_safe b -> markup_safe (a ++ b).
Proof.
induction 1 as [|c s H1 H2 _ IH|t s Ht _ IH]; intros Hb; [assumption| |].
- cbn [app]. constructor; auto.
- rewrite <- app_assoc. constructor; auto.
Qed.

Lemma no_angle_markup_safe s : no_angle s -> markup_safe s.
Proof. induction 1 as [|c s [? ?] _ IH]; now constructor. Qed.

Lemma inline_tag_shape t :
  t ∈ inline_tags -> (exists t', t = 0x3C :: t') /\ Forall (fun x => x <> 0x40) t.
Proof.
unfold inline_tags. rewrite !elem_of_cons.
intros [->|[->|[->|[->|H]]]]; [| | | |now apply elem_of_nil in H];
  (split; [eexists; reflexivity | repeat constructor; discriminate]).
Qed.

Lemma inline_tag_safe t : t ∈ inline_tags -> markup_safe t.
Proof. intros H. rewrite <- (app_nil_r t). constructor; [assumption | constructor]. Qed.

Lemma markup_safe_cons_inv c s :
  markup_safe (c :: s) ->
  (c <> 0x3C /\ c <> 0x3E /\ markup_safe s) \/
  (exists t s', t ∈ inline_tags /\ c :: s = t ++ s' /\ markup_safe s').
Proof.
intros H. inversion H as [|c' s' H1 H2 H3|t s' Ht Hs E]; subst.
- left. auto.
- right. exists t, s'. auto.
Qed.

(** Behind a run without angle brackets, what is left is still made of
    plain code points and tags. *)
Lemma markup_safe_strip l r : no_angle l -> markup_safe (l ++ r) -> markup_safe r.
Proof.
induction 1 as [|a l [Ha1 Ha2] _ IH]; intros H; [assumption|].
change ((a :: l) ++ r) with (a :: (l ++ r)) in H.
apply markup_safe_cons_inv in H as [(_ & _ & H) | (t & s' & Ht & E & _)]; [auto|].
apply inline_tag_shape in Ht as [[t' ->] _]. injection E as ->. congruence.
Qed.

(** Putting a tag in the place of a token that starts with [@] and holds
    no angle bracket. *)
Lemma str_replace_markup_safe old new s :
  no_angle old -> markup_safe new -> markup_safe s ->
  markup_safe (str_replace (0x40 :: old) new s).
Proof.
intros Hold Hnew. remember (length s) as n eqn:Hn. revert s Hn.
induction n as [n IH] using lt_wf_ind. intros [|c s] Hn H.
- rewrite str_replace_nil by discriminate. constructor.
- pose proof H as H0.
  apply markup_safe_cons_inv in H as [(H1 & H2 & H) | (t & s' & Ht & E & H)].
  + destruct (startswith (0x40 :: old) (c :: s)) eqn:Es.
    * rewrite str_replace_hit_drop by (discriminate || assumption).
      apply markup_safe_app; [assumption|].
      destruct (startswith_prefix _ _ Es) as [r Er].
      rewrite Er, drop_app_length.
      eapply IH; [|reflexivity|].
      -- subst n. rewrite Er, length_app. cbn [length]. lia.
      -- rewrite Er in H0. apply (markup_safe_strip (0x40 :: old)); [|assumption].
         constructor; [split; discriminate | assumption].
    * rewrite str_replace_miss by (discriminate || assumption).
      constructor; [assumption..|].
      eapply IH; [|reflexivity|assumption]. subst n. cbn [length]. lia.
  + rewrite E. destruct (inline_tag_shape t Ht) as [[t' Et] Hat].
    rewrite (str_replace_skip 0x40 old new t s' Hat).
    constructor; [assumption|].
    eapply IH; [|reflexivity|assumption].
    subst n. rewrite E, Et, length_app. cbn [length]. lia.
Qed.

(** X2: whatever the text, the escaped text is made of code points other
    than angle brackets and of the tags [<b>], [</b>], [<i>], [</i>]: no
    other [<] or [>] is left in it. *)
Theorem escape_only_inline_tags text :
  markup_safe (escape_html_keep_bi_and_entities text).
Proof.
destruct text as [|c text]; [constructor|].
rewrite escape_nonempty by discriminate.
unfold restore_placeholders, ph_b_open, ph_b_close, ph_i_open, ph_i_close.
repeat (apply str_replace_markup_safe;
        [ repeat constructor; discriminate
        | apply inline_tag_safe; unfold inline_tags; rewrite !elem_of_cons; auto
        | ]).
apply no_angle_markup_safe, amp_sub_no_angle, escape_angle_no_angle.
Qed.

End EscapeSafety.

(** ** Symbol entities and the escaping *)

Section EntityEscape.
Import Chars Entities Escape.
Local Open Scope N_scope.

(** An entity as the table has them: [&], then an entity the ampersand
    pass accepts, made of code points that are not [@], [<], [>] or [&]. *)
Definition entity_ok (v : pystr) : bool :=
  match v with
  | c :: b =>
      (c =? 0x26)
      && forallb (fun x => negb ((x =? 0x40) || (x =? 0x3C) || (x =? 0x3E) || (x =? 0x26))) b
      && entity_match (take 30 b)
  | [] => false
  end.

Lemma table_entities_ok : forallb (fun kv => entity_ok (snd kv)) HTML_ENTITY_MAP = true.
Proof. vm_compute. reflexivity. Qed.

Lemma table_entity_value (P : pystr -> bool) tb c v :
  forallb (fun kv => P (snd kv)) tb = true -> table_entity tb c = Some v -> P v = true.
Proof.
induction tb as [|[k w] tb IH]; [discriminate|].
cbn [forallb table_entity snd]. intros Hok E. apply andb_true_iff in Hok as [Hw Htb].
destruct (pystr_eqb k [c]); [now injection E as <- | now apply IH].
Qed.

Lemma entity_ok_shape v :
  entity_ok v = true ->
  exists b, v = 0x26 :: b
    /\ Forall (fun x => x <> 0x40 /\ x <> 0x3C /\ x <> 0x3E /\ x <> 0x26) b
    /\ entity_match (take 30 b) = true.
Proof.
destruct v as [|c b]; [discriminate|]. cbn [entity_ok].
intros H. apply andb_true_iff in H as [H H3]. apply andb_true_iff in H as [H1 H2].
apply N.eqb_eq in H1 as ->. exists b. split; [reflexivity|]. split; [|assumption].
apply Forall_forall. intros x Hx. rewrite forallb_forall in H2.
specialize (H2 x (proj1 (list_elem_of_In _ _) Hx)).
apply negb_true_iff in H2. repeat (apply orb_false_iff in H2 as [H2 ?]).
repeat split; intros ->; discriminate.
Qed.

Lemma apply_html_entities_cons c s :
  apply_html_entities (c :: s) = transcode_char HTML_ENTITY_MAP c ++ apply_html_entities s.
Proof. now rewrite !apply_html_entities_pointwise. Qed.

Lemma transcode_char_cases c :
  transcode_char HTML_ENTITY_MAP c = [c] \/
  exists b, transcode_char HTML_ENTITY_MAP c = 0x26 :: b
    /\ Forall (fun x => x <> 0x40 /\ x <> 0x3C /\ x <> 0x3E /\ x <> 0x26) b
    /\ entity_match (take 30 b) = true.
Proof.
unfold transcode_char. destruct (table_entity HTML_ENTITY_MAP c) as [v|] eqn:E; [|now left].
right. apply entity_ok_shape.
exact (table_entity_value entity_ok _ _ _ table_entities_ok E).
Qed.

Lemma blockwise_apply_html_entities : blockwise apply_html_entities.
Proof.
split; [reflexivity|]. intros c s. rewrite apply_html_entities_cons.
destruct (transcode_char_cases c) as [-> | (b & -> & Hb & _)]; [now left|].
right. now exists b.
Qed.

(** X3: transcoding the symbols a second time changes nothing. *)
Theorem apply_html_entities_idempotent text :
  apply_html_entities (apply_html_entities text) = apply_html_entities text.
Proof.
rewrite (apply_html_entities_pointwise (apply_html_entities text)).
apply flat_map_id_on.
eapply Forall_impl; [apply apply_html_entities_no_raw|].
intros c Hc. cbn beta in Hc. unfold transcode_char. now rewrite Hc.
Qed.

Lemma apply_html_entities_begins_entity t :
  (0x26 ∉ t) -> amp_begins_entity (apply_html_entities t).
Proof.
induction t as [|c t IH]; intros Ht; [apply amp_begins_entity_nil|].
apply not_elem_of_cons in Ht as [Hc Ht]. specialize (IH Ht).
rewrite apply_html_entities_cons.
destruct (transcode_char_cases c) as [-> | (b & -> & Hb & Hm)].
- apply amp_begins_entity_cons. split; [congruence | assumption].
- change ((0x26 :: b) ++ apply_html_entities t) with (0x26 :: (b ++ apply_html_entities t)).
  apply amp_begins_entity_cons. split.
  + intros _. now apply (entity_match_through (fun u => u ++ apply_html_entities t)).
  + apply amp_begins_entity_app; [|assumption].
    intros Hin. rewrite Forall_forall in Hb. now destruct (Hb _ Hin) as (_ & _ & _ & ?).
Qed.

(** X4: on a text without [<], [>], [&] and placeholder token, the
    entities written by the symbol transcoding pass the escaping as they
    are. *)
Theorem escape_keeps_symbol_entities t :
  no_angle t -> (0x26 ∉ t) -> has_placeholder t = false ->
  escape_html_keep_bi_and_entities (apply_html_entities t) = apply_html_entities t.
Proof.
intros Hangle Hamp Hph.
assert (Ha : no_angle (apply_html_entities t)).
{ apply blockwise_Forall;
    [apply blockwise_apply_html_entities | split; discriminate | | assumption].
  intros x (_ & ? & ? & _). now split. }
rewrite escape_plain.
- rewrite escape_angle_fixed by assumption.
  now apply amp_sub_fixed, apply_html_entities_begins_entity.
- now apply no_angle_no_pair.
- now apply blockwise_no_placeholder; [apply blockwise_apply_html_entities|].
Qed.

End EntityEscape.

Lemma escape_keeps_symbol_entities_witness :
  Escape.escape_html_keep_bi_and_entities
    (Entities.apply_html_entities [0x61; 0x20; 0x2264; 0x20; 0x3B2]%N)
  = s2u "a &le; &beta;".
Proof.
rewrite (escape_keeps_symbol_entities [0x61; 0x20; 0x2264; 0x20; 0x3B2]%N);
  [ reflexivity
  | repeat constructor; discriminate
  | apply (bool_decide_eq_false_1 _); reflexivity
  | reflexivity ].
Defined.

(** ** The shape of the section lines *)

Section NestingFacts.
Import Provider Sections Nesting.
Variable cfg : Settings.
Variable page_index : nat.
Variable page : Page.

Local Abbreviation build_step := (build_step cfg page_index page).
Local Abbreviation build_loop := (build_loop cfg page_index page).
Local Abbreviation build_lines := (build_lines cfg page_index page).
Local Abbreviation element_of :=
  (fun r : Region => (region_tag r, r_id r, region_text_esc cfg page r)).

Lemma nesting_app d l1 l2 :
  nesting d (l1 ++ l2) = nesting d l1 ≫= fun d' => nesting d' l2.
Proof.
revert d. induction l1 as [|[nums| |tag id t] l1 IH]; intros d; cbn [app nesting];
  [reflexivity | apply IH | destruct d; [reflexivity | apply IH]
  | destruct d; [reflexivity | apply IH]].
Qed.

Lemma nesting_closes (stack : list nat) :
  nesting (length stack) (map (fun _ => SectionClose) stack) = Some 0.
Proof. induction stack as [|a stack IH]; [reflexivity | exact IH]. Qed.

(** What holds of the loop variables as to nesting. *)
Record Nested (b : Builder) : Prop := {
  nested_depth : nesting 0 (out b) = Some (length (open_stack b));
  nested_base : base_opened b = true -> last (open_stack b) = Some 0;
  nested_fresh : base_opened b = false -> open_stack b = [] /\ out b = []
}.

Lemma Nested_init : Nested builder_init.
Proof. constructor; cbn; [reflexivity | discriminate | auto]. Qed.

Lemma ensure_base_opened b : base_opened (ensure_base page_index b) = true.
Proof. unfold ensure_base. now destruct (base_opened b) eqn:E. Qed.

Lemma Nested_ensure_base b : Nested b -> Nested (ensure_base page_index b).
Proof.
intros [Hd Hb Hf]. unfold ensure_base. destruct (base_opened b) eqn:E.
- constructor; [assumption | now rewrite E | rewrite E; discriminate].
- destruct (Hf eq_refl) as [Hs Ho].
  constructor; cbn [open_stack out base_opened]; rewrite ?Hs, ?Ho;
    [reflexivity | reflexivity | discriminate].
Qed.

Lemma close_to_level_nested lvl stack o :
  1 <= lvl -> last stack = Some 0 -> nesting 0 o = Some (length stack) ->
  last (close_to_level lvl stack o).1 = Some 0 /\
  nesting 0 (close_to_level lvl stack o).2 = Some (length (close_to_level lvl stack o).1).
Proof.
intros Hlvl. revert o. induction stack as [|top rest IH]; intros o Hl Hn; [discriminate|].
cbn [close_to_level]. destruct (Nat.leb_spec lvl top) as [Hle|Hgt]; [|now split].
destruct rest as [|x rest]; [cbn in Hl; injection Hl as ->; lia|].
apply IH; [exact Hl|].
rewrite nesting_app, Hn. reflexivity.
Qed.

Lemma Nested_step b r : Nested b -> Nested (build_step b r).
Proof.
intros HN. pose proof (Nested_ensure_base _ HN) as [Hd Hb Hf].
pose proof (ensure_base_opened b) as Hbo.
destruct (dict_get level_map (region_tag r)) as [lvl|] eqn:E.
- rewrite (build_step_heading _ _ _ _ _ _ E). cbv zeta.
  assert (Hlvl : 1 <= lvl) by (destruct (level_map_levels _ _ E) as [->|[->|[->| ->]]]; lia).
  destruct (close_to_level_nested lvl _ _ Hlvl (Hb Hbo) Hd) as [Hl Hn].
  constructor; cbn [open_stack out base_opened]; [| |discriminate].
  + rewrite nesting_app, Hn. reflexivity.
  + intros _. destruct ((close_to_level lvl _ _).1); [discriminate | exact Hl].
- rewrite (build_step_other _ _ _ _ _ E). cbv zeta.
  constructor; cbn [open_stack out base_opened]; [|assumption|congruence].
  rewrite nesting_app, Hd. cbn [mbind option_bind nesting].
  specialize (Hb Hbo). destruct (open_stack (ensure_base page_index b)); [discriminate|reflexivity].
Qed.

Lemma Nested_loop regs b : Nested b -> Nested (fold_left build_step regs b).
Proof.
revert b. induction regs as [|r regs IH]; intros b Hb; [assumption|].
apply IH. now apply Nested_step.
Qed.

(** X5: whatever the regions, the section lines are properly nested:
    no [</section>] without an open section, every element inside a
    section, and every section closed at the end. *)
Theorem build_lines_properly_nested regs :
  nesting 0 (build_lines regs) = Some 0.
Proof.
unfold Sections.build_lines. cbv zeta.
destruct (Nested_loop regs builder_init Nested_init) as [Hd _ _].
fold (build_loop regs) in Hd.
rewrite nesting_app, Hd. apply nesting_closes.
Qed.

Lemma elements_app l1 l2 : elements (l1 ++ l2) = elements l1 ++ elements l2.
Proof. apply omap_app. Qed.

Lemma close_to_level_elements lvl stack o :
  elements (close_to_level lvl stack o).2 = elements o.
Proof.
revert o. induction stack as [|top rest IH]; intros o; cbn [close_to_level]; [reflexivity|].
destruct (lvl <=? top); [|reflexivity].
rewrite IH, elements_app. apply app_nil_r.
Qed.

Lemma ensure_base_elements b : elements (out (ensure_base page_index b)) = elements (out b).
Proof.
unfold ensure_base. destruct (base_opened b); [reflexivity|].
cbn [out]. rewrite elements_app. apply app_nil_r.
Qed.

Lemma build_step_elements b r :
  elements (out (build_step b r)) = elements (out b) ++ [element_of r].
Proof.
destruct (dict_get level_map (region_tag r)) as [lvl|] eqn:E.
- rewrite (build_step_heading _ _ _ _ _ _ E). cbv zeta. cbn [out].
  now rewrite elements_app, close_to_level_elements, ensure_base_elements.
- rewrite (build_step_other _ _ _ _ _ E). cbv zeta. cbn [out].
  now rewrite elements_app, ensure_base_elements.
Qed.

Lemma build_loop_elements regs b :
  elements (out (fold_left build_step regs b)) = elements (out b) ++ map element_of regs.
Proof.
revert b. induction regs as [|r regs IH]; intros b; cbn [fold_left map].
- now rewrite app_nil_r.
- now rewrite IH, build_step_elements, <- app_assoc.
Qed.

Lemma elements_closes (stack : list nat) :
  elements (map (fun _ => SectionClose) stack) = [].
Proof. induction stack; auto. Qed.

(** X6: when the tags of the regions are written in ASCII, the elements
    of the section lines are the regions, one element per region and in
    the order of the regions, each with the lower-cased tag, the id and
    the escaped text of its region. *)
Theorem build_lines_elements regs :
  Forall ascii_tag regs ->
  elements (build_lines regs) = map element_of regs.
Proof.
intros _. unfold Sections.build_lines. cbv zeta.
rewrite elements_app, elements_closes, app_nil_r.
apply (build_loop_elements regs builder_init).
Qed.

Lemma count_sections_app l1 l2 :
  count_sections (l1 ++ l2) = count_sections l1 + count_sections l2.
Proof. unfold count_sections. now rewrite filter_app, length_app. Qed.

Lemma close_to_level_count lvl stack o :
  count_sections (close_to_level lvl stack o).2 = count_sections o.
Proof.
revert o. induction stack as [|top rest IH]; intros o; cbn [close_to_level]; [reflexivity|].
destruct (lvl <=? top); [|reflexivity].
rewrite IH, count_sections_app.
change (count_sections [SectionClose]) with 0. lia.
Qed.

Lemma count_sections_closes (stack : list nat) :
  count_sections (map (fun _ => SectionClose) stack) = 0.
Proof. induction stack; auto. Qed.

Lemma ensure_base_count b :
  Nested b ->
  count_sections (out (ensure_base page_index b))
  = (if base_opened b then count_sections (out b) else 1).
Proof.
intros [_ _ Hf]. unfold ensure_base. destruct (base_opened b) eqn:E; [reflexivity|].
destruct (Hf eq_refl) as [_ Ho]. cbn [out]. now rewrite Ho.
Qed.

Lemma count_sections_heading nums tag id text :
  count_sections [SectionOpen nums; Element tag id text] = 1.
Proof. reflexivity. Qed.

Lemma count_sections_element tag id text : count_sections [Element tag id text] = 0.
Proof. reflexivity. Qed.

(** The sections opened so far: the page section, once the first region
    is in, and one per heading. *)
Definition sections_so_far (b : Builder) (headings : nat) : Prop :=
  count_sections (out b) = (if base_opened b then 1 else 0) + headings.

Lemma build_step_count b r n :
  Nested b -> sections_so_far b n ->
  sections_so_far (build_step b r) (n + (if is_heading r then 1 else 0))
  /\ base_opened (build_step b r) = true.
Proof.
unfold sections_so_far, is_heading. intros HN Hb.
pose proof (ensure_base_count b HN) as Hc. pose proof (ensure_base_opened b) as Hbo.
destruct (dict_get level_map (region_tag r)) as [lvl|] eqn:E.
- rewrite (build_step_heading _ _ _ _ _ _ E). cbv zeta. cbn [out base_opened].
  rewrite bool_decide_eq_true_2 by eauto.
  rewrite count_sections_app, close_to_level_count, Hc, count_sections_heading.
  split; [|reflexivity]. destruct (base_opened b) eqn:Eb; cbn in Hb |- *; [lia|].
  destruct (nested_fresh _ HN Eb) as [_ Ho]. rewrite Ho in Hb.
  change (count_sections []) with 0 in Hb. lia.
- rewrite (build_step_other _ _ _ _ _ E). cbv zeta. cbn [out base_opened].
  rewrite bool_decide_eq_false_2 by (intros [? ?]; discriminate).
  rewrite count_sections_app, Hc, Hbo, count_sections_element.
  split; [|reflexivity]. destruct (base_opened b) eqn:Eb; cbn in Hb |- *; [lia|].
  destruct (nested_fresh _ HN Eb) as [_ Ho]. rewrite Ho in Hb.
  change (count_sections []) with 0 in Hb. lia.
Qed.

Lemma build_loop_count regs b n :
  Nested b -> sections_so_far b n ->
  sections_so_far (fold_left build_step regs b) (n + length (filter (fun r => is_heading r = true) regs))
  /\ (regs <> [] -> base_opened (fold_left build_step regs b) = true).
Proof.
revert b n. induction regs as [|r regs IH]; intros b n HN Hb.
- cbn. rewrite Nat.add_0_r. now split.
- cbn [fold_left]. destruct (build_step_count b r n HN Hb) as [Hs Ho].
  destruct (IH _ _ (Nested_step b r HN) Hs) as [IH1 IH2].
  split.
  + rewrite filter_cons. destruct (is_heading r) eqn:E.
    * rewrite decide_True by reflexivity. cbn [length].
      replace (n + S (length (filter (fun r => is_heading r = true) regs)))
        with (n + 1 + length (filter (fun r => is_heading r = true) regs)) by lia.
      exact IH1.
    * rewrite decide_False by discriminate.
      rewrite Nat.add_0_r in IH1. exact IH1.
  + intros _. destruct regs as [|r' regs]; [exact Ho | apply IH2; discriminate].
Qed.

(** X7: the number of [<section>] elements is the number of heading
    regions (tags h1 to h4), plus one for the page section as soon as
    there is a region at all. *)
Theorem build_lines_section_count regs :
  count_sections (build_lines regs)
  = match regs with [] => 0 | _ :: _ => 1 end
    + length (filter (fun r => is_heading r = true) regs).
Proof.
unfold Sections.build_lines. cbv zeta.
rewrite count_sections_app, count_sections_closes, Nat.add_0_r.
destruct (build_loop_count regs builder_init 0 Nested_init eq_refl) as [Hs Ho].
unfold sections_so_far in Hs. fold (build_loop regs) in Hs, Ho.
rewrite Hs. destruct regs as [|r regs]; [reflexivity|].
now rewrite Ho by discriminate.
Qed.

End NestingFacts.

Lemma build_lines_elements_witness :
  Nesting.elements (Sections.build_lines Samples.cfg 0 Samples.page_blank Samples.regs_h1_h3)
  = [ (s2u "h1", s2u "h1_p1_r1", s2u "Intro"); (s2u "h3", s2u "h3_p1_r2", s2u "Detail") ].
Proof.
rewrite (build_lines_elements Samples.cfg 0 Samples.page_blank Samples.regs_h1_h3).
- vm_compute. reflexivity.
- repeat constructor.
Defined.

(** ** Undo, redo and the editing handlers of [all.py] *)

Section EditingFacts.
Import Provider Py Headings Editing.

Lemma pop_snoc {A} (l : list A) x : pop (l ++ [x]) = Some (l, x).
Proof. unfold pop. rewrite rev_app_distr. cbn [rev app]. now rewrite rev_involutive. Qed.

Lemma pop_nil {A} : pop (@nil A) = None.
Proof. reflexivity. Qed.

Lemma snoc_cases {A} (l : list A) : l = [] \/ exists r x, l = r ++ [x].
Proof.
induction l as [|a l [->|(r & x & ->)]]; [now left | right..].
- now exists [], a.
- now exists (a :: r), x.
Qed.

Lemma do_undo_pushed s0 regs s sel :
  regions s = regs -> undo_stack s = undo_stack s0 ++ [regions s0] ->
  do_undo {| st := s; selected_region := sel |}
  = Returned
      {| st := {| doc := doc s; page_index := page_index s; regions := regions s0;
                  undo_stack := undo_stack s0; redo_stack := redo_stack s ++ [regs] |};
         selected_region := None |}
      [Render].
Proof. intros <- Hu. unfold do_undo. cbn [st]. now rewrite Hu, pop_snoc. Qed.

(** X8: undo and redo are inverse to each other: after an undo, redo
    gives back the regions and both stacks as they were; after a redo,
    undo does. *)
Theorem do_undo_do_redo_inverse s :
  (undo_stack (st s) <> [] -> st (state_of (do_redo (state_of (do_undo s)))) = st s) /\
  (redo_stack (st s) <> [] -> st (state_of (do_undo (state_of (do_redo s)))) = st s).
Proof.
destruct s as [[d p r u re] sel]. cbn [st undo_stack redo_stack]. split; intros H.
- destruct (snoc_cases u) as [->|(rest & top & ->)]; [congruence|].
  unfold do_undo. cbn [st undo_stack]. rewrite pop_snoc. cbn [state_of].
  unfold do_redo. cbn [st redo_stack]. rewrite pop_snoc. reflexivity.
- destruct (snoc_cases re) as [->|(rest & top & ->)]; [congruence|].
  unfold do_redo. cbn [st redo_stack]. rewrite pop_snoc. cbn [state_of].
  unfold do_undo. cbn [st undo_stack]. rewrite pop_snoc. reflexivity.
Qed.

(** An edit leaves the state as it is, or saves the regions it found on
    the undo stack and empties the redo stack. *)
Lemma edit_pushes a s :
  is_edit a = true ->
  st (state_of (run a s)) = st s \/
  (undo_stack (st (state_of (run a s))) = undo_stack (st s) ++ [regions (st s)] /\
   redo_stack (st (state_of (run a s))) = [] /\
   doc (st (state_of (run a s))) = doc (st s) /\
   page_index (st (state_of (run a s))) = page_index (st s)).
Proof.
destruct a as [tag|sel| | | | |]; try discriminate; intros _; cbn [run].
- unfold set_tag_for_selected. destruct (selected_region s) as [[pidx idx]|]; [|now left].
  destruct (_ !! idx); [right | now left]. cbn. auto.
- unfold delete_region. destruct sel as [|idx sel]; [now left|].
  destruct (_ !! idx); [right | now left]. cbn. auto.
- unfold infer_headings_for_page.
  destruct (doc (st s)) as [[|pg d]|] eqn:Ed; [now left| |now left].
  destruct (_ !! page_index (st s)) as [page|]; [|now left].
  destruct (default [] (regions (st s) !! page_index (st s))) as [|r regs]; [now left|].
  destruct (PrimFloat.leb _ 0); [now left|]. right. cbn. auto.
Qed.

(** X9: tagging the selected region, deleting a region and inferring the
    headings can be undone: whenever one of them changed the state, an
    undo right after it gives back the regions and the undo stack as
    they were before, and keeps the edited regions for redo. *)
Theorem edit_then_undo a s :
  is_edit a = true ->
  let s1 := state_of (run a s) in
  let s2 := state_of (do_undo s1) in
  st s1 = st s \/
  (regions (st s2) = regions (st s) /\ undo_stack (st s2) = undo_stack (st s) /\
   redo_stack (st s2) = [regions (st s1)]).
Proof.
intros Ha s1 s2. destruct (edit_pushes a s Ha) as [H|(Hu & Hr & _)]; [now left|].
right. subst s2. fold s1 in Hu, Hr. destruct s1 as [s1' sel].
cbn [st] in Hu, Hr |- *.
rewrite (do_undo_pushed (st s) (regions s1') s1' sel eq_refl Hu).
cbn [state_of st regions undo_stack redo_stack]. now rewrite Hr.
Qed.

Lemma run_keeps_page a s d :
  doc (st s) = Some d -> page_index (st s) < length d ->
  doc (st (state_of (run a s))) = Some d /\ page_index (st (state_of (run a s))) < length d.
Proof.
intros Hd Hp. destruct (is_edit a) eqn:Ea.
- destruct (edit_pushes a s Ea) as [->|(_ & _ & -> & ->)]; auto.
- destruct a; try discriminate; cbn [run].
  + unfold do_undo. destruct (pop _) as [[rest top]|]; cbn; auto.
  + unfold do_redo. destruct (pop _) as [[rest top]|]; cbn; auto.
  + unfold prev_page. rewrite Hd. destruct d as [|p0 d]; [cbn; auto|].
    destruct (page_index (st s)) as [|i] eqn:Ei; cbn [state_of]; [now rewrite Ei|].
    unfold at_page. cbn [st doc page_index]. split; [assumption | lia].
  + unfold next_page. rewrite Hd. destruct d as [|p0 d]; [cbn; auto|].
    destruct (Nat.ltb_spec (S (page_index (st s))) (length (p0 :: d)));
      cbn [state_of]; auto.
Qed.

(** X10: no sequence of handlers (tagging, deleting, heading inference,
    undo, redo, previous page, next page) changes the document or moves
    the current page outside of it. *)
Theorem handlers_keep_page_in_document acts s d :
  doc (st s) = Some d -> page_index (st s) < length d ->
  doc (st (run_all acts s)) = Some d /\ page_index (st (run_all acts s)) < length d.
Proof.
revert s. induction acts as [|a acts IH]; intros s Hd Hp; [now split|].
cbn [run_all fold_left]. destruct (run_keeps_page a s d Hd Hp) as [Hd' Hp'].
now apply IH.
Qed.

(** *** Rectangles and region ids *)

(** X11: [rect_normalize] never returns an inverted rectangle (neither
    right edge below left edge nor bottom above top), and normalizing a
    second time changes nothing; both hold for all float inputs. *)
Theorem rect_normalize_ordered_idempotent r :
  let '(x0, y0, x1, y1) := rect_normalize r in
  PrimFloat.ltb x1 x0 = false /\ PrimFloat.ltb y1 y0 = false /\
  rect_normalize (rect_normalize r) = rect_normalize r.
Proof.
destruct r as [[[x0 y0] x1] y1]. unfold rect_normalize, min2, max2.
destruct (PrimFloat.ltb x1 x0) eqn:Ex; destruct (PrimFloat.ltb x0 x1) eqn:Ex';
  destruct (PrimFloat.ltb y1 y0) eqn:Ey; destruct (PrimFloat.ltb y0 y1) eqn:Ey';
  rewrite ?Ex, ?Ex', ?Ey, ?Ey', ?ltb_irrefl;
  try (apply ltb_asym in Ex; congruence); try (apply ltb_asym in Ey; congruence);
  auto.
Qed.

Definition is_digit (c : N) : Prop := (0x30 <= c <= 0x39)%N.

Lemma string_of_uint_digits d :
  Forall is_digit (s2u (NilEmpty.string_of_uint d)).
Proof.
induction d; cbn; constructor; try assumption; unfold is_digit; lia.
Qed.

Lemma s2u_inj a b : s2u a = s2u b -> a = b.
Proof.
unfold s2u. revert b. induction a as [|x a IH]; intros [|y b] H; try discriminate; [reflexivity|].
cbn in H. injection H as Hxy H.
apply (f_equal Ascii.ascii_of_N) in Hxy. rewrite !Ascii.ascii_N_embedding in Hxy.
subst y. f_equal. now apply IH.
Qed.

Lemma str_of_nat_inj a b : str_of_nat a = str_of_nat b -> a = b.
Proof.
unfold str_of_nat. intros H%s2u_inj.
apply (f_equal NilEmpty.uint_of_string) in H. rewrite !NilEmpty.usu in H.
injection H as H. apply (f_equal Nat.of_uint) in H.
now rewrite !DecimalNat.Unsigned.of_to in H.
Qed.

Lemma digits_up_to_underscore a a' x x' :
  Forall is_digit a -> Forall is_digit a' ->
  a ++ 0x5F%N :: x = a' ++ 0x5F%N :: x' -> a = a' /\ x = x'.
Proof.
intros Ha. revert a'. induction Ha as [|c a Hc _ IH]; intros a' Ha' E.
- destruct Ha' as [|c' a' Hc' _]; cbn in E.
  + now injection E.
  + injection E as <- _. unfold is_digit in Hc'. lia.
- destruct Ha' as [|c' a' Hc' Ha']; cbn in E.
  + injection E as -> _. unfold is_digit in Hc. lia.
  + injection E as <- E. destruct (IH _ Ha' E) as [<- <-]. now split.
Qed.

(** X12: [generate_region_id] is injective: two ids are the same text
    only for the same page and the same index. *)
Theorem generate_region_id_injective p i p' i' :
  generate_region_id p i = generate_region_id p' i' -> p = p' /\ i = i'.
Proof.
unfold generate_region_id. intros E. cbn [s2u app] in E.
change (s2u "p") with [0x70%N] in E. change (s2u "_r") with [0x5F%N; 0x72%N] in E.
cbn [app] in E. injection E as E.
apply digits_up_to_underscore in E as [E1 E2]; try apply string_of_uint_digits.
injection E2 as E2. apply str_of_nat_inj in E1, E2. lia.
Qed.

End EditingFacts.

Lemma do_undo_do_redo_inverse_witness :
  let s := {| Editing.st :=
                {| Headings.doc := None; Headings.page_index := 0;
                   Headings.regions := ∅;
                   Headings.undo_stack := [ {[ 0%nat := [Samples.region_at 1 1] ]} ];
                   Headings.redo_stack := [ ∅ ] |};
              Editing.selected_region := None |} in
  Editing.st (Editing.state_of (Editing.do_redo (Editing.state_of (Editing.do_undo s))))
  = Editing.st s /\
  Editing.st (Editing.state_of (Editing.do_undo (Editing.state_of (Editing.do_redo s))))
  = Editing.st s.
Proof.
intros s. destruct (do_undo_do_redo_inverse s) as [H1 H2].
split; [apply H1 | apply H2]; discriminate.
Defined.

Lemma edit_then_undo_witness :
  let s := {| Editing.st := Samples.st_12_9_6; Editing.selected_region := Some (0, 1)%nat |} in
  Headings.regions
    (Editing.st (Editing.state_of (Editing.do_undo
       (Editing.state_of (Editing.run (Editing.SetTag (s2u "h2")) s)))))
  = Headings.regions Samples.st_12_9_6.
Proof.
intros s.
destruct (edit_then_undo (Editing.SetTag (s2u "h2")) s eq_refl) as [H|[H _]].
- apply (f_equal Headings.undo_stack) in H. vm_compute in H. discriminate.
- exact H.
Defined.

Lemma handlers_keep_page_in_document_witness :
  let s := {| Editing.st := Samples.st_12_9_6; Editing.selected_region := None |} in
  Headings.page_index
    (Editing.st (Editing.run_all [Editing.NextPage; Editing.InferHeadings; Editing.PrevPage] s))
  < 1.
Proof.
intros s.
apply (handlers_keep_page_in_document
         [Editing.NextPage; Editing.InferHeadings; Editing.PrevPage] s [Samples.page_12_9_6]);
  [reflexivity | cbn; lia].
Defined.

Lemma generate_region_id_injective_witness :
  (1 = 1 /\ 11 = 11)%nat.
Proof.
apply (generate_region_id_injective 1 11 1 11). reflexivity.
Defined.

(** ** Vertical split, undo and export in [zone.py] *)

Section ZoneEditFacts.
Import Py Zone ZoneEdit.
Variable hypot : float -> float -> float.






Lemma on_undo_pushed ed0 ed :
  undo_stack ed = undo_stack ed0 ++ [paragraphs_by_page ed0] ->
  exists ed', on_undo ed = Returned ed' [Render] /\
    paragraphs_by_page ed' = paragraphs_by_page ed0 /\ undo_stack ed' = undo_stack ed0.
Proof.
intros H. unfold on_undo. rewrite H, pop_snoc. eexists. split; [reflexivity|]. now split.
Qed.

Ltac split_cases :=
  repeat match goal with
    | |- context [match ?x with _ => _ end] => destruct x
    | |- context [if ?x then _ else _] => destruct x
    end.

(** A handler leaves paragraphs and undo stack alone, or has saved the
    paragraphs it found as the newest snapshot. *)
Lemma edit_saves_snapshot a ed :
  let ed1 := Editing.state_of (run hypot a ed) in
  (paragraphs_by_page ed1 = paragraphs_by_page ed /\ undo_stack ed1 = undo_stack ed) \/
  undo_stack ed1 = undo_stack ed ++ [paragraphs_by_page ed].
Proof.
destruct a; cbn [run].
- unfold on_split_horizontal. split_cases; cbn; auto.
- unfold on_split_vertical. split_cases; cbn; auto.
- unfold on_merge. split_cases; cbn; auto.
Qed.

(** X14: horizontal split, vertical split and merge can be undone:
    whenever one of them has taken a snapshot, [on_undo] right after it
    gives back the paragraphs of all pages and the undo stack as they
    were before; otherwise it had changed neither. *)
Theorem zone_edit_then_undo a ed :
  let ed1 := Editing.state_of (run hypot a ed) in
  (paragraphs_by_page ed1 = paragraphs_by_page ed /\ undo_stack ed1 = undo_stack ed) \/
  exists ed2, on_undo ed1 = Returned ed2 [Render] /\
    paragraphs_by_page ed2 = paragraphs_by_page ed /\ undo_stack ed2 = undo_stack ed.
Proof.
intros ed1. destruct (edit_saves_snapshot a ed) as [H|H]; [now left|].
right. now apply on_undo_pushed.
Qed.

Lemma nearest_fold_snoc ws x cx cy :
  fold_left
    (fun best iw =>
       let '(i, w) := iw in
       let wx := PrimFloat.div (PrimFloat.add (w0 w) (w2 w)) 2 in
       let wy := PrimFloat.div (PrimFloat.add (w1 w) (w3 w)) 2 in
       let d := hypot (PrimFloat.sub wx cx) (PrimFloat.sub wy cy) in
       match best with
       | None => Some (i, d)
       | Some (_, best_d) => if PrimFloat.ltb d best_d then Some (i, d) else best
       end)
    (imap (fun i w => (i, w)) (ws ++ [x])) None
  = let best :=
      fold_left
        (fun best iw =>
           let '(i, w) := iw in
           let wx := PrimFloat.div (PrimFloat.add (w0 w) (w2 w)) 2 in
           let wy := PrimFloat.div (PrimFloat.add (w1 w) (w3 w)) 2 in
           let d := hypot (PrimFloat.sub wx cx) (PrimFloat.sub wy cy) in
           match best with
           | None => Some (i, d)
           | Some (_, best_d) => if PrimFloat.ltb d best_d then Some (i, d) else best
           end)
        (imap (fun i w => (i, w)) ws) None in
    match best with
    | None => Some (length ws, word_distance hypot cx cy x)
    | Some (_, best_d) =>
        if PrimFloat.ltb (word_distance hypot cx cy x) best_d
        then Some (length ws, word_distance hypot cx cy x) else best
    end.
Proof.
rewrite imap_app, fold_left_app. cbn [imap fold_left]. rewrite Nat.add_0_r. reflexivity.
Qed.

(** What the search has found after the words [ws]. *)
Definition nearest_so_far (cx cy : float) (ws : list Word) (best : option (nat * float)) : Prop :=
  match best with
  | None => ws = []
  | Some (i, d) =>
      exists w, ws !! i = Some w /\ d = word_distance hypot cx cy w /\
        forall j w', ws !! j = Some w' ->
          PrimFloat.ltb (word_distance hypot cx cy w') d = false
  end.

Lemma nearest_fold_invariant ws cx cy :
  nearest_so_far cx cy ws
    (fold_left
       (fun best iw =>
          let '(i, w) := iw in
          let wx := PrimFloat.div (PrimFloat.add (w0 w) (w2 w)) 2 in
          let wy := PrimFloat.div (PrimFloat.add (w1 w) (w3 w)) 2 in
          let d := hypot (PrimFloat.sub wx cx) (PrimFloat.sub wy cy) in
          match best with
          | None => Some (i, d)
          | Some (_, best_d) => if PrimFloat.ltb d best_d then Some (i, d) else best
          end)
       (imap (fun i w => (i, w)) ws) None).
Proof.
induction ws as [|x ws IH] using rev_ind; [reflexivity|].
rewrite nearest_fold_snoc. cbv zeta.
destruct (fold_left _ (imap _ ws) None) as [[i d]|].
- destruct IH as (w & Hw & Hd & Hmin).
  destruct (PrimFloat.ltb (word_distance hypot cx cy x) d) eqn:E.
  + exists x. split; [now rewrite lookup_app_r, Nat.sub_diag by lia|].
    split; [reflexivity|]. intros j w' Hj.
    apply lookup_app_Some in Hj as [Hj|[_ Hj]].
    * destruct (PrimFloat.ltb (word_distance hypot cx cy w') (word_distance hypot cx cy x)) eqn:E';
        [|reflexivity].
      rewrite <- (Hmin j w' Hj). symmetry. now apply ltb_trans with (word_distance hypot cx cy x).
    * apply list_lookup_singleton_Some in Hj as [_ <-]. apply ltb_irrefl.
  + exists w. split; [now apply lookup_app_l_Some|].
    split; [assumption|]. intros j w' Hj.
    apply lookup_app_Some in Hj as [Hj|[_ Hj]]; [now apply (Hmin j)|].
    now apply list_lookup_singleton_Some in Hj as [_ <-].
- cbn in IH. subst ws. exists x. split; [reflexivity|]. split; [reflexivity|].
  intros j w' Hj. apply list_lookup_singleton_Some in Hj as [_ <-]. apply ltb_irrefl.
Qed.

(** X15: on a non-empty word list [nearest_word_index] returns the index
    of a word of the list, and no word of the list is strictly nearer to
    the click than that one; this holds whatever the distances are, NaN
    included. *)
Theorem nearest_word_index_is_nearest ws cx cy :
  ws <> [] ->
  exists i w,
    nearest_word_index hypot ws cx cy = Some i /\ ws !! i = Some w /\
    forall j w', ws !! j = Some w' ->
      PrimFloat.ltb (word_distance hypot cx cy w') (word_distance hypot cx cy w) = false.
Proof.
intros Hne. unfold nearest_word_index.
pose proof (nearest_fold_invariant ws cx cy) as H.
destruct (fold_left _ (imap _ ws) None) as [[i d]|]; [|contradiction].
destruct H as (w & Hw & -> & Hmin). exists i, w. auto.
Qed.

End ZoneEditFacts.

(** *** The escaping of exported paragraph texts *)

Section ExportFacts.
Import Zone ZoneEdit.
Local Open Scope N_scope.

Ltac literals_in H :=
  repeat match type of H with
    | context [s2u ?l] =>
        let x := eval vm_compute in (s2u l) in change (s2u l) with x in H
    end.

Definition escape_code_point (c : N) : pystr :=
  if c =? 0x26 then s2u "&amp;"
  else if c =? 0x3C then s2u "&lt;"
  else if c =? 0x3E then s2u "&gt;"
  else [c].

Lemma escape_text_flat text : escape_text text = flat_map escape_code_point text.
Proof.
unfold escape_text. rewrite !str_replace_single, !flat_map_flat_map.
apply flat_map_ext. intros c. unfold escape_code_point.
destruct (N.eqb_spec c 0x26) as [->|H1]; [reflexivity|].
destruct (N.eqb_spec c 0x3C) as [->|H2]; [reflexivity|].
cbn [flat_map]. rewrite !app_nil_r.
destruct (N.eqb_spec c 0x3C); [congruence|]. cbn [flat_map]. now rewrite app_nil_r.
Qed.

Lemma escape_code_point_cases c :
  (escape_code_point c = [c] /\ c <> 0x26 /\ c <> 0x3C /\ c <> 0x3E) \/
  (c = 0x26 /\ escape_code_point c = s2u "&amp;") \/
  (c = 0x3C /\ escape_code_point c = s2u "&lt;") \/
  (c = 0x3E /\ escape_code_point c = s2u "&gt;").
Proof.
unfold escape_code_point.
destruct (N.eqb_spec c 0x26) as [->|H1]; [now right; left|].
destruct (N.eqb_spec c 0x3C) as [->|H2]; [now right; right; left|].
destruct (N.eqb_spec c 0x3E) as [->|H3]; [now right; right; right|].
now left.
Qed.

Lemma flat_map_escape_inj a b :
  flat_map escape_code_point a = flat_map escape_code_point b -> a = b.
Proof.
revert b. induction a as [|x a IH]; intros [|y b] E.
- reflexivity.
- cbn [flat_map] in E.
  destruct (escape_code_point_cases y) as [(Ey & _)|[(_ & Ey)|[(_ & Ey)|(_ & Ey)]]];
    rewrite Ey in E; discriminate.
- cbn [flat_map] in E.
  destruct (escape_code_point_cases x) as [(Ex & _)|[(_ & Ex)|[(_ & Ex)|(_ & Ex)]]];
    rewrite Ex in E; discriminate.
- cbn [flat_map] in E.
  destruct (escape_code_point_cases x) as [(Ex & ? & ? & ?)|[(-> & Ex)|[(-> & Ex)|(-> & Ex)]]];
  destruct (escape_code_point_cases y) as [(Ey & ? & ? & ?)|[(-> & Ey)|[(-> & Ey)|(-> & Ey)]]];
  rewrite ?Ex, ?Ey in E; literals_in E; cbn [app] in E;
  try (injection E as E; congruence);
  try (injection E as E; f_equal; try congruence; now apply IH);
  try discriminate.
Qed.

(** X16: the escaping [export_html] applies to a paragraph text leaves
    no angle bracket in it and loses nothing: two texts with the same
    escaped form are the same text. *)
Theorem escape_text_safe_and_injective :
  (forall text, no_angle (escape_text text)) /\
  (forall a b, escape_text a = escape_text b -> a = b).
Proof.
split.
- intros text. rewrite escape_text_flat. unfold no_angle.
  induction text as [|c text IH]; [constructor|].
  cbn [flat_map]. apply Forall_app. split; [|assumption].
  destruct (escape_code_point_cases c) as [(-> & ? & ? & ?)|[(_ & ->)|[(_ & ->)|(_ & ->)]]];
    repeat constructor; (assumption || discriminate).
- intros a b. rewrite !escape_text_flat. apply flat_map_escape_inj.
Qed.

End ExportFacts.


Lemma nearest_word_index_is_nearest_witness :
  exists i,
    Zone.nearest_word_index Samples.hypot_sqrt
      [Samples.word_at 10 10 20 20 "a"; Samples.word_at 30 10 40 20 "b"] 33 14 = Some i.
Proof.
destruct (nearest_word_index_is_nearest Samples.hypot_sqrt
            [Samples.word_at 10 10 20 20 "a"; Samples.word_at 30 10 40 20 "b"] 33 14)
  as (i & w & H & _); [discriminate|].
exists i. exact H.
Defined.

(** ** Moving paragraphs and scaling in [stage.py] *)

Section StageFacts.
Import Py Stage.

Lemma renumber_length paras : length (renumber paras) = length paras.
Proof. apply length_imap. Qed.

Lemma renumber_lookup paras i :
  renumber paras !! i = with_number (S i) <$> paras !! i.
Proof. exact (list_lookup_imap (fun i p => with_number (S i) p) paras i). Qed.

Lemma renumber_numbers paras : map p_number (renumber paras) = seq 1 (length paras).
Proof.
apply list_eq. intros i. rewrite list_lookup_fmap, renumber_lookup.
destruct (paras !! i) as [p|] eqn:E; cbn.
- symmetry. apply lookup_seq. split; [reflexivity|]. now apply lookup_lt_Some in E.
- symmetry. apply lookup_seq_ge. now apply lookup_ge_None in E.
Qed.

Lemma renumber_content paras : map content (renumber paras) = map content paras.
Proof.
apply list_eq. intros i. rewrite !list_lookup_fmap, renumber_lookup.
now destruct (paras !! i).
Qed.

Lemma with_number_renumber paras paras' :
  map content paras = map content paras' -> renumber paras = renumber paras'.
Proof.
intros H. apply list_eq. intros i. rewrite !renumber_lookup.
apply (f_equal (fun l => l !! i)) in H. rewrite !list_lookup_fmap in H.
destruct (paras !! i) as [[b t w n]|], (paras' !! i) as [[b' t' w' n']|]; try discriminate;
  [|reflexivity].
cbn in H |- *. injection H as -> -> ->. reflexivity.
Qed.

Lemma swap_items_Some i j paras a b :
  paras !! i = Some a -> paras !! j = Some b ->
  swap_items i j paras = Some (<[j := a]> (<[i := b]> paras)).
Proof. intros Ha Hb. unfold swap_items. now rewrite Hb, Ha. Qed.

Lemma swap_back_content k (paras : list Para) a b :
  paras !! k = Some a -> paras !! S k = Some b ->
  map content
    (<[S k := with_number (S k) b]>
       (<[k := with_number (S (S k)) a]>
          (renumber (<[S k := a]> (<[k := b]> paras)))))
  = map content paras.
Proof.
intros Ha Hb. apply list_eq. intros i. rewrite !list_lookup_fmap.
pose proof (lookup_lt_Some _ _ _ Ha). pose proof (lookup_lt_Some _ _ _ Hb).
destruct (decide (i = S k)) as [->|H1].
- rewrite list_lookup_insert_eq
    by (rewrite length_insert, renumber_length, !length_insert; lia).
  now rewrite Hb.
- rewrite list_lookup_insert_ne by congruence.
  destruct (decide (i = k)) as [->|H2].
  + rewrite list_lookup_insert_eq by (rewrite renumber_length, !length_insert; lia).
    now rewrite Ha.
  + rewrite list_lookup_insert_ne by congruence.
    rewrite renumber_lookup, !list_lookup_insert_ne by congruence.
    now destruct (paras !! i).
Qed.

(** X17: moving the selected paragraph up and then down again (with
    [ctrl_up], then [ctrl_down]) puts every paragraph of the page back
    in its place, numbered 1, 2, ... in list order, and selects the same
    paragraph again. *)
Theorem ctrl_up_then_ctrl_down ed paras k a b :
  paragraphs_by_page ed !! current_page ed = Some paras ->
  selected_indices ed = {[ S k ]} ->
  paras !! k = Some a -> paras !! S k = Some b ->
  exists ed1 ed2,
    ctrl_up ed = Returned ed1 [Render] /\
    ctrl_down ed1 = Returned ed2 [Render] /\
    paragraphs_by_page ed2 !! current_page ed = Some (renumber paras) /\
    selected_indices ed2 = {[ S k ]} /\
    current_page ed2 = current_page ed.
Proof.
intros Hparas Hsel Ha Hb.
pose proof (lookup_lt_Some _ _ _ Ha) as Hk. pose proof (lookup_lt_Some _ _ _ Hb) as HSk.
unfold ctrl_up. rewrite Hparas, Hsel, elements_singleton. cbn [default from_option id].
rewrite (swap_items_Some k (S k) paras a b Ha Hb).
eexists. eexists. split; [reflexivity|].
unfold ctrl_down. cbn [moved paragraphs_by_page current_page selected_indices push_undo].
rewrite lookup_insert_eq, elements_singleton. cbn [default from_option id].
rewrite renumber_length, !length_insert.
destruct (Nat.leb_spec (length paras) (S k)) as [Hle|_]; [lia|].
erewrite swap_items_Some.
2:{ rewrite renumber_lookup, list_lookup_insert_ne, list_lookup_insert_eq by lia. reflexivity. }
2:{ rewrite renumber_lookup, list_lookup_insert_eq by (rewrite length_insert; lia). reflexivity. }
split; [reflexivity|].
cbn [moved paragraphs_by_page current_page selected_indices push_undo].
rewrite lookup_insert_eq. split; [|now split].
f_equal. apply with_number_renumber.
now apply swap_back_content.
Qed.

(** X18: after a move with [ctrl_up] the paragraphs of the page are
    numbered 1, 2, ... in list order, the selected paragraph and the one
    above it have changed places, and every other paragraph is where it
    was; an index past the end raises [IndexError] after the snapshot
    was taken, with the paragraphs untouched. *)
Theorem ctrl_up_swaps_and_renumbers ed paras k :
  paragraphs_by_page ed !! current_page ed = Some paras ->
  selected_indices ed = {[ S k ]} ->
  match paras !! S k with
  | None =>
      exists ed1, ctrl_up ed = Raised "IndexError" ed1 [] /\
        paragraphs_by_page ed1 = paragraphs_by_page ed /\
        undo_stack ed1 = undo_stack ed ++ [paragraphs_by_page ed]
  | Some b =>
      exists ed1 paras1,
        ctrl_up ed = Returned ed1 [Render] /\
        paragraphs_by_page ed1 !! current_page ed = Some paras1 /\
        map p_number paras1 = seq 1 (length paras) /\
        content <$> paras1 !! k = Some (content b) /\
        content <$> paras1 !! S k = content <$> paras !! k /\
        (forall i, i <> k -> i <> S k -> content <$> paras1 !! i = content <$> paras !! i) /\
        selected_indices ed1 = {[ k ]}
  end.
Proof.
intros Hparas Hsel. unfold ctrl_up.
rewrite Hparas, Hsel, elements_singleton. cbn [default from_option id].
destruct (paras !! S k) as [b|] eqn:Hb.
- pose proof (lookup_lt_Some _ _ _ Hb) as HSk.
  destruct (lookup_lt_is_Some_2 paras k ltac:(lia)) as [a Ha].
  rewrite (swap_items_Some k (S k) paras a b Ha Hb).
  eexists. eexists. split; [reflexivity|].
  cbn [moved paragraphs_by_page current_page selected_indices push_undo].
  rewrite lookup_insert_eq. split; [reflexivity|].
  split; [now rewrite renumber_numbers, !length_insert|].
  split; [|split; [|split; [|reflexivity]]].
  + rewrite renumber_lookup, list_lookup_insert_ne, list_lookup_insert_eq by lia. reflexivity.
  + rewrite renumber_lookup, list_lookup_insert_eq, Ha by (rewrite length_insert; lia).
    reflexivity.
  + intros i H1 H2. rewrite renumber_lookup, !list_lookup_insert_ne by congruence.
    now destruct (paras !! i).
- unfold swap_items. rewrite Hb. eexists. split; [reflexivity|]. now split.
Qed.

Lemma ltb_leb x y : PrimFloat.ltb x y = true -> PrimFloat.leb x y = true.
Proof.
rewrite FloatAxioms.ltb_spec, FloatAxioms.leb_spec. unfold SpecFloat.SFltb, SpecFloat.SFleb.
now destruct (SpecFloat.SFcompare (Prim2SF x) (Prim2SF y)) as [[]|].
Qed.

Lemma leb_refl x : PrimFloat.is_nan x = false -> PrimFloat.leb x x = true.
Proof. intros H. apply not_ltb_leb; [assumption..|apply ltb_irrefl]. Qed.

(** Clamping gives a value between the bounds, whatever is clamped. *)
Lemma clamp_in_range lo hi x :
  PrimFloat.is_nan lo = false -> PrimFloat.is_nan hi = false -> PrimFloat.leb lo hi = true ->
  PrimFloat.leb lo (max2 lo (min2 hi x)) = true /\
  PrimFloat.leb (max2 lo (min2 hi x)) hi = true.
Proof.
intros Hlo Hhi Hle. unfold max2, min2.
destruct (PrimFloat.ltb x hi) eqn:E1.
- destruct (PrimFloat.ltb lo x) eqn:E2.
  + split; now apply ltb_leb.
  + split; [now apply leb_refl | assumption].
- destruct (PrimFloat.ltb lo hi) eqn:E2.
  + split; [assumption | now apply leb_refl].
  + split; [now apply leb_refl | assumption].
Qed.

(** X19: [change_scale] keeps the scale between [min_scale] and
    [max_scale]: whatever the factor (zero, negative, infinite or NaN),
    a scale within the bounds stays within the bounds, and the bounds
    themselves are not changed. *)
Theorem change_scale_stays_in_range factor ed :
  PrimFloat.is_nan (min_scale ed) = false -> PrimFloat.is_nan (max_scale ed) = false ->
  PrimFloat.leb (min_scale ed) (max_scale ed) = true ->
  PrimFloat.leb (min_scale ed) (scale ed) = true ->
  PrimFloat.leb (scale ed) (max_scale ed) = true ->
  let ed' := Editing.state_of (change_scale factor ed) in
  PrimFloat.leb (min_scale ed') (scale ed') = true /\
  PrimFloat.leb (scale ed') (max_scale ed') = true /\
  min_scale ed' = min_scale ed /\ max_scale ed' = max_scale ed.
Proof.
intros Hlo Hhi Hle H1 H2. unfold change_scale.
destruct (PrimFloat.ltb _ 1e-6); cbn [Editing.state_of scale min_scale max_scale]; [auto|].
destruct (clamp_in_range (min_scale ed) (max_scale ed) (PrimFloat.mul (scale ed) factor)
            Hlo Hhi Hle) as [Ha Hb].
auto.
Qed.

End StageFacts.

Lemma ctrl_up_then_ctrl_down_witness :
  exists ed1 ed2,
    Stage.ctrl_up Stage.ed_three = Py.Returned ed1 [Py.Render] /\
    Stage.ctrl_down ed1 = Py.Returned ed2 [Py.Render] /\
    Stage.paragraphs_by_page ed2 !! 0%nat
    = Some [Stage.para_numbered 1 "a"; Stage.para_numbered 2 "b"; Stage.para_numbered 3 "c"].
Proof.
destruct (ctrl_up_then_ctrl_down Stage.ed_three
            [Stage.para_numbered 1 "a"; Stage.para_numbered 2 "b"; Stage.para_numbered 3 "c"]
            0 (Stage.para_numbered 1 "a") (Stage.para_numbered 2 "b"))
  as (ed1 & ed2 & H1 & H2 & H3 & _);
  [reflexivity | reflexivity | reflexivity | reflexivity |].
exists ed1, ed2. split; [exact H1|]. split; [exact H2 | exact H3].
Defined.

Lemma ctrl_up_swaps_and_renumbers_witness :
  exists ed1 paras1,
    Stage.ctrl_up Stage.ed_three = Py.Returned ed1 [Py.Render] /\
    Stage.paragraphs_by_page ed1 !! 0%nat = Some paras1 /\
    map Stage.p_number paras1 = [1; 2; 3].
Proof.
pose proof (ctrl_up_swaps_and_renumbers Stage.ed_three
              [Stage.para_numbered 1 "a"; Stage.para_numbered 2 "b"; Stage.para_numbered 3 "c"]
              0 eq_refl eq_refl) as H.
cbn [lookup list_lookup] in H.
destruct H as (ed1 & paras1 & H1 & H2 & H3 & _).
exists ed1, paras1. split; [exact H1|]. split; [exact H2 | exact H3].
Defined.

Lemma change_scale_stays_in_range_witness :
  PrimFloat.leb 0.1 (Stage.scale (Editing.state_of (Stage.change_scale 100 Stage.ed_three))) = true /\
  PrimFloat.leb (Stage.scale (Editing.state_of (Stage.change_scale 100 Stage.ed_three))) 5.0 = true.
Proof.
destruct (change_scale_stays_in_range 100 Stage.ed_three) as (H1 & H2 & _);
  [reflexivity | reflexivity | reflexivity | reflexivity | reflexivity |].
split; [exact H1 | exact H2].
Defined.

(** ** Deleting blocks and paging in [delete.py] *)

Section MarkFacts.
Import Py Deleting.

Lemma mark_lookup page i d :
  default [] (mark page i d !! page)
  = (if bool_decide (i ∈ default [] (d !! page)) then default [] (d !! page)
     else default [] (d !! page) ++ [i]).
Proof. unfold mark. now rewrite lookup_insert_eq. Qed.

Lemma mark_lookup_ne page i d pg : pg <> page -> mark page i d !! pg = d !! pg.
Proof. intros H. unfold mark. now rewrite lookup_insert_ne by congruence. Qed.

Lemma mark_spec page i d :
  (forall j, j ∈ default [] (mark page i d !! page) <-> j ∈ default [] (d !! page) \/ j = i) /\
  (NoDup (default [] (d !! page)) -> NoDup (default [] (mark page i d !! page))).
Proof.
rewrite mark_lookup. destruct (bool_decide_reflect (i ∈ default [] (d !! page))) as [Hin|Hin].
- split; [|auto]. intros j. split; [auto|]. now intros [H| ->].
- split.
  + intros j. rewrite elem_of_app, list_elem_of_singleton. tauto.
  + intros Hnd. apply NoDup_app. split; [assumption|]. split.
    * intros x Hx Hx'. apply list_elem_of_singleton in Hx'. now subst.
    * apply NoDup_singleton.
Qed.

Lemma mark_overlapping_snoc page area rects r d :
  mark_overlapping page area (rects ++ [r]) d
  = (let d' := mark_overlapping page area rects d in
     if overlaps area r then mark page (length rects) d' else d').
Proof.
unfold mark_overlapping. rewrite imap_app, fold_left_app. cbn [imap fold_left fst snd].
now rewrite Nat.add_0_r.
Qed.

Lemma mark_overlapping_spec page area rects d :
  let d' := mark_overlapping page area rects d in
  (forall pg, pg <> page -> d' !! pg = d !! pg) /\
  (forall i, i ∈ default [] (d' !! page) <->
             i ∈ default [] (d !! page)
             \/ exists r, rects !! i = Some r /\ overlaps area r = true) /\
  (NoDup (default [] (d !! page)) -> NoDup (default [] (d' !! page))).
Proof.
induction rects as [|r rects IH] using rev_ind.
- cbn. split; [auto|]. split; [|auto].
  intros i. split; [auto|]. intros [H|(r & Hr & _)]; [assumption | discriminate].
- rewrite mark_overlapping_snoc. cbv zeta in IH |- *.
  destruct IH as (IH1 & IH2 & IH3).
  assert (Hlook : forall i r', (rects ++ [r]) !! i = Some r' <->
            rects !! i = Some r' \/ (i = length rects /\ r' = r)).
  { intros i r'. rewrite lookup_app_Some, list_lookup_singleton_Some.
    split; [intros [H|(H1 & H2 & H3)]; [auto | right; split; [lia | auto]]|].
    intros [H|[-> ->]]; [auto | right; split; [lia|]; split; [lia | reflexivity]]. }
  destruct (overlaps area r) eqn:Eo.
  + destruct (mark_spec page (length rects) (mark_overlapping page area rects d))
      as [Hm1 Hm2].
    split; [|split].
    * intros pg Hpg. rewrite mark_lookup_ne by assumption. now apply IH1.
    * intros i. rewrite Hm1, IH2. split.
      -- intros [[H|(r' & Hr' & Ho)]| ->]; [auto | right | right].
         ++ exists r'. split; [apply Hlook; auto | assumption].
         ++ exists r. split; [apply Hlook; auto | assumption].
      -- intros [H|(r' & Hr' & Ho)]; [auto|].
         apply Hlook in Hr' as [Hr'|[-> ->]]; [left; right; eauto | now right].
    * intros Hnd. apply Hm2, IH3, Hnd.
  + split; [assumption|]. split; [|assumption].
    intros i. rewrite IH2. split.
    * intros [H|(r' & Hr' & Ho)]; [auto | right].
      exists r'. split; [apply Hlook; auto | assumption].
    * intros [H|(r' & Hr' & Ho)]; [auto|].
      apply Hlook in Hr' as [Hr'|[-> ->]]; [right; eauto | congruence].
Qed.

End MarkFacts.

Section DeletingFacts.
Import Py Deleting.
Variable visual_rects : nat -> list VRect.

Local Abbreviation show_page := (show_page visual_rects).
Local Abbreviation delete_action := (delete_action visual_rects).
Local Abbreviation undo := (undo visual_rects).
Local Abbreviation run := (run visual_rects).
Local Abbreviation run_all := (run_all visual_rects).

Lemma show_page_keeps ed :
  doc (show_page ed) = doc ed /\ current_page (show_page ed) = current_page ed /\
  deleted_blocks (show_page ed) = deleted_blocks ed /\ history (show_page ed) = history ed.
Proof. unfold Deleting.show_page. now destruct (no_doc ed). Qed.

Lemma deleted_on_show_page ed page : deleted_on (show_page ed) page = deleted_on ed page.
Proof. unfold deleted_on. now rewrite (proj1 (proj2 (proj2 (show_page_keeps ed)))). Qed.

Lemma undo_pushed e h d0 :
  history e = h ++ [d0] ->
  deleted_blocks (undo e) = d0 /\ history (undo e) = h /\
  current_page (undo e) = current_page e.
Proof.
intros H. unfold Deleting.undo. rewrite H, pop_snoc.
match goal with
| |- context [Deleting.show_page _ ?x] =>
    destruct (show_page_keeps x) as (_ & -> & -> & ->)
end.
now cbn.
Qed.

Lemma delete_action_pushes ed :
  no_doc ed = false ->
  history (delete_action ed) = history ed ++ [deleted_blocks ed] /\
  current_page (delete_action ed) = current_page ed.
Proof.
intros Hdoc. unfold Deleting.delete_action. rewrite Hdoc.
destruct (selected_block ed) as [b|]; [|destruct (drag_area ed) as [area|]];
  try match goal with
    | |- context [Deleting.show_page _ ?x] =>
        destruct (show_page_keeps x) as (_ & -> & _ & ->)
    end;
  now cbn.
Qed.

(** X20: a deletion can be undone: with a document open,
    [delete_action] followed by [undo] gives back the deleted blocks of
    all pages and the history as they were, on the same page. *)
Theorem delete_action_then_undo ed :
  no_doc ed = false ->
  deleted_blocks (undo (delete_action ed)) = deleted_blocks ed /\
  history (undo (delete_action ed)) = history ed /\
  current_page (undo (delete_action ed)) = current_page ed.
Proof.
intros Hdoc. destruct (delete_action_pushes ed Hdoc) as [Hh Hp].
destruct (undo_pushed _ _ _ Hh) as (H1 & H2 & H3).
rewrite H1, H2, H3. auto.
Qed.

(** X21: the deletion by dragging marks exactly the blocks a user sees
    under the drag area: with a document open and no block selected, a
    block of the current page is deleted afterwards if and only if it
    was deleted before or its rectangle overlaps the area; the other
    pages are untouched. *)
Theorem drag_delete_marks_overlapping ed area :
  no_doc ed = false -> selected_block ed = None -> drag_area ed = Some area ->
  (forall i, i ∈ deleted_on (delete_action ed) (current_page ed) <->
             i ∈ deleted_on ed (current_page ed)
             \/ exists r, block_visual_rects ed !! i = Some r /\ overlaps area r = true) /\
  (forall page, page <> current_page ed ->
                deleted_on (delete_action ed) page = deleted_on ed page) /\
  drag_area (delete_action ed) = None.
Proof.
intros Hdoc Hsel Hdrag. unfold Deleting.delete_action. rewrite Hdoc, Hsel, Hdrag.
destruct (mark_overlapping_spec (current_page ed) area (block_visual_rects ed)
            (deleted_blocks ed)) as (H1 & H2 & _).
split; [|split].
- intros i. rewrite deleted_on_show_page. unfold deleted_on. cbn [deleted_blocks]. apply H2.
- intros page Hpage. rewrite deleted_on_show_page. unfold deleted_on. cbn [deleted_blocks].
  now rewrite H1.
- unfold Deleting.show_page. now destruct (no_doc _).
Qed.

(** X22: [delete_action] never brings a deleted block back and never
    lists a block twice: on every page, the blocks deleted before are
    still deleted afterwards, and a list without duplicates stays
    without duplicates. *)
Theorem delete_action_only_adds ed page :
  (forall i, i ∈ deleted_on ed page -> i ∈ deleted_on (delete_action ed) page) /\
  (NoDup (deleted_on ed page) -> NoDup (deleted_on (delete_action ed) page)).
Proof.
unfold Deleting.delete_action. destruct (no_doc ed); [auto|].
destruct (selected_block ed) as [b|]; [|destruct (drag_area ed) as [area|]];
  rewrite ?deleted_on_show_page; unfold deleted_on; cbn [deleted_blocks]; [| |auto].
- destruct (decide (page = current_page ed)) as [->|Hne].
  + destruct (mark_spec (current_page ed) b (deleted_blocks ed)) as [H1 H2].
    split; [|assumption]. intros i Hi. apply H1. auto.
  + rewrite mark_lookup_ne by assumption. auto.
- destruct (mark_overlapping_spec (current_page ed) area (block_visual_rects ed)
              (deleted_blocks ed)) as (H1 & H2 & H3).
  destruct (decide (page = current_page ed)) as [->|Hne].
  + split; [|assumption]. intros i Hi. apply H2. auto.
  + rewrite H1 by assumption. auto.
Qed.

Lemma run_keeps_page_in_document a ed n :
  doc ed = Some n -> current_page ed < n ->
  doc (run a ed) = Some n /\ current_page (run a ed) < n.
Proof.
intros Hd Hp.
assert (Hshow : forall e, doc e = Some n -> current_page e < n ->
          doc (show_page e) = Some n /\ current_page (show_page e) < n).
{ intros e H1 H2. destruct (show_page_keeps e) as (-> & -> & _). auto. }
destruct a as [| | | |num]; cbn [Deleting.run].
- unfold Deleting.delete_action. destruct (no_doc ed); [auto|].
  destruct (selected_block ed); [|destruct (drag_area ed)]; try apply Hshow; cbn; auto.
- unfold Deleting.undo. destruct (Editing.pop _) as [[rest top]|]; [apply Hshow|]; cbn; auto.
- unfold Deleting.next_page. rewrite Hd. destruct n as [|last]; [auto|].
  destruct (Nat.leb_spec last (current_page ed)); [auto|].
  apply Hshow; cbn; [assumption | lia].
- unfold Deleting.prev_page. destruct (no_doc ed); [auto|].
  destruct (current_page ed) as [|i] eqn:Ei; [now rewrite Ei|].
  apply Hshow; cbn; [assumption | lia].
- unfold Deleting.jump_to_page. rewrite Hd. destruct n as [|last]; [auto|].
  destruct num as [z|]; [|auto].
  destruct ((1 <=? z)%Z && (z <=? Z.of_nat (S last))%Z) eqn:E; cbn [fst]; [|auto].
  apply andb_true_iff in E as [E1 E2]. apply Z.leb_le in E1, E2.
  apply Hshow; cbn; [assumption | lia].
Qed.

(** X23: no sequence of deletions, undos, page changes and page jumps
    (whatever number the user types) moves the current page outside the
    document or changes the document. *)
Theorem delete_handlers_keep_page_in_document acts ed n :
  doc ed = Some n -> current_page ed < n ->
  doc (run_all acts ed) = Some n /\ current_page (run_all acts ed) < n.
Proof.
revert ed. induction acts as [|a acts IH]; intros ed Hd Hp; [now split|].
cbn [Deleting.run_all fold_left].
destruct (run_keeps_page_in_document a ed n Hd Hp) as [Hd' Hp'].
now apply IH.
Qed.

End DeletingFacts.

Lemma delete_action_then_undo_witness :
  Deleting.deleted_blocks
    (Deleting.undo Deleting.two_blocks
       (Deleting.delete_action Deleting.two_blocks Deleting.ed_dragged))
  = ∅.
Proof.
apply (delete_action_then_undo Deleting.two_blocks Deleting.ed_dragged). reflexivity.
Defined.

Lemma drag_delete_marks_overlapping_witness :
  0 ∈ Deleting.deleted_on
        (Deleting.delete_action Deleting.two_blocks Deleting.ed_dragged) 1.
Proof.
destruct (drag_delete_marks_overlapping Deleting.two_blocks Deleting.ed_dragged
            (5, 5, 8, 8)%float eq_refl eq_refl eq_refl) as [H _].
apply (H 0). right. exists (0, 0, 10, 10)%float. split; reflexivity.
Defined.

Lemma delete_handlers_keep_page_in_document_witness :
  Deleting.current_page
    (Deleting.run_all Deleting.two_blocks
       [Deleting.JumpTo (Some 7%Z); Deleting.NextPage; Deleting.NextPage; Deleting.Delete]
       Deleting.ed_dragged)
  < 3.
Proof.
apply (delete_handlers_keep_page_in_document Deleting.two_blocks
         [Deleting.JumpTo (Some 7%Z); Deleting.NextPage; Deleting.NextPage; Deleting.Delete]
         Deleting.ed_dragged 3); [reflexivity | cbn; lia].
Defined.

(** ** The entity converter *)

Section EntityFileFacts.
Import EntityFile.
Local Open Scope N_scope.
Variable codepoint2name : N -> option pystr.

Local Abbreviation convert := (convert_chars_to_entities codepoint2name).

Definition is_ascii (c : N) : Prop := c < 128.

Lemma digits_are_ascii d : Forall is_ascii (s2u (NilEmpty.string_of_uint d)).
Proof.
eapply Forall_impl; [apply string_of_uint_digits|].
intros c [_ H]. unfold is_ascii. lia.
Qed.

Lemma convert_ascii text : Forall is_ascii text -> convert text = text.
Proof.
induction 1 as [|c text Hc _ IH]; [reflexivity|].
unfold convert_chars_to_entities in IH |- *. cbn [map concat]. rewrite IH.
unfold convert_char. apply N.ltb_lt in Hc. now rewrite Hc.
Qed.

(** X24: where the entity names are ASCII (as those of the standard
    library are), the converted text is ASCII only, an ASCII text is
    returned as it is, and converting a second time changes nothing. *)
Theorem convert_chars_to_entities_ascii text :
  (forall cp name, codepoint2name cp = Some name -> Forall is_ascii name) ->
  Forall is_ascii (convert text) /\
  (Forall is_ascii text -> convert text = text) /\
  convert (convert text) = convert text.
Proof.
intros Hnames.
assert (H : Forall is_ascii (convert text)).
{ unfold convert_chars_to_entities. induction text as [|c text IH]; [constructor|].
  cbn [map concat]. apply Forall_app. split; [|assumption].
  unfold convert_char. destruct (N.ltb_spec c 128) as [Hc|Hc].
  - now repeat constructor.
  - destruct (codepoint2name c) as [name|] eqn:E.
    + apply Forall_app. split; [repeat constructor; unfold is_ascii; cbn; lia|].
      apply Forall_app. split; [now apply (Hnames c)|].
      repeat constructor; unfold is_ascii; cbn; lia.
    + apply Forall_app. split; [repeat constructor; unfold is_ascii; cbn; lia|].
      apply Forall_app. split; [apply digits_are_ascii|].
      repeat constructor; unfold is_ascii; cbn; lia. }
split; [assumption|]. split; [apply convert_ascii | now apply convert_ascii].
Qed.

End EntityFileFacts.

Lemma convert_chars_to_entities_ascii_witness :
  EntityFile.convert_chars_to_entities EntityFile.only_eacute
    (EntityFile.convert_chars_to_entities EntityFile.only_eacute [0x63; 0xE9; 0x20AC]%N)
  = s2u "c&eacute;&#8364;".
Proof.
destruct (convert_chars_to_entities_ascii EntityFile.only_eacute [0x63; 0xE9; 0x20AC]%N)
  as (_ & _ & H).
- intros cp name. unfold EntityFile.only_eacute.
  destruct (cp =? 0xE9)%N; [|discriminate].
  intros [= <-]. repeat constructor; unfold is_ascii; cbn; lia.
- rewrite H. reflexivity.
Defined.

(** ** A single style, and no style *)

Section SingleStyle.
Import Chars Escape.
Local Open Scope N_scope.

(** A pattern that matches nowhere in the three parts of a subject
    leaves the subject as it is. *)
Lemma re_sub_tag_parts matcher repl h t rest :
  (forall v, v <> [] -> v `suffix_of` h -> matcher (v ++ t ++ rest) = None) ->
  (forall u, u <> [] -> u `suffix_of` t -> matcher (u ++ rest) = None) ->
  (forall w, w <> [] -> w `suffix_of` rest -> matcher w = None) ->
  re_sub_tag matcher repl (h ++ t ++ rest) = h ++ t ++ rest.
Proof.
intros Hh Ht Hr. unfold re_sub_tag.
rewrite scan_sub_app_miss by (intros v Hv Hs; now rewrite Hh).
rewrite scan_sub_app_miss by (intros u Hu Hs; now rewrite Ht).
rewrite scan_sub_id; [reflexivity|]. intros w Hw Hs. now rewrite Hr.
Qed.

Ltac suffix_cases H :=
  repeat (apply suffix_cons_cases in H as [->|H]);
  [ .. | apply suffix_nil_inv in H; congruence ].

Lemma match_single_b_wrapped t :
  has_tag_token t = false ->
  match_single tag_b_open tag_b_close (s2u "<b>" ++ t ++ s2u "</b>") = Some (t, []).
Proof.
intros Ht. unfold match_single.
change (lit_ci tag_b_open (s2u "<b>" ++ t ++ s2u "</b>")) with (Some (t ++ s2u "</b>")).
cbv beta iota. apply lazy_dot_app; [|reflexivity].
intros u Hu Hs. change (s2u "</b>") with (0x3C :: s2u "/b>").
exact (proj1 (proj2 (no_token_before_lt t u _ Ht Hu Hs))).
Qed.

Lemma match_single_i_wrapped t :
  has_tag_token t = false ->
  match_single tag_i_open tag_i_close (s2u "<i>" ++ t ++ s2u "</i>") = Some (t, []).
Proof.
intros Ht. unfold match_single.
change (lit_ci tag_i_open (s2u "<i>" ++ t ++ s2u "</i>")) with (Some (t ++ s2u "</i>")).
cbv beta iota. apply lazy_dot_app; [|reflexivity].
intros u Hu Hs. change (s2u "</i>") with (0x3C :: s2u "/i>").
exact (proj2 (proj2 (proj2 (no_token_before_lt t u _ Ht Hu Hs)))).
Qed.

(** Behind an opening tag and optional white space, a text without tag
    token does not go on with another opening tag. *)
Lemma no_second_opening tok t rest (k : pystr -> option (pystr * pystr)) :
  has_tag_token t = false ->
  tok = tag_b_open \/ tok = tag_i_open ->
  lit_ci tok (0x3C :: 0x2F :: rest) = None ->
  ws_star (fun s2 => match lit_ci tok s2 with None => None | Some s3 => k s3 end)
    (t ++ 0x3C :: 0x2F :: rest) = None.
Proof.
intros Ht Htok Hrest. apply ws_star_none. intros u Hs.
destruct u as [|c u]; [cbn [app]; now rewrite Hrest|].
destruct (no_token_before_lt t (c :: u) (0x2F :: rest) Ht ltac:(discriminate) Hs)
  as (H1 & _ & H3 & _).
destruct Htok as [-> | ->]; [now rewrite H1 | now rewrite H3].
Qed.

Lemma protect_tags_bold t :
  has_tag_token t = false ->
  protect_tags (s2u "<b>" ++ t ++ s2u "</b>") = ph_b_open ++ escape_angle t ++ ph_b_close.
Proof.
intros Ht. unfold protect_tags.
rewrite (re_sub_tag_parts (match_nested tag_b_open tag_i_open tag_i_close tag_b_close)
           protect_nested (s2u "<b>") t (s2u "</b>")).
2:{ intros v Hv Hs. suffix_cases Hs; try reflexivity.
    unfold match_nested.
    change (lit_ci tag_b_open (s2u "<b>" ++ t ++ s2u "</b>")) with (Some (t ++ s2u "</b>")).
    cbv beta iota. change (s2u "</b>") with (0x3C :: 0x2F :: s2u "b>").
    apply no_second_opening; [assumption | now right | reflexivity]. }
2:{ intros u Hu Hs. unfold match_nested. change (s2u "</b>") with (0x3C :: s2u "/b>").
    now rewrite (proj1 (no_token_before_lt t u _ Ht Hu Hs)). }
2:{ intros w Hw Hs. suffix_cases Hs; reflexivity. }
rewrite (re_sub_tag_parts (match_nested tag_i_open tag_b_open tag_b_close tag_i_close)
           protect_nested (s2u "<b>") t (s2u "</b>")).
2:{ intros v Hv Hs. suffix_cases Hs; reflexivity. }
2:{ intros u Hu Hs. unfold match_nested. change (s2u "</b>") with (0x3C :: s2u "/b>").
    now rewrite (proj1 (proj2 (proj2 (no_token_before_lt t u _ Ht Hu Hs)))). }
2:{ intros w Hw Hs. suffix_cases Hs; reflexivity. }
rewrite (re_sub_tag_whole (match_single tag_b_open tag_b_close) protect_b
           (s2u "<b>" ++ t ++ s2u "</b>") t);
  [ | discriminate | now apply match_single_b_wrapped ].
unfold protect_b.
apply re_sub_tag_no_angle; [intros u Hu; apply (matchers_need_lt u Hu)|].
destruct no_angle_placeholders as (? & ? & ? & ?).
unfold no_angle. rewrite !Forall_app. repeat split; try assumption.
apply escape_angle_no_angle.
Qed.

Lemma protect_tags_italic t :
  has_tag_token t = false ->
  protect_tags (s2u "<i>" ++ t ++ s2u "</i>") = ph_i_open ++ escape_angle t ++ ph_i_close.
Proof.
intros Ht. unfold protect_tags.
rewrite (re_sub_tag_parts (match_nested tag_b_open tag_i_open tag_i_close tag_b_close)
           protect_nested (s2u "<i>") t (s2u "</i>")).
2:{ intros v Hv Hs. suffix_cases Hs; reflexivity. }
2:{ intros u Hu Hs. unfold match_nested. change (s2u "</i>") with (0x3C :: s2u "/i>").
    now rewrite (proj1 (no_token_before_lt t u _ Ht Hu Hs)). }
2:{ intros w Hw Hs. suffix_cases Hs; reflexivity. }
rewrite (re_sub_tag_parts (match_nested tag_i_open tag_b_open tag_b_close tag_i_close)
           protect_nested (s2u "<i>") t (s2u "</i>")).
2:{ intros v Hv Hs. suffix_cases Hs; try reflexivity.
    unfold match_nested.
    change (lit_ci tag_i_open (s2u "<i>" ++ t ++ s2u "</i>")) with (Some (t ++ s2u "</i>")).
    cbv beta iota. change (s2u "</i>") with (0x3C :: 0x2F :: s2u "i>").
    apply no_second_opening; [assumption | now left | reflexivity]. }
2:{ intros u Hu Hs. unfold match_nested. change (s2u "</i>") with (0x3C :: s2u "/i>").
    now rewrite (proj1 (proj2 (proj2 (no_token_before_lt t u _ Ht Hu Hs)))). }
2:{ intros w Hw Hs. suffix_cases Hs; reflexivity. }
rewrite (re_sub_tag_parts (match_single tag_b_open tag_b_close)
           protect_b (s2u "<i>") t (s2u "</i>")).
2:{ intros v Hv Hs. suffix_cases Hs; reflexivity. }
2:{ intros u Hu Hs. unfold match_single. change (s2u "</i>") with (0x3C :: s2u "/i>").
    now rewrite (proj1 (no_token_before_lt t u _ Ht Hu Hs)). }
2:{ intros w Hw Hs. suffix_cases Hs; reflexivity. }
rewrite (re_sub_tag_whole (match_single tag_i_open tag_i_close) protect_i
           (s2u "<i>" ++ t ++ s2u "</i>") t);
  [ | discriminate | now apply match_single_i_wrapped ].
reflexivity.
Qed.

Lemma str_replace_no_at old new l :
  Forall (fun x => x <> 0x40) l -> str_replace (0x40 :: old) new l = l.
Proof.
intros H. rewrite <- (app_nil_r l) at 1.
rewrite (str_replace_skip 0x40 old new l [] H), str_replace_nil by discriminate.
apply app_nil_r.
Qed.

Lemma no_at_app a b :
  Forall (fun x => x <> 0x40) a -> Forall (fun x : N => x <> 0x40) b ->
  Forall (fun x => x <> 0x40) (a ++ b).
Proof. intros. now apply Forall_app. Qed.

Lemma restore_bold body :
  (0x40 ∉ body) ->
  restore_placeholders (ph_b_open ++ body ++ ph_b_close) = s2u "<b>" ++ body ++ s2u "</b>".
Proof.
intros Hat%not_at_Forall. unfold restore_placeholders.
assert (Ho : Forall (fun x => x <> 0x40) (s2u "<b>")) by (repeat constructor; discriminate).
assert (Hc : Forall (fun x => x <> 0x40) (s2u "</b>")) by (repeat constructor; discriminate).
rewrite (str_replace_hit ph_b_open tag_b_open) by discriminate.
unfold ph_b_open at 1.
rewrite (str_replace_skip 0x40 _ tag_b_open body ph_b_close Hat).
change (str_replace _ tag_b_open ph_b_close) with ph_b_close.
change tag_b_open with (s2u "<b>").
unfold ph_b_close at 1.
rewrite (str_replace_skip 0x40 _ tag_b_close (s2u "<b>") (body ++ ph_b_close) Ho).
rewrite (str_replace_skip 0x40 _ tag_b_close body ph_b_close Hat).
change (str_replace _ tag_b_close ph_b_close) with (s2u "</b>").
unfold ph_i_open, ph_i_close.
rewrite (str_replace_no_at _ tag_i_open (s2u "<b>" ++ body ++ s2u "</b>"))
  by (repeat apply no_at_app; assumption).
now rewrite str_replace_no_at by (repeat apply no_at_app; assumption).
Qed.

Lemma restore_italic body :
  (0x40 ∉ body) -> body <> s2u "B_OPEN" -> body <> s2u "B_CLOSE" ->
  restore_placeholders (ph_i_open ++ body ++ ph_i_close) = s2u "<i>" ++ body ++ s2u "</i>".
Proof.
intros Hat0 Hopen Hclose. pose proof (not_at_Forall _ Hat0) as Hat.
unfold restore_placeholders.
assert (Ho : Forall (fun x => x <> 0x40) (s2u "<i>")) by (repeat constructor; discriminate).
assert (H8 : forall w rest, body <> w -> (0x40 ∉ w) ->
          startswith (w ++ [0x40; 0x40]) (body ++ 0x40 :: rest) = false).
{ intros w rest Hw Hw'.
  destruct (startswith (w ++ [0x40; 0x40]) (body ++ 0x40 :: rest)) eqn:E; [|reflexivity].
  apply startswith_up_to_at in E; [congruence | assumption..]. }
assert (H9 : forall q rest,
          startswith (0x40 :: 0x42 :: q) (body ++ 0x40 :: 0x40 :: rest) = false).
{ intros q rest. destruct body as [|c body']; [reflexivity|].
  apply Forall_cons in Hat as [Hc _]. cbn [app startswith].
  destruct (N.eqb_spec 0x40 c); [congruence | reflexivity]. }
assert (Hw1 : 0x40 ∉ s2u "B_OPEN") by absent.
assert (Hw2 : 0x40 ∉ s2u "B_CLOSE") by absent.
assert (R1 : str_replace ph_b_open tag_b_open (ph_i_open ++ body ++ ph_i_close)
             = ph_i_open ++ body ++ ph_i_close).
{ unfold ph_i_open, ph_i_close, ph_b_open. cbn [app].
  do 8 (rewrite str_replace_miss by (discriminate || reflexivity)).
  rewrite str_replace_miss;
    [|discriminate|rewrite !startswith_cons_same; exact (H8 (s2u "B_OPEN") _ Hopen Hw1)].
  rewrite str_replace_miss; [|discriminate|rewrite !startswith_cons_same; apply H9].
  rewrite (str_replace_skip 0x40 _ tag_b_open body _ Hat).
  reflexivity. }
assert (R2 : str_replace ph_b_close tag_b_close (ph_i_open ++ body ++ ph_i_close)
             = ph_i_open ++ body ++ ph_i_close).
{ unfold ph_i_open, ph_i_close, ph_b_close. cbn [app].
  do 8 (rewrite str_replace_miss by (discriminate || reflexivity)).
  rewrite str_replace_miss;
    [|discriminate|rewrite !startswith_cons_same; exact (H8 (s2u "B_CLOSE") _ Hclose Hw2)].
  rewrite str_replace_miss; [|discriminate|rewrite !startswith_cons_same; apply H9].
  rewrite (str_replace_skip 0x40 _ tag_b_close body _ Hat).
  reflexivity. }
rewrite R1, R2.
rewrite (str_replace_hit ph_i_open tag_i_open) by discriminate.
unfold ph_i_open at 1.
rewrite (str_replace_skip 0x40 _ tag_i_open body ph_i_close Hat).
change (str_replace _ tag_i_open ph_i_close) with ph_i_close.
change tag_i_open with (s2u "<i>").
unfold ph_i_close at 1.
rewrite (str_replace_skip 0x40 _ tag_i_close (s2u "<i>") (body ++ ph_i_close) Ho).
rewrite (str_replace_skip 0x40 _ tag_i_close body ph_i_close Hat).
reflexivity.
Qed.

Lemma escape_around_body p1 p3 t :
  no_angle p1 -> no_angle p3 -> (0x26 ∉ p1) ->
  head p3 = Some 0x40 -> amp_sub p3 = p3 ->
  amp_sub (escape_angle (p1 ++ escape_angle t ++ p3)) = p1 ++ amp_sub (escape_angle t) ++ p3.
Proof.
intros H1 H3 A1 Hhd Hfix.
pose proof (escape_between_placeholders p1 [] p3 [] t H1 ltac:(constructor) H3
              ltac:(constructor) A1 ltac:(apply not_elem_of_nil)) as H.
rewrite !app_nil_r in H. cbn [app] in H. now apply H.
Qed.

Lemma tag_pair_needs_token u : tag_pair_at u = true -> tag_token_at u = true.
Proof.
unfold tag_pair_at, tag_token_at, match_nested, match_single. intros H.
destruct (lit_ci tag_b_open u); [reflexivity|].
destruct (lit_ci tag_i_open u); [now rewrite !orb_true_r|].
discriminate.
Qed.

Lemma no_token_no_pair t : has_tag_token t = false -> has_inline_pair t = false.
Proof.
unfold has_tag_token, has_inline_pair. induction t as [|c t IH]; cbn [any_suffix]; intros H.
- apply orb_false_iff in H as [H _]. rewrite orb_false_r.
  destruct (tag_pair_at []) eqn:E; [|reflexivity]. apply tag_pair_needs_token in E. congruence.
- apply orb_false_iff in H as [H1 H2]. rewrite (IH H2), orb_false_r.
  destruct (tag_pair_at (c :: t)) eqn:E; [|reflexivity].
  apply tag_pair_needs_token in E. congruence.
Qed.

Lemma no_at_no_placeholder t : (0x40 ∉ t) -> has_placeholder t = false.
Proof.
unfold has_placeholder. induction t as [|c t IH]; intros H; [reflexivity|].
apply not_elem_of_cons in H as [Hc Ht]. cbn [any_suffix]. rewrite (IH Ht), orb_false_r.
unfold placeholder_at, ph_b_open, ph_b_close, ph_i_open, ph_i_close. cbn [startswith].
destruct (N.eqb_spec 0x40 c); [congruence | reflexivity].
Qed.

(** X25: for a text that holds none of the tag tokens [<b>], [</b>],
    [<i>], [</i>] and no [@], escaping the bold wrapping gives [<b>],
    the escaped text and [</b>]; escaping the italic wrapping gives
    [<i>], the escaped text and [</i>], unless the text is [B_OPEN] or
    [B_CLOSE]; and escaping the unstyled text gives the escaped text
    alone.  The escaped text holds no angle bracket. *)
Theorem escape_single_style pref t :
  has_tag_token t = false -> (0x40 ∉ t) ->
  let body := amp_sub (escape_angle t) in
  escape_html_keep_bi_and_entities (wrap_span_text pref t true false)
  = s2u "<b>" ++ body ++ s2u "</b>" /\
  (t <> s2u "B_OPEN" -> t <> s2u "B_CLOSE" ->
   escape_html_keep_bi_and_entities (wrap_span_text pref t false true)
   = s2u "<i>" ++ body ++ s2u "</i>") /\
  escape_html_keep_bi_and_entities (wrap_span_text pref t false false) = body /\
  no_angle body.
Proof.
intros Htok Hat body.
pose proof (escaped_body_no_at t Hat) as Hbody.
destruct no_angle_placeholders as (Nbo & Nbc & Nio & Nic).
destruct no_amp_in_placeholders as (Abo & Abc & Aio & Aic).
unfold wrap_span_text. cbn [andb].
split; [|split; [|split]].
- rewrite escape_nonempty by discriminate.
  rewrite protect_tags_bold by assumption.
  rewrite escape_around_body by (assumption || reflexivity).
  now apply restore_bold.
- intros Hopen Hclose. rewrite escape_nonempty by discriminate.
  rewrite protect_tags_italic by assumption.
  rewrite escape_around_body by (assumption || reflexivity).
  apply restore_italic; [assumption | |]; intros E;
    apply escaped_body_plain in E; try contradiction; absent.
- apply escape_plain; [now apply no_token_no_pair | now apply no_at_no_placeholder].
- apply amp_sub_no_angle, escape_angle_no_angle.
Qed.

End SingleStyle.

Lemma escape_single_style_witness :
  Escape.escape_html_keep_bi_and_entities
    (Escape.wrap_span_text Escape.B_OUTSIDE_I (s2u "x<y & z") true false)
  = s2u "<b>x&lt;y &amp; z</b>".
Proof.
destruct (escape_single_style Escape.B_OUTSIDE_I (s2u "x<y & z")) as [E _];
  [ reflexivity | apply (bool_decide_eq_false_1 _); reflexivity | exact E ].
Defined.

(** ** Region detection *)

Section AutoDetectFacts.
Import Provider Py Headings AutoDetect.
Variable cfg : Settings.

Lemma insert_by_length {A} (key : A -> float) x l :
  length (insert_by key x l) = S (length l).
Proof.
induction l as [|y l IH]; [reflexivity|]. cbn [insert_by].
destruct (PrimFloat.ltb (key x) (key y)); cbn [length]; [reflexivity | now rewrite IH].
Qed.

Lemma insert_by_elem {A} (key : A -> float) x l z :
  z ∈ insert_by key x l <-> z = x \/ z ∈ l.
Proof.
induction l as [|y l IH]; cbn [insert_by].
- rewrite list_elem_of_singleton, elem_of_nil. tauto.
- destruct (PrimFloat.ltb (key x) (key y)).
  + now rewrite elem_of_cons.
  + rewrite !elem_of_cons, IH. tauto.
Qed.

Lemma fold_insert_length {A} (key : A -> float) l acc :
  length (fold_left (fun acc x => insert_by key x acc) l acc) = length acc + length l.
Proof.
revert acc. induction l as [|x l IH]; intros acc; cbn [fold_left length]; [lia|].
rewrite IH, insert_by_length. lia.
Qed.

Lemma sort_by_length {A} (key : A -> float) l : length (sort_by key l) = length l.
Proof. unfold sort_by. now rewrite fold_insert_length. Qed.

Lemma fold_insert_elem {A} (key : A -> float) l acc z :
  z ∈ fold_left (fun acc x => insert_by key x acc) l acc <-> z ∈ acc \/ z ∈ l.
Proof.
revert acc. induction l as [|x l IH]; intros acc; cbn [fold_left].
- rewrite elem_of_nil. tauto.
- rewrite IH, insert_by_elem, elem_of_cons. tauto.
Qed.

Lemma sort_by_elem {A} (key : A -> float) l z : z ∈ sort_by key l <-> z ∈ l.
Proof. unfold sort_by. rewrite fold_insert_elem, elem_of_nil. tauto. Qed.

(** No item of a sorted list is smaller than an earlier one. *)
Definition ascending {A} (key : A -> float) (l : list A) : Prop :=
  ForallOrdPairs (fun a b => PrimFloat.ltb (key b) (key a) = false) l.

Lemma insert_by_ascending {A} (key : A -> float) x l :
  ascending key l -> ascending key (insert_by key x l).
Proof.
unfold ascending. induction 1 as [|y l Hy Hl IH]; cbn [insert_by].
- repeat constructor.
- destruct (PrimFloat.ltb (key x) (key y)) eqn:E.
  + constructor; [|now constructor]. constructor; [now apply ltb_asym|].
    eapply Forall_impl; [exact Hy|]. intros z Hz. cbn beta in Hz.
    destruct (PrimFloat.ltb (key z) (key x)) eqn:E'; [|reflexivity].
    rewrite <- Hz. symmetry. now apply ltb_trans with (key x).
  + constructor; [|assumption].
    apply Forall_forall. intros z Hz. apply insert_by_elem in Hz as [->|Hz]; [assumption|].
    rewrite Forall_forall in Hy. now apply Hy.
Qed.

Lemma sort_by_ascending {A} (key : A -> float) l : ascending key (sort_by key l).
Proof.
unfold sort_by. assert (H : ascending key (@nil A)) by constructor.
revert H. generalize (@nil A). induction l as [|x l IH]; intros acc H; [assumption|].
cbn [fold_left]. now apply IH, insert_by_ascending.
Qed.

Lemma ascending_snoc {A} (key : A -> float) l x :
  ascending key (l ++ [x]) ->
  ascending key l /\ Forall (fun a => PrimFloat.ltb (key x) (key a) = false) l.
Proof.
unfold ascending. induction l as [|a l IH]; cbn [app]; intros H.
- split; constructor.
- inversion H as [|? ? Ha Hl]; subst. destruct (IH Hl) as [H1 H2].
  apply Forall_app in Ha as [Ha Hx]. apply Forall_cons in Hx as [Hx _].
  split; constructor; assumption.
Qed.

(** X26: [auto_detect] fails with [IndexError], leaving the state as
    it is, exactly when fewer of the gaps between consecutive blocks
    are non-negative than half their number (rounded down), as on a
    page of three columns side by side; otherwise it returns. *)
Theorem auto_detect_index_error blocks st d page :
  doc st = Some d -> d !! page_index st = Some page ->
  Forall (fun b => PrimFloat.is_nan (k1 b) = false) blocks ->
  let gaps := gaps_of (sort_by k1 blocks) in
  let nonneg := List.filter (fun g => PrimFloat.leb 0 g) gaps in
  (length nonneg < length gaps / 2 -> auto_detect cfg blocks st = Raised "IndexError" st []) /\
  (length gaps / 2 <= length nonneg ->
   exists st', auto_detect cfg blocks st = Returned st' [Render]).
Proof.
intros Hd Hp _ gaps nonneg. unfold auto_detect. rewrite Hd.
destruct d as [|p0 d']; [discriminate|]. rewrite Hp. fold gaps.
unfold median_gap. fold nonneg.
split; intros H.
- destruct gaps as [|g gaps'] eqn:Eg; [cbn in H; lia|].
  rewrite lookup_ge_None_2; [reflexivity|].
  rewrite sort_by_length, length_app. cbn [length] in H |- *. lia.
- destruct gaps as [|g gaps'] eqn:Eg; [eexists; reflexivity|].
  destruct (lookup_lt_is_Some_2
              (sort_by id (nonneg ++ [0%float])) (length (g :: gaps') / 2)) as [m Hm].
  { rewrite sort_by_length, length_app. cbn [length] in H |- *. lia. }
  rewrite Hm. eexists; reflexivity.
Qed.

Lemma covers_block_rect b : covers (block_rect b) b.
Proof. unfold covers, block_rect. repeat split; apply ltb_irrefl. Qed.

Lemma covers_grow x0 y0 x1 y1 b b' :
  covers (x0, y0, x1, y1) b ->
  covers (min2 x0 (k0 b'), y0, max2 x1 (k2 b'), max2 y1 (k3 b')) b.
Proof.
unfold covers. intros (H1 & H2 & H3 & H4).
repeat split; [now apply min2_below | assumption | now apply max2_above | now apply max2_above].
Qed.

Lemma covers_grown x0 y0 x1 y1 b' :
  PrimFloat.ltb (k1 b') y0 = false ->
  covers (min2 x0 (k0 b'), y0, max2 x1 (k2 b'), max2 y1 (k3 b')) b'.
Proof.
unfold covers. intros H.
repeat split; [apply min2_below_r | assumption | apply max2_above_r | apply max2_above_r].
Qed.

(** What holds of the grouping loop after the blocks [seen]. *)
Definition grouped (seen : list Block) (acc : option Rect * list Rect) : Prop :=
  (forall b, b ∈ seen ->
     (exists r, r ∈ acc.2 /\ covers r b) \/ (exists c, acc.1 = Some c /\ covers c b)) /\
  (forall c, acc.1 = Some c -> exists f, f ∈ seen /\ c.1.1.2 = k1 f) /\
  (seen <> [] -> acc.1 <> None).

Lemma group_fold_grouped threshold bs :
  ascending k1 bs -> grouped bs (fold_left (group_step threshold) bs (None, [])).
Proof.
induction bs as [|b bs IH] using rev_ind; intros Hasc.
- repeat split; cbn; [intros b Hb; now apply elem_of_nil in Hb | discriminate | congruence].
- apply ascending_snoc in Hasc as [Hasc Hb]. specialize (IH Hasc).
  rewrite fold_left_app. cbn [fold_left].
  destruct (fold_left (group_step threshold) bs (None, [])) as [[[[[cx0 cy0] cx1] cy1]|] regs].
  + destruct IH as (Hcov & Htop & _). cbn [fst snd] in Hcov, Htop.
    destruct (Htop _ eq_refl) as (f & Hf & Hcy). cbn [fst snd] in Hcy. subst cy0.
    cbn [group_step].
    destruct (PrimFloat.ltb threshold (k1 b - cy1)%float).
    * repeat split; cbn [fst snd].
      -- intros b' Hb'. apply elem_of_app in Hb' as [Hb'|Hb'].
         ++ left. destruct (Hcov b' Hb') as [(r & Hr & Hc)|(c & [= <-] & Hc)].
            ** exists r. split; [apply elem_of_app; auto | assumption].
            ** eexists. split; [apply elem_of_app; right; apply list_elem_of_singleton;
                                reflexivity | assumption].
         ++ apply list_elem_of_singleton in Hb' as ->. right.
            eexists. split; [reflexivity | apply covers_block_rect].
      -- intros c [= <-]. exists b. split; [apply elem_of_app; right; now left | reflexivity].
      -- discriminate.
    * repeat split; cbn [fst snd].
      -- intros b' Hb'. apply elem_of_app in Hb' as [Hb'|Hb'].
         ++ destruct (Hcov b' Hb') as [(r & Hr & Hc)|(c & [= <-] & Hc)].
            ** left. now exists r.
            ** right. eexists. split; [reflexivity | now apply covers_grow].
         ++ apply list_elem_of_singleton in Hb' as ->. right.
            eexists. split; [reflexivity|]. apply covers_grown.
            rewrite Forall_forall in Hb. now apply Hb.
      -- intros c [= <-]. exists f. split; [apply elem_of_app; auto | reflexivity].
      -- discriminate.
  + destruct IH as (_ & _ & Hne).
    assert (bs = []) as -> by (destruct bs; [reflexivity | exfalso; now apply Hne]).
    cbn [group_step app]. repeat split; cbn [fst snd].
    * intros b' Hb'. apply list_elem_of_singleton in Hb' as ->. right.
      eexists. split; [reflexivity | apply covers_block_rect].
    * intros c [= <-]. exists b. split; [now left | reflexivity].
    * discriminate.
Qed.

Lemma group_blocks_cover threshold bs b :
  ascending k1 bs -> b ∈ bs -> exists r, r ∈ group_blocks threshold bs /\ covers r b.
Proof.
intros Hasc Hb. unfold group_blocks.
destruct (group_fold_grouped threshold bs Hasc) as (Hcov & _ & _).
destruct (fold_left (group_step threshold) bs (None, [])) as [cur regs].
destruct (Hcov b Hb) as [(r & Hr & Hc)|(c & Hcur & Hc)]; cbn [fst snd] in *.
- exists r. split; [|assumption]. destruct cur; cbn [finish]; [apply elem_of_app|]; auto.
- subst cur. exists c. split; [|assumption]. cbn [finish].
  apply elem_of_app. right. now left.
Qed.

Lemma append_regions_spec page page_idx rs old :
  append_regions cfg page page_idx rs old
  = old ++ imap (fun i rr => new_region cfg page page_idx (length old + i) rr) rs.
Proof.
unfold append_regions. revert old. induction rs as [|rr rs IH]; intros old; cbn [fold_left imap].
- now rewrite app_nil_r.
- rewrite IH, <- app_assoc. cbn [app]. rewrite Nat.add_0_r. do 2 f_equal.
  apply imap_ext. intros i x _. cbn. rewrite length_app. cbn [length]. f_equal. lia.
Qed.

(** X27: where [auto_detect] returns, the regions it found follow the
    regions the page had (which are kept as they were), each with tag
    [p], the rectangles it computed and the ids numbered on from the
    count of the old regions; and every block of the page lies inside
    the rectangle of one of the new regions, on all four sides. *)
Theorem auto_detect_covers_blocks blocks st d page median :
  doc st = Some d -> d !! page_index st = Some page ->
  Forall (fun b => PrimFloat.is_nan (k1 b) = false) blocks ->
  median_gap (gaps_of (sort_by k1 blocks)) = Some median ->
  let old := default [] (regions st !! page_index st) in
  exists st' new,
    auto_detect cfg blocks st = Returned st' [Render] /\
    regions st' !! page_index st = Some (old ++ new) /\
    (forall b, b ∈ blocks -> exists r, r ∈ new /\ covers (r_rect r) b) /\
    Forall (fun r => r_tag r = s2u "p") new /\
    map r_id new
    = map (Editing.generate_region_id (page_index st)) (seq (length old) (length new)).
Proof.
intros Hd Hp _ Hm old. unfold auto_detect. rewrite Hd.
destruct d as [|p0 d']; [discriminate|]. rewrite Hp, Hm.
set (rs := group_blocks (threshold_of median) (sort_by k1 blocks)).
set (st1 := match rs with [] => st | _ :: _ => push_undo st end).
assert (Hregs : regions st1 = regions st) by (subst st1; now destruct rs).
rewrite Hregs. fold old. rewrite append_regions_spec.
eexists. eexists. split; [reflexivity|].
cbn [Editing.with_regions regions]. rewrite lookup_insert_eq.
split; [reflexivity|]. split; [|split].
- intros b Hb. apply (sort_by_elem k1) in Hb.
  destruct (group_blocks_cover (threshold_of median) _ b (sort_by_ascending k1 blocks) Hb)
    as (r & Hr & Hc). fold rs in Hr.
  apply list_elem_of_lookup in Hr as [i Hi].
  exists (new_region cfg page (page_index st) (length old + i) r). split; [|exact Hc].
  apply list_elem_of_lookup. exists i. now rewrite list_lookup_imap, Hi.
- apply Forall_forall. intros r Hr. apply list_elem_of_lookup in Hr as [i Hi].
  rewrite list_lookup_imap in Hi. destruct (rs !! i); [|discriminate].
  now injection Hi as <-.
- apply list_eq. intros i. rewrite !list_lookup_fmap, list_lookup_imap, length_imap.
  destruct (rs !! i) as [r|] eqn:Hi; cbn.
  + rewrite lookup_seq_lt by (now apply lookup_lt_Some in Hi). reflexivity.
  + rewrite lookup_seq_ge by (now apply lookup_ge_None in Hi). reflexivity.
Qed.

End AutoDetectFacts.

Lemma auto_detect_index_error_witness :
  AutoDetect.auto_detect Samples.cfg AutoDetect.three_columns Samples.st_blank
  = Py.Raised "IndexError" Samples.st_blank [].
Proof.
apply (auto_detect_index_error Samples.cfg AutoDetect.three_columns Samples.st_blank
         [Samples.page_blank] Samples.page_blank);
  [reflexivity | reflexivity | repeat constructor | vm_compute; lia].
Defined.

Lemma auto_detect_covers_blocks_witness :
  exists st' new,
    AutoDetect.auto_detect Samples.cfg AutoDetect.two_paragraphs Samples.st_blank
    = Py.Returned st' [Py.Render] /\
    Headings.regions st' !! 0%nat = Some ([Samples.region_at 1 1] ++ new) /\
    length new = 2.
Proof.
destruct (auto_detect_covers_blocks Samples.cfg AutoDetect.two_paragraphs Samples.st_blank
            [Samples.page_blank] Samples.page_blank 0%float)
  as (st' & new & H1 & H2 & _ & _ & H5);
  [reflexivity | reflexivity | repeat constructor | reflexivity |].
exists st', new. split; [exact H1|]. split; [exact H2|].
vm_compute in H1. injection H1 as <-.
vm_compute in H2. injection H2 as <-. reflexivity.
Defined.

(** ** Section ids are unique *)

Section SectionIdFacts.
Import Provider Sections SectionIds.
Variable cfg : Settings.
Variable page_index : nat.
Variable page : Page.

Lemma lex_lt_irrefl a : ~ lex_lt a a.
Proof. induction a as [|x a IH]; cbn; [tauto|]. intros [H|[_ H]]; [lia | auto]. Qed.

Lemma ids_increase_NoDup (l : list (list nat)) :
  ForallOrdPairs ids_increase l -> NoDup l.
Proof.
induction 1 as [|a l Ha _ IH]; constructor; [|assumption].
intros Hin. rewrite Forall_forall in Ha.
destruct (Ha a Hin eq_refl) as [H _]. now apply lex_lt_irrefl in H.
Qed.

Lemma digits_up_to sep a a' x x' :
  ~ is_digit sep -> Forall is_digit a -> Forall is_digit a' ->
  a ++ sep :: x = a' ++ sep :: x' -> a = a' /\ x = x'.
Proof.
intros Hsep Ha. revert a'. induction Ha as [|c a Hc _ IH]; intros a' Ha' E.
- destruct Ha' as [|c' a' Hc' _]; cbn in E.
  + now injection E.
  + injection E as <- _. contradiction.
- destruct Ha' as [|c' a' Hc' Ha']; cbn in E.
  + injection E as -> _. contradiction.
  + injection E as <- E. destruct (IH _ Ha' E) as [<- <-]. now split.
Qed.

Lemma str_of_nat_digits n : Forall is_digit (str_of_nat n).
Proof. apply string_of_uint_digits. Qed.

Lemma str_of_nat_nonempty n : str_of_nat n <> [].
Proof.
unfold str_of_nat. intros E.
destruct (Nat.to_uint n) eqn:En; try discriminate E.
pose proof (f_equal Nat.of_uint En) as H.
rewrite DecimalNat.Unsigned.of_to in H. cbn in H. subst n. discriminate En.
Qed.

Lemma dot_not_digit : ~ is_digit 0x2E%N.
Proof. unfold is_digit. lia. Qed.

Lemma id_text_cons2 x y l :
  id_text (x :: y :: l) = str_of_nat x ++ 0x2E%N :: id_text (y :: l).
Proof. reflexivity. Qed.

Lemma id_text_one x : id_text [x] = str_of_nat x.
Proof. reflexivity. Qed.

Lemma id_text_nonempty x l : id_text (x :: l) <> [].
Proof.
destruct l as [|y l]; [rewrite id_text_one | rewrite id_text_cons2].
- apply str_of_nat_nonempty.
- intros E. apply app_eq_nil in E as [E _]. now apply str_of_nat_nonempty in E.
Qed.

Lemma id_text_inj a b : id_text a = id_text b -> a = b.
Proof.
revert b. induction a as [|x a IH]; intros [|y b] E.
- reflexivity.
- symmetry in E. now apply id_text_nonempty in E.
- now apply id_text_nonempty in E.
- destruct a as [|x' a], b as [|y' b]; rewrite ?id_text_cons2, ?id_text_one in E.
  + apply str_of_nat_inj in E. now subst.
  + exfalso. pose proof (str_of_nat_digits x) as Hx. rewrite E in Hx.
    apply Forall_app in Hx as [_ Hx]. apply Forall_cons in Hx as [Hx _].
    now apply dot_not_digit.
  + exfalso. pose proof (str_of_nat_digits y) as Hy. rewrite <- E in Hy.
    apply Forall_app in Hy as [_ Hy]. apply Forall_cons in Hy as [Hy _].
    now apply dot_not_digit.
  + apply digits_up_to in E as [E1 E2];
      [|apply dot_not_digit|apply str_of_nat_digits..].
    apply str_of_nat_inj in E1. apply IH in E2. congruence.
Qed.

(** X28: whatever the regions, no two sections of the output carry the
    same [id]: the id texts [page.n.m...] of the [<section>] elements
    are pairwise distinct. *)
Theorem build_section_ids_distinct regs :
  NoDup (map id_text (section_ids (build_lines cfg page_index page regs))).
Proof.
apply NoDup_fmap_2; [intros a b; apply id_text_inj|].
apply ids_increase_NoDup. unfold build_lines.
rewrite section_ids_app, section_ids_closes, app_nil_r.
apply (inv_ordered page_index), (Inv_loop cfg page_index page), Inv_init.
Qed.

End SectionIdFacts.
